(** * PokePlusPlus: the simulation core, embedded and verified

    A shallow embedding of the terrain height field ([World]), the capsule
    physics and shake animation ([App::updatePokeballs], [App::updateTiming]),
    the creature state machine ([Pokemon]) and the inventory manager
    ([PokemonController]).

    Scalars.  The source computes in C++ [float]; here a scalar is a
    rational ([Q]) and numeric equality is [Qeq] ([==]).  The height field
    ([World::FromHeightMap], [World::heightAt]) is modelled in binary32:
    every operation is rounded with [fl32], because what it returns at a
    grid point depends on the rounding.  Elsewhere arithmetic is exact, and
    the properties stated there are those that do not depend on rounding:
    flags, counts, the branch taken, the sign of a result, and results named
    by the expression the code computes.  The transcendental functions of
    the C math library are taken as a parameter ([Libm]). *)

From Stdlib Require Import ZArith QArith Qround Qabs Qpower List Bool Lia Lqa Setoid.
Import ListNotations.

Set Implicit Arguments.
Open Scope Q_scope.

(** ** Scalars *)

(** [a < b] on floats, as a boolean. *)
Definition Qltb (a b : Q) : bool := negb (Qle_bool b a).

(** [a <= b] on floats, as a boolean. *)
Definition Qleb (a b : Q) : bool := Qle_bool a b.

(** [std::clamp(v, lo, hi)]: [(v < lo) ? lo : (hi < v) ? hi : v]. *)
Definition clampf (v lo hi : Q) : Q :=
  if Qltb v lo then lo else if Qltb hi v then hi else v.

(** [std::clamp] on [int]. *)
Definition clampi (v lo hi : Z) : Z :=
  if (v <? lo)%Z then lo else if (hi <? v)%Z then hi else v.

(** [glm::min(a, b)]: [(b < a) ? b : a]. *)
Definition minf (a b : Q) : Q := if Qltb b a then b else a.

(** Round a scalar that is not negative to the nearest integer, ties to the
    even one. *)
Definition roundEven (x : Q) : Z :=
  let f := Qfloor x in
  let r := x - inject_Z f in
  if Qltb r (1 # 2) then f
  else if Qltb (1 # 2) r then (f + 1)%Z
  else if Z.even f then f else (f + 1)%Z.

(** The binade of a positive scalar: [floor (log2 a)]. *)
Definition binade (a : Q) : Z :=
  let k := (Z.log2 (Qnum a) - Z.log2 (Zpos (Qden a)))%Z in
  if Qleb (2 ^ k) a then k else (k - 1)%Z.

(** The exponent of the binary32 quantum at a positive scalar: [e - 23] in
    the binade [e], and [-149] below [2 ^ -126]. *)
Definition quantum (a : Q) : Z := (Z.max (binade a) (-126) - 23)%Z.

(** Rounding to binary32 (C++ [float]), to nearest with ties to even: the
    result of one [float] operation on the exact result of that operation.
    Overflow to infinity is not modelled. *)
Definition fl32 (x : Q) : Q :=
  let x := Qred x in
  if Qeq_bool x 0 then 0 else
  let a := Qabs x in
  let q := 2 ^ quantum a in
  let m := Qred (inject_Z (roundEven (a / q)) * q) in
  if Qltb x 0 then - m else m.

(** [float(n)] for an [int] [n]. *)
Definition ofInt (n : Z) : Q := fl32 (inject_Z n).

(** The math-library functions the simulation calls. *)
Record Libm : Type := mkLibm {
  sinf : Q -> Q;
  cosf : Q -> Q;
  sqrtf : Q -> Q;
  atan2f : Q -> Q -> Q
}.

(** The one fact about [sqrt] the terrain fallback relies on. *)
Definition sqrt_exact_at_one (M : Libm) : Prop :=
  forall q, q == 1 -> sqrtf M q == 1.

(** A rational stand-in for the math library, used to run the model on
    concrete inputs: integer square root of numerator times denominator over
    the denominator, and short Taylor polynomials. *)
Definition libm_rational : Libm :=
  mkLibm (fun a => a - a * a * a / 6)
         (fun a => 1 - a * a / 2)
         (fun q => Z.sqrt (Qnum q * Zpos (Qden q)) # Qden q)
         (fun y x => if Qeq_bool x 0 then 0 else y / x).

(** ** Vectors ([glm::vec3]) *)

Record vec3 : Type := mkVec3 { vx : Q; vy : Q; vz : Q }.

Definition vzero : vec3 := mkVec3 0 0 0.
Definition vup : vec3 := mkVec3 0 1 0.

Definition vadd (a b : vec3) : vec3 :=
  mkVec3 (vx a + vx b) (vy a + vy b) (vz a + vz b).
Definition vsub (a b : vec3) : vec3 :=
  mkVec3 (vx a - vx b) (vy a - vy b) (vz a - vz b).
Definition vscale (a : vec3) (k : Q) : vec3 :=
  mkVec3 (vx a * k) (vy a * k) (vz a * k).
Definition vmul (a b : vec3) : vec3 :=
  mkVec3 (vx a * vx b) (vy a * vy b) (vz a * vz b).
Definition vdot (a b : vec3) : Q :=
  vx a * vx b + vy a * vy b + vz a * vz b.

(** Component-wise numeric equality. *)
Definition veq (a b : vec3) : Prop :=
  vx a == vx b /\ vy a == vy b /\ vz a == vz b.

(** [glm::length2]. *)
Definition vlength2 (a : vec3) : Q := vdot a a.
(** [glm::length]. *)
Definition vlength (M : Libm) (a : vec3) : Q := sqrtf M (vdot a a).
(** [glm::normalize(v)] is [v * inversesqrt(dot(v, v))]. *)
Definition vnormalize (M : Libm) (a : vec3) : vec3 :=
  vscale a (1 / sqrtf M (vdot a a)).
(** [glm::reflect(I, N)] is [I - N * dot(N, I) * 2]. *)
Definition vreflect (i n : vec3) : vec3 :=
  vsub i (vscale n (vdot n i * 2)).

(** ** Terrain height field (World.cpp) *)

Module World.

(** The private fields of [class World] that the queries read. *)
Record t : Type := mk {
  heights_ : list Q;
  imgW_ : Z;
  imgH_ : Z;
  cellSize_ : Q;
  halfWm_ : Q;
  halfZm_ : Q
}.

(** [World::World()]: no samples, the in-class initialisers. *)
Definition default : t := mk [] 0 0 1 0 0.

(** [idx(i, j)]. *)
Definition idx (w : t) (i j : Z) : Z := (j * imgW_ w + i)%Z.

(** [heights_[k]]. *)
Definition sample (w : t) (k : Z) : Q := nth (Z.to_nat k) (heights_ w) 0.

(** The lambda [Hc] of [heightAt]: border-clamped sample. *)
Definition Hc (w : t) (ii jj : Z) : Q :=
  sample w (idx w (clampi ii 0 (imgW_ w - 1)) (clampi jj 0 (imgH_ w - 1))).

(** The clamped grid coordinate of [heightAt] along one axis:
    [(x + half) / cellSize_] clamped to [[0, float(n - 1)]]. *)
Definition gridCoord (w : t) (x half : Q) (n : Z) : Q :=
  clampf (fl32 (fl32 (x + half) / cellSize_ w)) 0 (ofInt (n - 1)).

(** One blend [(1 - t) * a + t * b] of [heightAt]. *)
Definition lerp (t a b : Q) : Q :=
  fl32 (fl32 (fl32 (1 - t) * a) + fl32 (t * b)).

(** [World::heightAt]. *)
Definition heightAt (w : t) (x z : Q) : Q :=
  if ((imgW_ w <=? 1) || (imgH_ w <=? 1))%Z then 0 else
  let u := gridCoord w x (halfWm_ w) (imgW_ w) in
  let v := gridCoord w z (halfZm_ w) (imgH_ w) in
  let i := Qfloor u in
  let j := Qfloor v in
  let tx := fl32 (u - ofInt i) in
  let tz := fl32 (v - ofInt j) in
  let h00 := Hc w i j in
  let h10 := Hc w (i + 1) j in
  let h01 := Hc w i (j + 1) in
  let h11 := Hc w (i + 1) (j + 1) in
  let h0 := lerp tx h00 h10 in
  let h1 := lerp tx h01 h11 in
  lerp tz h0 h1.

(** The world coordinates [FromHeightMap] gives the vertex of column [i]
    and of row [j]: [i * cellSize - halfWm_], [j * cellSize - halfZm_]. *)
Definition vertexX (w : t) (i : Z) : Q :=
  fl32 (fl32 (ofInt i * cellSize_ w) - halfWm_ w).
Definition vertexZ (w : t) (j : Z) : Q :=
  fl32 (fl32 (ofInt j * cellSize_ w) - halfZm_ w).

(** [World::normalAt]. *)
Definition normalAt (M : Libm) (w : t) (x z : Q) : vec3 :=
  let eps := cellSize_ w in
  let hL := heightAt w (x - eps) z in
  let hR := heightAt w (x + eps) z in
  let hD := heightAt w x (z - eps) in
  let hU := heightAt w x (z + eps) in
  let hx := (hR - hL) / (2 * eps) in
  let hz := (hU - hD) / (2 * eps) in
  vnormalize M (mkVec3 (- hx) 1 (- hz)).

(** A decoded grayscale image: [stbi_load] with one channel. *)
Record image : Type := mkImage { pixels : list Z; wpx : Z; hpx : Z }.

(** [World::FromHeightMap], the fields the queries read.  [None] is a failed
    [stbi_load]: the default world is returned. *)
Definition FromHeightMap (img : option image) (cellSize heightScale : Q) : t :=
  match img with
  | None => default
  | Some im =>
      let W := (wpx im - 1)%Z in
      let H := (hpx im - 1)%Z in
      let row (j : nat) :=
        map (fun i : nat =>
               let gray :=
                 fl32 (ofInt (nth (j * Z.to_nat (wpx im) + i) (pixels im) 0%Z)
                       / 255) in
               fl32 (gray * heightScale))
            (seq 0 (Z.to_nat (wpx im))) in
      mk (flat_map row (seq 0 (Z.to_nat (hpx im))))
         (wpx im) (hpx im) cellSize
         (fl32 (fl32 (ofInt W * cellSize) * (1 # 2)))
         (fl32 (fl32 (ofInt H * cellSize) * (1 # 2)))
  end.

End World.

(** ** Random numbers ([std::rand]) *)

(** The process-wide generator: [draws k] is the [k]-th value of
    [rand() / RAND_MAX], [cursor] the number of values consumed so far. *)
Record Rng : Type := mkRng { draws : nat -> Q; cursor : nat }.

(** [randomFloat()]: the next sample and the advanced generator. *)
Definition randomFloat (r : Rng) : Q * Rng :=
  (draws r (cursor r), mkRng (draws r) (S (cursor r))).

(** ** Creatures (Pokemon.h, Pokemon.cpp) *)

Inductive PokemonState : Type :=
  Idle | Walking | Capturing | Captured | CaptureFailed.

Definition PokemonState_eqb (a b : PokemonState) : bool :=
  match a, b with
  | Idle, Idle | Walking, Walking | Capturing, Capturing
  | Captured, Captured | CaptureFailed, CaptureFailed => true
  | _, _ => false
  end.

(** [struct PokemonSpecies], without the render model and colour. *)
Record PokemonSpecies : Type := mkSpecies {
  displayScale : Q;
  catchRate : Q
}.

(** [class Pokemon], without the render model; [species_] may be null. *)
Record Pokemon : Type := mkPokemon {
  id_ : Z;
  species_ : option PokemonSpecies;
  position_ : vec3;
  velocity_ : vec3;
  wanderDir_ : vec3;
  speed_ : Q;
  radius_ : Q;
  visible_ : bool;
  state_ : PokemonState;
  timeUntilDirectionChange_ : Q;
  captureTimer_ : Q;
  yRotation_ : Q
}.

Module Pokemon.

Definition setPosition (v : vec3) (p : Pokemon) : Pokemon :=
  mkPokemon (id_ p) (species_ p) v (velocity_ p) (wanderDir_ p) (speed_ p)
    (radius_ p) (visible_ p) (state_ p) (timeUntilDirectionChange_ p)
    (captureTimer_ p) (yRotation_ p).

Definition setState (s : PokemonState) (p : Pokemon) : Pokemon :=
  mkPokemon (id_ p) (species_ p) (position_ p) (velocity_ p) (wanderDir_ p)
    (speed_ p) (radius_ p) (visible_ p) s (timeUntilDirectionChange_ p)
    (captureTimer_ p) (yRotation_ p).

Definition setVisible (v : bool) (p : Pokemon) : Pokemon :=
  mkPokemon (id_ p) (species_ p) (position_ p) (velocity_ p) (wanderDir_ p)
    (speed_ p) (radius_ p) v (state_ p) (timeUntilDirectionChange_ p)
    (captureTimer_ p) (yRotation_ p).

Definition isCapturing (p : Pokemon) : bool := PokemonState_eqb (state_ p) Capturing.
Definition isCaptured (p : Pokemon) : bool := PokemonState_eqb (state_ p) Captured.
Definition captureFailed (p : Pokemon) : bool := PokemonState_eqb (state_ p) CaptureFailed.

(** [getCatchRate]: [species_ ? species_->catchRate : 0.5f]. *)
Definition getCatchRate (p : Pokemon) : Q :=
  match species_ p with Some s => catchRate s | None => 1 # 2 end.

(** The heading [pickNewWanderDirection] computes from one sample. *)
Definition headingOf (M : Libm) (sample : Q) : vec3 :=
  let angle := sample * (62831853 # 10000000) in
  vnormalize M (mkVec3 (cosf M angle) 0 (sinf M angle)).

(** [Pokemon::pickNewWanderDirection]: two samples, then [Walking]. *)
Definition pickNewWanderDirection (M : Libm) (r : Rng) (p : Pokemon) : Pokemon * Rng :=
  let (s1, r1) := randomFloat r in
  let dir := headingOf M s1 in
  let (s2, r2) := randomFloat r1 in
  (mkPokemon (id_ p) (species_ p) (position_ p) (vscale dir (speed_ p)) dir
     (speed_ p) (radius_ p) (visible_ p) Walking (1 + 2 * s2)
     (captureTimer_ p) (yRotation_ p), r2).

(** The constructor: in-class initialisers, then a first heading. *)
Definition create (M : Libm) (r : Rng) (species : option PokemonSpecies)
    (startPos : vec3) (moveSpeed collisionRadius : Q) (id : Z) : Pokemon * Rng :=
  pickNewWanderDirection M r
    (mkPokemon id species startPos vzero vzero moveSpeed collisionRadius
       true Idle 0 0 0).

(** The obstacle test of [update]: horizontal distance to an obstacle
    centre below [radius_ + 0.7]. *)
Definition nearObstacle (M : Libm) (p : Pokemon) (nextPos obstacle : vec3) : bool :=
  let dx := vx obstacle - vx nextPos in
  let dz := vz obstacle - vz nextPos in
  Qltb (sqrtf M (dx * dx + dz * dz)) (radius_ p + (7 # 10)).

(** The wander part of [update], block by block.  First the move: step to
    the candidate position unless it is near an obstacle, in which case the
    creature stays and picks a new heading. *)
Definition moveOrTurn (M : Libm) (dt : Q) (obstacles : list vec3) (r : Rng)
    (p : Pokemon) : Pokemon * Rng :=
  let nextPos := vadd (position_ p) (vscale (velocity_ p) dt) in
  let collided := existsb (nearObstacle M p nextPos) obstacles in
  if collided then pickNewWanderDirection M r p
  else (setPosition nextPos p, r).

(** Then the terrain: [position_.y = world->heightAt(...)] when there is a
    world. *)
Definition followTerrain (world : option World.t) (p : Pokemon) : Pokemon :=
  match world with
  | Some w =>
      setPosition
        (mkVec3 (vx (position_ p))
                (World.heightAt w (vx (position_ p)) (vz (position_ p)))
                (vz (position_ p))) p
  | None => p
  end.

(** Then the heading timer. *)
Definition countDown (M : Libm) (dt : Q) (r : Rng) (p : Pokemon) : Pokemon * Rng :=
  let t := timeUntilDirectionChange_ p - dt in
  let p' :=
    mkPokemon (id_ p) (species_ p) (position_ p) (velocity_ p) (wanderDir_ p)
      (speed_ p) (radius_ p) (visible_ p) (state_ p) t (captureTimer_ p)
      (yRotation_ p) in
  if Qleb t 0 then pickNewWanderDirection M r p' else (p', r).

(** Last the facing: rotate towards the movement of this call. *)
Definition faceMovement (M : Libm) (oldPos : vec3) (p : Pokemon) : Pokemon :=
  let moveDir := vsub (position_ p) oldPos in
  if Qltb (1 # 1000) (vlength M moveDir) then
    mkPokemon (id_ p) (species_ p) (position_ p) (velocity_ p) (wanderDir_ p)
      (speed_ p) (radius_ p) (visible_ p) (state_ p)
      (timeUntilDirectionChange_ p) (captureTimer_ p)
      (atan2f M (vx moveDir) (vz moveDir))
  else p.

(** [Pokemon::update]. *)
Definition update (M : Libm) (dt : Q) (world : option World.t)
    (obstacles : list vec3) (r : Rng) (p : Pokemon) : Pokemon * Rng :=
  match state_ p with
  | Captured => (p, r)
  | CaptureFailed =>
      let (p1, r1) := pickNewWanderDirection M r p in
      (setState Idle (setVisible true p1), r1)
  | Capturing =>
      (mkPokemon (id_ p) (species_ p) (position_ p) (velocity_ p) (wanderDir_ p)
         (speed_ p) (radius_ p) (visible_ p) (state_ p)
         (timeUntilDirectionChange_ p) (captureTimer_ p + dt) (yRotation_ p), r)
  | _ =>
      let oldPos := position_ p in
      let (p1, r1) := moveOrTurn M dt obstacles r p in
      let p2 := followTerrain world p1 in
      let (p3, r3) := countDown M dt r1 p2 in
      (faceMovement M oldPos p3, r3)
  end.

(** [Pokemon::startCapture]. *)
Definition startCapture (p : Pokemon) : Pokemon :=
  mkPokemon (id_ p) (species_ p) (position_ p) vzero (wanderDir_ p)
    (speed_ p) (radius_ p) (visible_ p) Capturing
    (timeUntilDirectionChange_ p) 0 (yRotation_ p).

(** [Pokemon::markCaptured]. *)
Definition markCaptured (p : Pokemon) : Pokemon :=
  setVisible false (setState Captured p).

(** [Pokemon::markCaptureFailed]. *)
Definition markCaptureFailed (p : Pokemon) : Pokemon :=
  setVisible true (setState CaptureFailed p).

End Pokemon.

(** ** Capsules (Pokeball.h) *)

Record Pokeball : Type := mkPokeball {
  position : vec3;
  velocity : vec3;
  radius : Q;
  active : bool;
  grounded : bool;
  life : Q;
  locked : bool;
  lockTimer : Q;
  shakeCount : Z;
  shakePhase : Q;
  captureBasePos : vec3;
  captureSuccess : bool;
  targetPokemonId : Z
}.

(** The in-class initialisers of [struct Pokeball]. *)
Definition Pokeball_default : Pokeball :=
  mkPokeball vzero vzero (3 # 10) true false 10 false 0 0 0 vzero false (-1).

(** ** Roster and inventory (PokemonController.h, PokemonController.cpp) *)

Record PokemonController : Type := mkController {
  pokemon_ : list Pokemon;
  inventory_ : list Pokemon;
  outPokemonIndices_ : list nat;
  nextPokemonId_ : Z
}.

Module Controller.

(** A freshly constructed controller. *)
Definition empty : PokemonController := mkController [] [] [] 1.

Definition set_pokemon (ps : list Pokemon) (c : PokemonController) : PokemonController :=
  mkController ps (inventory_ c) (outPokemonIndices_ c) (nextPokemonId_ c).

(** [collide]: sphere against sphere, squared distance against squared sum
    of radii. *)
Definition collide (p1 : vec3) (r1 : Q) (p2 : vec3) (r2 : Q) : bool :=
  let rsum := r1 + r2 in
  let dist2 := vlength2 (vsub p1 p2) in
  Qleb dist2 (rsum * rsum).

(** [spawnPokemon]: id [0] asks for the next automatic id. *)
Definition spawnPokemon (M : Libm) (r : Rng) (species : option PokemonSpecies)
    (pos : vec3) (speed rad : Q) (id : Z) (c : PokemonController)
    : PokemonController * Rng :=
  let actualId := if (id =? 0)%Z then nextPokemonId_ c else id in
  let next := if (id =? 0)%Z then (nextPokemonId_ c + 1)%Z else nextPokemonId_ c in
  let (p, r') := Pokemon.create M r species pos speed rad actualId in
  (mkController (pokemon_ c ++ [p]) (inventory_ c) (outPokemonIndices_ c) next, r').

(** The loop of [updateAll] over the roster, threading the generator. *)
Fixpoint updateEach (M : Libm) (dt : Q) (world : option World.t)
    (obstacles : list vec3) (r : Rng) (ps : list Pokemon) : list Pokemon * Rng :=
  match ps with
  | [] => ([], r)
  | p :: ps' =>
      let (p', r1) := Pokemon.update M dt world obstacles r p in
      let (ps'', r2) := updateEach M dt world obstacles r1 ps' in
      (p' :: ps'', r2)
  end.

(** [updateAll]. *)
Definition updateAll (M : Libm) (dt : Q) (world : option World.t)
    (obstacles : list vec3) (r : Rng) (c : PokemonController)
    : PokemonController * Rng :=
  let (ps, r') := updateEach M dt world obstacles r (pokemon_ c) in
  (set_pokemon ps c, r').

(** [isPokemonOut]: [std::find] over the side table. *)
Definition isPokemonOut (inventoryIndex : nat) (c : PokemonController) : bool :=
  existsb (Nat.eqb inventoryIndex) (outPokemonIndices_ c).

(** [hasAnyPokemonOut]. *)
Definition hasAnyPokemonOut (c : PokemonController) : bool :=
  match outPokemonIndices_ c with [] => false | _ => true end.

(** [isOwnedPokemon], on the side table and inventory it reads. *)
Definition isOwned (out : list nat) (inv : list Pokemon) (p : Pokemon) : bool :=
  match out with
  | [] => false
  | _ =>
      existsb (fun outIdx =>
                 match nth_error inv outIdx with
                 | Some q => (id_ p =? id_ q)%Z
                 | None => false
                 end) out
  end.

Definition isOwnedPokemon (c : PokemonController) (p : Pokemon) : bool :=
  isOwned (outPokemonIndices_ c) (inventory_ c) p.

(** What a hit does to the capsule: the assignments of
    [handlePokeballCapture] on [ball], with the sampled outcome. *)
Definition lockOnto (p : Pokemon) (roll : Q) (ball : Pokeball) : Pokeball :=
  mkPokeball (vadd (position_ p) (mkVec3 0 (radius_ p) 0)) vzero (radius ball)
    false (grounded ball) (life ball) true 0 (shakeCount ball) (shakePhase ball)
    (captureBasePos ball) (Qleb roll (Pokemon.getCatchRate p)) (id_ p).

(** The inner loop of [handlePokeballCapture]: the first capsule that is
    not locked, did not target [p] before and overlaps [p] starts the
    capture; the loop breaks there. *)
Fixpoint tryBalls (p : Pokemon) (balls : list Pokeball) (r : Rng)
    : Pokemon * list Pokeball * Rng :=
  match balls with
  | [] => (p, [], r)
  | ball :: rest =>
      if locked ball || (targetPokemonId ball =? id_ p)%Z
         || negb (collide (position ball) (radius ball) (position_ p) (radius_ p))
      then
        let '(p', rest', r') := tryBalls p rest r in (p', ball :: rest', r')
      else
        let p' := Pokemon.setVisible false (Pokemon.startCapture p) in
        let (roll, r') := randomFloat r in
        (p', lockOnto p' roll ball :: rest, r')
  end.

(** Which creatures the hit test skips. *)
Definition skipsCapture (out : list nat) (inv : list Pokemon) (p : Pokemon) : bool :=
  Pokemon.isCaptured p || Pokemon.isCapturing p || Pokemon.captureFailed p
  || isOwned out inv p.

(** The outer loop of [handlePokeballCapture]. *)
Fixpoint captureEach (out : list nat) (inv : list Pokemon) (ps : list Pokemon)
    (balls : list Pokeball) (r : Rng) : list Pokemon * list Pokeball * Rng :=
  match ps with
  | [] => ([], balls, r)
  | p :: ps' =>
      let '(p', balls', r') :=
        if skipsCapture out inv p then (p, balls, r) else tryBalls p balls r in
      let '(ps'', balls'', r'') := captureEach out inv ps' balls' r' in
      (p' :: ps'', balls'', r'')
  end.

(** [handlePokeballCapture]. *)
Definition handlePokeballCapture (c : PokemonController) (balls : list Pokeball)
    (r : Rng) : PokemonController * list Pokeball * Rng :=
  let '(ps, balls', r') :=
    captureEach (outPokemonIndices_ c) (inventory_ c) (pokemon_ c) balls r in
  (set_pokemon ps c, balls', r').

(** The loop of [updateInventory]: captured, hidden, not owned creatures are
    moved to the end of the inventory and erased from the roster. *)
Fixpoint promoteEach (out : list nat) (ps inv : list Pokemon)
    : list Pokemon * list Pokemon :=
  match ps with
  | [] => ([], inv)
  | p :: ps' =>
      if Pokemon.isCaptured p && negb (visible_ p) && negb (isOwned out inv p)
      then promoteEach out ps' (inv ++ [p])
      else let (ps'', inv') := promoteEach out ps' inv in (p :: ps'', inv')
  end.

(** [updateInventory]. *)
Definition updateInventory (c : PokemonController) : PokemonController :=
  let (ps, inv) := promoteEach (outPokemonIndices_ c) (pokemon_ c) (inventory_ c) in
  mkController ps inv (outPokemonIndices_ c) (nextPokemonId_ c).

(** [sendOutPokemon]. *)
Definition sendOutPokemon (inventoryIndex : nat) (pos : vec3)
    (c : PokemonController) : bool * PokemonController :=
  match nth_error (inventory_ c) inventoryIndex with
  | None => (false, c)
  | Some entry =>
      if hasAnyPokemonOut c then (false, c)
      else if isPokemonOut inventoryIndex c then (false, c)
      else
        let sentOut :=
          Pokemon.setVisible true
            (Pokemon.setState Idle (Pokemon.setPosition pos entry)) in
        (true, mkController (pokemon_ c ++ [sentOut]) (inventory_ c)
                 (outPokemonIndices_ c ++ [inventoryIndex]) (nextPokemonId_ c))
  end.

(** Erase the first element satisfying [f]; [None] when there is none. *)
Fixpoint eraseFirst {A : Type} (f : A -> bool) (l : list A) : option (list A) :=
  match l with
  | [] => None
  | x :: l' =>
      if f x then Some l'
      else match eraseFirst f l' with
           | Some r => Some (x :: r)
           | None => None
           end
  end.

(** The reverse search of [recallPokemon]: erase the last element
    satisfying [f]. *)
Definition eraseLast {A : Type} (f : A -> bool) (l : list A) : option (list A) :=
  match eraseFirst f (rev l) with
  | Some r => Some (rev r)
  | None => None
  end.

(** [recallPokemon]. *)
Definition recallPokemon (inventoryIndex : nat) (c : PokemonController)
    : bool * PokemonController :=
  match nth_error (inventory_ c) inventoryIndex with
  | None => (false, c)
  | Some entry =>
      match eraseFirst (Nat.eqb inventoryIndex) (outPokemonIndices_ c) with
      | None => (false, c)
      | Some out' =>
          let targetId := id_ entry in
          match eraseLast (fun p => (id_ p =? targetId)%Z && isOwnedPokemon c p)
                          (pokemon_ c) with
          | None => (false, c)
          | Some ps' =>
              (true, mkController ps' (inventory_ c) out' (nextPokemonId_ c))
          end
      end
  end.

(** The controller states a client can produce through the public
    interface.  [getPokemon()] hands the roster out by reference, so a client
    may rewrite the roster, and only the roster, arbitrarily. *)
Inductive reachable (M : Libm) : PokemonController -> Prop :=
| reach_empty : reachable M empty
| reach_spawnPokemon : forall c r species p speed rad id,
    reachable M c -> reachable M (fst (spawnPokemon M r species p speed rad id c))
| reach_updateAll : forall c dt world obstacles r,
    reachable M c -> reachable M (fst (updateAll M dt world obstacles r c))
| reach_handlePokeballCapture : forall c balls r,
    reachable M c -> reachable M (fst (fst (handlePokeballCapture c balls r)))
| reach_updateInventory : forall c,
    reachable M c -> reachable M (updateInventory c)
| reach_sendOutPokemon : forall c index p,
    reachable M c -> reachable M (snd (sendOutPokemon index p c))
| reach_recallPokemon : forall c index,
    reachable M c -> reachable M (snd (recallPokemon index c))
| reach_getPokemon : forall c ps,
    reachable M c -> reachable M (set_pokemon ps c).

End Controller.

(** ** The application state and the capsule engine (App.h, App.cpp,
       Constants.h) *)

Definition GRAVITY : Q := 98 # 10.
Definition BOUNCE_RESTITUTION : Q := 6 # 10.
Definition BOUNCE_FRICTION : Q := 95 # 100.
Definition GROUND_Y : Q := - (1 # 2).
Definition PHYSICS_TIMESTEP : Q := 1 # 120.
Definition PROJECTILE_RADIUS : Q := 2 # 10.
Definition PROJECTILE_LIFETIME : Q := 15.
Definition PROJECTILE_SPAWN_DISTANCE : Q := 1.
Definition PROJECTILE_UPWARD_VELOCITY : Q := 2.
Definition SHAKE_DURATION : Q := 6 # 10.
Definition MAX_SHAKES : Z := 3.

(** [App::Prop], without the render model. *)
Record Prop_ : Type := mkProp {
  pos : vec3;
  scale : vec3;
  aabbMinLocal : vec3;
  aabbMaxLocal : vec3
}.

(** A discrete action delivered by [handleInput]. *)
Inductive InputEvent : Type :=
| KeyDigit (index : nat)
| Throw (speed : Q)
| MoveCamera (camPos camFront : vec3).

(** The members of [class App] the simulation reads or writes, the static
    accumulator [acc] of [updateTiming], the process-wide generator, and two
    ghost counters: how often [updatePokeballs] ran and how often it ran the
    capture pass. *)
Record App : Type := mkApp {
  balls_ : list Pokeball;
  world_ : option World.t;
  props_ : list Prop_;
  pokemonController_ : option PokemonController;
  gravity_ : Q;
  bounceRestitution_ : Q;
  camPos_ : vec3;
  camFront_ : vec3;
  lastTicks_ : Z;
  dt_ : Q;
  t_ : Q;
  acc : Q;
  rng : Rng;
  increments : nat;
  capturePasses : nat
}.

Module App.

(** The state after [App::init]: no capsule, a fresh controller. *)
Definition init (world : option World.t) (props : list Prop_) (r : Rng)
    (ticks : Z) : App :=
  mkApp [] world props (Some Controller.empty) (98 # 10) (6 # 10)
    (mkVec3 0 2 (-5)) (mkVec3 0 0 (-1)) ticks 0 0 0 r 0 0.

Definition set_sim (bs : list Pokeball) (c : option PokemonController) (r : Rng)
    (n k : nat) (a : App) : App :=
  mkApp bs (world_ a) (props_ a) c (gravity_ a) (bounceRestitution_ a)
    (camPos_ a) (camFront_ a) (lastTicks_ a) (dt_ a) (t_ a) (acc a) r n k.

Definition set_balls (bs : list Pokeball) (a : App) : App :=
  set_sim bs (pokemonController_ a) (rng a) (increments a) (capturePasses a) a.

Definition set_controller (c : option PokemonController) (r : Rng) (a : App) : App :=
  set_sim (balls_ a) c r (increments a) (capturePasses a) a.

Definition set_camera (cp cf : vec3) (a : App) : App :=
  mkApp (balls_ a) (world_ a) (props_ a) (pokemonController_ a) (gravity_ a)
    (bounceRestitution_ a) cp cf (lastTicks_ a) (dt_ a) (t_ a) (acc a) (rng a)
    (increments a) (capturePasses a).

Definition set_clock (ticks : Z) (dt t accum : Q) (a : App) : App :=
  mkApp (balls_ a) (world_ a) (props_ a) (pokemonController_ a) (gravity_ a)
    (bounceRestitution_ a) (camPos_ a) (camFront_ a) ticks dt t accum (rng a)
    (increments a) (capturePasses a).

(** [glm::max], [glm::clamp] on scalars. *)
Definition maxf (a b : Q) : Q := if Qltb a b then b else a.
Definition glm_clamp (x lo hi : Q) : Q := minf (maxf x lo) hi.

(** The lambda [closestPointOnAABB]. *)
Definition closestPointOnAABB (p aabbMin aabbMax : vec3) : vec3 :=
  mkVec3 (glm_clamp (vx p) (vx aabbMin) (vx aabbMax))
         (glm_clamp (vy p) (vy aabbMin) (vy aabbMax))
         (glm_clamp (vz p) (vz aabbMin) (vz aabbMax)).

(** The bounce response shared by obstacles and terrain: reflect, scale by
    the restitution, then damp the tangential part only. *)
Definition bounce (e : Q) (v n : vec3) : vec3 :=
  let reflection := vreflect v n in
  let v1 := vscale reflection e in
  let normalVel := vscale n (vdot v1 n) in
  let tangentVel := vsub v1 normalVel in
  vadd normalVel (vscale tangentVel BOUNCE_FRICTION).

(** Push out along [n] by [penetration]; bounce only when moving into the
    surface. *)
Definition respond (e : Q) (n : vec3) (penetration : Q) (pv : vec3 * vec3)
    : vec3 * vec3 :=
  let (p, v) := pv in
  let p' := vadd p (vscale n penetration) in
  if Qltb (vdot v n) 0 then (p', bounce e v n) else (p', v).

(** One obstacle of the loop over [props_]. *)
Definition propCollide (M : Libm) (e rad : Q) (pv : vec3 * vec3) (prop : Prop_)
    : vec3 * vec3 :=
  let aabbMin := vadd (pos prop) (vmul (scale prop) (aabbMinLocal prop)) in
  let aabbMax := vadd (pos prop) (vmul (scale prop) (aabbMaxLocal prop)) in
  let closestPt := closestPointOnAABB (fst pv) aabbMin aabbMax in
  let delta := vsub (fst pv) closestPt in
  let distSq := vdot delta delta in
  let radiusSq := rad * rad in
  if Qltb distSq radiusSq then
    let dist := sqrtf M distSq in
    let collisionNormal :=
      if Qltb (1 # 10000) dist
      then mkVec3 (vx delta / dist) (vy delta / dist) (vz delta / dist)
      else vup in
    respond e collisionNormal (rad - dist) pv
  else pv.

(** Terrain height and normal under a point; the ground plane when there is
    no world. *)
Definition terrainUnder (M : Libm) (world : option World.t) (p : vec3) : Q * vec3 :=
  match world with
  | Some w => (World.heightAt w (vx p) (vz p), World.normalAt M w (vx p) (vz p))
  | None => (GROUND_Y, vup)
  end.

(** Signed distance from the terrain plane to the capsule centre. *)
Definition distToTerrain (M : Libm) (world : option World.t) (p : vec3) : Q :=
  let (terrainHeight, terrainNormal) := terrainUnder M world p in
  let terrainPoint := mkVec3 (vx p) terrainHeight (vz p) in
  vdot (vsub p terrainPoint) terrainNormal.

(** Gravity and position integration of a flying capsule. *)
Definition integrate (g step : Q) (b : Pokeball) : vec3 * vec3 :=
  let v := mkVec3 (vx (velocity b)) (vy (velocity b) - g * step) (vz (velocity b)) in
  (vadd (position b) (vscale v step), v).

(** The terrain response. *)
Definition terrainCollide (M : Libm) (e rad : Q) (world : option World.t)
    (pv : vec3 * vec3) : vec3 * vec3 :=
  let d := distToTerrain M world (fst pv) in
  if Qltb d rad
  then respond e (snd (terrainUnder M world (fst pv))) (rad - d) pv
  else pv.

(** The flying branch of the loop body of [updatePokeballs]. *)
Definition flyStep (M : Libm) (a : App) (step : Q) (b : Pokeball) : Pokeball :=
  let pv1 := integrate (gravity_ a) step b in
  let pv2 := fold_left (propCollide M (bounceRestitution_ a) (radius b)) (props_ a) pv1 in
  let pv3 := terrainCollide M (bounceRestitution_ a) (radius b) (world_ a) pv2 in
  mkPokeball (fst pv3) (snd pv3) (radius b) (active b) (grounded b)
    (life b - step) (locked b) (lockTimer b) (shakeCount b) (shakePhase b)
    (captureBasePos b) (captureSuccess b) (targetPokemonId b).

(** Shake completion: the first creature that is [Capturing] and within
    distance [1] of the base position receives the stored outcome. *)
Fixpoint resolveCapture (M : Libm) (base : vec3) (success : bool)
    (ps : list Pokemon) : list Pokemon :=
  match ps with
  | [] => []
  | p :: ps' =>
      if Pokemon.isCapturing p
         && Qltb (vlength M (vsub (position_ p) base)) 1
      then (if success then Pokemon.markCaptured p
            else Pokemon.markCaptureFailed p) :: ps'
      else p :: resolveCapture M base success ps'
  end.

(** The position the shake animation writes. *)
Definition shakePosition (M : Libm) (base : vec3) (phase : Q) : vec3 :=
  let shakeOffset := (12 # 100) * sinf M (phase * (628318 # 100000)) in
  mkVec3 (vx base + shakeOffset) (vy base) (vz base).

(** The locked branch of the loop body of [updatePokeballs]. *)
Definition lockedStep (M : Libm) (dt : Q) (b : Pokeball)
    (ctl : option PokemonController) : Pokeball * option PokemonController :=
  let timer := lockTimer b + dt in
  let base := if Qleb timer dt then position b else captureBasePos b in
  let phase := shakePhase b + dt / SHAKE_DURATION in
  let wrapped := Qleb 1 phase in
  let phase' := if wrapped then 0 else phase in
  let count' := if wrapped then (shakeCount b + 1)%Z else shakeCount b in
  let ctl' :=
    if wrapped && (MAX_SHAKES <=? count')%Z then
      match ctl with
      | Some c =>
          Some (Controller.set_pokemon
                  (resolveCapture M base (captureSuccess b) (pokemon_ c)) c)
      | None => None
      end
    else ctl in
  let position' :=
    if (count' <? MAX_SHAKES)%Z then shakePosition M base phase' else position b in
  (mkPokeball position' (velocity b) (radius b) (active b) (grounded b) (life b)
     (locked b) timer count' phase' base (captureSuccess b) (targetPokemonId b),
   ctl').

(** The loop body of [updatePokeballs] for one capsule. *)
Definition ballStep (M : Libm) (a : App) (dt : Q) (b : Pokeball)
    (ctl : option PokemonController) : Pokeball * option PokemonController :=
  if locked b then lockedStep M dt b ctl
  else if negb (active b) then (b, ctl)
  else (flyStep M a (minf dt (1 # 60)) b, ctl).

(** The main loop of [updatePokeballs]. *)
Fixpoint ballLoop (M : Libm) (a : App) (dt : Q) (balls : list Pokeball)
    (ctl : option PokemonController) : list Pokeball * option PokemonController :=
  match balls with
  | [] => ([], ctl)
  | b :: rest =>
      let (b', ctl1) := ballStep M a dt b ctl in
      let (rest', ctl2) := ballLoop M a dt rest ctl1 in
      (b' :: rest', ctl2)
  end.

(** The predicate of the final [remove_if]. *)
Definition expired (p : Pokeball) : bool :=
  Qleb (life p) 0 || (locked p && Qltb (28 # 10) (lockTimer p)).

(** The capsules after the main loop and the capture pass of
    [updatePokeballs], before expired ones are removed; with them the
    controller, the generator and whether the capture pass ran. *)
Definition beforeErase (M : Libm) (dt : Q) (a : App)
    : list Pokeball * option PokemonController * Rng * bool :=
  let (balls1, ctl1) := ballLoop M a dt (balls_ a) (pokemonController_ a) in
  match ctl1 with
  | Some c =>
      let '(c', balls2, r') := Controller.handlePokeballCapture c balls1 (rng a) in
      (balls2, Some c', r', true)
  | None => (balls1, None, rng a, false)
  end.

(** [App::updatePokeballs]. *)
Definition updatePokeballs (M : Libm) (dt : Q) (a : App) : App :=
  let '(balls2, ctl2, r', ran) := beforeErase M dt a in
  set_sim (filter (fun p => negb (expired p)) balls2) ctl2 r'
    (S (increments a))
    (if ran then S (capturePasses a) else capturePasses a) a.

(** The first statements of [updateTiming]: [now] is [SDL_GetTicks()], the
    difference is taken in [uint32_t]. *)
Definition advanceClock (now : Z) (a : App) : App :=
  let dt := inject_Z ((now - lastTicks_ a) mod 2 ^ 32) / 1000 in
  set_clock now dt (t_ a + dt) (acc a + dt) a.

(** One iteration of the drain loop of [updateTiming]. *)
Definition drainOne (M : Libm) (a : App) : App :=
  let a' := updatePokeballs M PHYSICS_TIMESTEP a in
  set_clock (lastTicks_ a') (dt_ a') (t_ a') (acc a' - PHYSICS_TIMESTEP) a'.

(** The drain loop [while (acc >= h)], bounded by [fuel]: [None] when the
    loop has not ended within [fuel] iterations.  (In [float] the loop need
    not end: an accumulator so large that subtracting [h] leaves it
    unchanged is never drained.) *)
Fixpoint drain (M : Libm) (fuel : nat) (a : App) : option App :=
  if Qleb PHYSICS_TIMESTEP (acc a) then
    match fuel with
    | O => None
    | S fuel' => drain M fuel' (drainOne M a)
    end
  else Some a.

(** [App::updateTiming], with the bound on the drain loop. *)
Definition updateTiming (M : Libm) (fuel : nat) (now : Z) (a : App) : option App :=
  drain M fuel (advanceClock now a).

(** [App::updatePhysics]. *)
Definition updatePhysics (M : Libm) (a : App) : App :=
  let obstacles := map pos (props_ a) in
  match pokemonController_ a with
  | Some c =>
      let (c1, r1) := Controller.updateAll M (dt_ a) (world_ a) obstacles (rng a) c in
      set_controller (Some (Controller.updateInventory c1)) r1 a
  | None => a
  end.

(** [App::spawnPokeball(speed)]. *)
Definition spawnPokeball (M : Libm) (speed : Q) (a : App) : App :=
  let spawnPos := vadd (camPos_ a) (vscale (camFront_ a) PROJECTILE_SPAWN_DISTANCE) in
  let spawnVel :=
    vadd (vscale (vnormalize M (camFront_ a)) speed)
         (mkVec3 0 PROJECTILE_UPWARD_VELOCITY 0) in
  let ball :=
    mkPokeball spawnPos spawnVel PROJECTILE_RADIUS true false
      PROJECTILE_LIFETIME false 0 0 0 vzero false (-1) in
  set_balls (balls_ a ++ [ball]) a.

(** The number-key case of [handleKeyDown]: recall when out, else send out
    in front of the camera, on the terrain. *)
Definition toggleSlot (index : nat) (a : App) : App :=
  match pokemonController_ a with
  | Some c =>
      if (index <? length (inventory_ c))%nat then
        if Controller.isPokemonOut index c then
          set_controller (Some (snd (Controller.recallPokemon index c))) (rng a) a
        else
          let p := vadd (camPos_ a) (vscale (camFront_ a) 3) in
          let y := match world_ a with
                   | Some w => World.heightAt w (vx p) (vz p)
                   | None => 0
                   end in
          set_controller
            (Some (snd (Controller.sendOutPokemon index (mkVec3 (vx p) y (vz p)) c)))
            (rng a) a
      else a
  | None => a
  end.

(** One input event. *)
Definition handleEvent (M : Libm) (e : InputEvent) (a : App) : App :=
  match e with
  | KeyDigit index => toggleSlot index a
  | Throw speed => spawnPokeball M speed a
  | MoveCamera cp cf => set_camera cp cf a
  end.

(** One rendered frame, [App::tick]: timing (with the physics drain),
    creature update, input.  Camera, lighting and drawing do not write the
    simulation state. *)
Definition tick (M : Libm) (fuel : nat) (now : Z) (events : list InputEvent)
    (a : App) : option App :=
  match updateTiming M fuel now a with
  | Some a1 => Some (fold_left (fun s e => handleEvent M e s) events (updatePhysics M a1))
  | None => None
  end.

(** Scene setup: [spawnPokemonAt] and [scatterPokemon] reach the roster
    through [spawnPokemon] with the default id. *)
Definition spawnWild (M : Libm) (species : option PokemonSpecies) (p : vec3)
    (speed rad : Q) (a : App) : App :=
  match pokemonController_ a with
  | Some c =>
      let (c', r') := Controller.spawnPokemon M (rng a) species p speed rad 0 c in
      set_controller (Some c') r' a
  | None => a
  end.

(** The primitive steps every run is made of. *)
Inductive Op : Type :=
| OpClock (now : Z)
| OpIncrement
| OpPhysics
| OpInput (e : InputEvent)
| OpSpawn (species : option PokemonSpecies) (p : vec3) (speed rad : Q).

Definition exec (M : Libm) (a : App) (op : Op) : App :=
  match op with
  | OpClock now => advanceClock now a
  | OpIncrement => if Qleb PHYSICS_TIMESTEP (acc a) then drainOne M a else a
  | OpPhysics => updatePhysics M a
  | OpInput e => handleEvent M e a
  | OpSpawn species p speed rad => spawnWild M species p speed rad a
  end.

(** The states of a run: from [init] by primitive steps. *)
Inductive reachable (M : Libm) : App -> Prop :=
| reach_init : forall world props r ticks, reachable M (init world props r ticks)
| reach_step : forall a op, reachable M a -> reachable M (exec M a op).

End App.

(** ** Terrain meshes (World.cpp) *)

Module Mesh.

(** A mesh vertex: position, normal, texture coordinates. *)
Record Vertex : Type := mkVertex {
  vposition : vec3;
  vnormal : vec3;
  vu : Q;
  vv : Q
}.

(** The values [0, 1, ..., n - 1] of a counting loop; empty when [n <= 0]. *)
Definition upto (n : Z) : list Z := map Z.of_nat (seq 0 (Z.to_nat n)).

(** [World::makeGround]: vertices row by row, then two triangles per
    cell. *)
Definition makeGround (n : Z) (size : Q) : list Vertex * list Z :=
  let half := inject_Z n * size / 2 in
  let vertices :=
    flat_map (fun z =>
      map (fun x =>
             mkVertex (mkVec3 (inject_Z x * size - half) 0
                              (inject_Z z * size - half))
                      vup
                      (inject_Z x / inject_Z n) (inject_Z z / inject_Z n))
          (upto (n + 1)))
      (upto (n + 1)) in
  let indices :=
    flat_map (fun z =>
      flat_map (fun x =>
                  let topLeft := (z * (n + 1) + x)%Z in
                  let topRight := (topLeft + 1)%Z in
                  let bottomLeft := (topLeft + (n + 1))%Z in
                  let bottomRight := (bottomLeft + 1)%Z in
                  [topLeft; bottomLeft; topRight;
                   topRight; bottomLeft; bottomRight])
               (upto n))
      (upto n) in
  (vertices, indices).

(** The lambda [Hval] of [FromHeightMap]: border-clamped sample. *)
Definition Hval (w : World.t) (i j : Z) : Q :=
  World.sample w
    (World.idx w (clampi i 0 (World.imgW_ w - 1)) (clampi j 0 (World.imgH_ w - 1))).

(** The mesh [FromHeightMap] builds once the samples of [w] are filled in:
    one vertex per sample with a central-difference normal, two triangles
    per quad. *)
Definition heightMapMesh (M : Libm) (w : World.t) : list Vertex * list Z :=
  let wpx := World.imgW_ w in
  let hpx := World.imgH_ w in
  let cellSize := World.cellSize_ w in
  let W := (wpx - 1)%Z in
  let H := (hpx - 1)%Z in
  let vertices :=
    flat_map (fun j =>
      map (fun i =>
             let x := World.vertexX w i in
             let z := World.vertexZ w j in
             let y := Hval w i j in
             let hx := (Hval w (i + 1) j - Hval w (i - 1) j) / (2 * cellSize) in
             let hz := (Hval w i (j + 1) - Hval w i (j - 1)) / (2 * cellSize) in
             mkVertex (mkVec3 x y z) (vnormalize M (mkVec3 (- hx) 1 (- hz)))
                      (inject_Z i / inject_Z W) (inject_Z j / inject_Z H))
          (upto wpx))
      (upto hpx) in
  let indices :=
    flat_map (fun j =>
      flat_map (fun i =>
                  let a := (j * wpx + i)%Z in
                  let b := (a + 1)%Z in
                  let c := ((j + 1) * wpx + i)%Z in
                  let d := (c + 1)%Z in
                  [a; c; b; b; c; d])
               (upto W))
      (upto H) in
  (vertices, indices).

End Mesh.

(** ** Throwing and the trajectory preview (App.cpp) *)

Module Throw.

(** [glm::mix(x, y, a)] is [x * (1 - a) + y * a]. *)
Definition mix (x y a : Q) : Q := x * (1 - a) + y * a.

(** The throw members of [class App] beside the simulation state. *)
Record t : Type := mk {
  isCharging_ : bool;
  charge_ : Q;
  maxChargeSeconds_ : Q;
  minThrowSpeed_ : Q;
  maxThrowSpeed_ : Q;
  app : App
}.

(** The in-class initialisers around a simulation state. *)
Definition init (a : App) : t := mk false 0 2 5 20 a.

(** [handleMouseButtonDown] with the left button. *)
Definition handleMouseButtonDown (s : t) : t :=
  mk true 0 (maxChargeSeconds_ s) (minThrowSpeed_ s) (maxThrowSpeed_ s) (app s).

(** The speed [handleMouseButtonUp] throws with. *)
Definition releaseSpeed (s : t) : Q :=
  mix (minThrowSpeed_ s) (maxThrowSpeed_ s) (App.glm_clamp (charge_ s) 0 1).

(** [handleMouseButtonUp] with the left button. *)
Definition handleMouseButtonUp (M : Libm) (s : t) : t :=
  if isCharging_ s then
    mk false (charge_ s) (maxChargeSeconds_ s) (minThrowSpeed_ s)
       (maxThrowSpeed_ s) (App.spawnPokeball M (releaseSpeed s) (app s))
  else s.

(** The per-frame [drawTrajectory]: while charging, the charge grows with
    the frame time and the preview speed follows it.  [None] when nothing
    is drawn. *)
Definition chargeFrame (s : t) : t * option Q :=
  if isCharging_ s then
    let c := App.glm_clamp (charge_ s + dt_ (app s) / maxChargeSeconds_ s) 0 1 in
    (mk true c (maxChargeSeconds_ s) (minThrowSpeed_ s) (maxThrowSpeed_ s) (app s),
     Some (mix (minThrowSpeed_ s) (maxThrowSpeed_ s) c))
  else (s, None).

(** One iteration of the preview loop: gravity, position, and one simple
    reflection on the ground plane. *)
Definition previewStep (g e dt : Q) (pv : vec3 * vec3) : vec3 * vec3 :=
  let (p, v) := pv in
  let v1 := mkVec3 (vx v) (vy v - g * dt) (vz v) in
  let p1 := vadd p (vscale v1 dt) in
  if Qleb (vy p1) GROUND_Y then
    (mkVec3 (vx p1) GROUND_Y (vz p1),
     mkVec3 (vx v1 * BOUNCE_FRICTION) (- vy v1 * App.glm_clamp e 0 1)
            (vz v1 * BOUNCE_FRICTION))
  else (p1, v1).

(** The points the preview loop collects in [n] iterations. *)
Fixpoint previewPoints (g e dt : Q) (n : nat) (pv : vec3 * vec3) : list vec3 :=
  match n with
  | O => []
  | S k => fst pv :: previewPoints g e dt k (previewStep g e dt pv)
  end.

(** The points of [drawTrajectory(view, proj, previewSpeed)]; the loop runs
    [trajMaxPoints] times at 60 steps per second.  [None] when
    [pts.reserve(trajMaxPoints_)] throws, which it does on a negative
    count. *)
Definition trajectory (M : Libm) (a : App) (trajMaxPoints : Z) (previewSpeed : Q)
    : option (list vec3) :=
  if (trajMaxPoints <? 0)%Z then None
  else
    let p0 := vadd (camPos_ a) (vscale (camFront_ a) PROJECTILE_SPAWN_DISTANCE) in
    let v0 :=
      vadd (vscale (vnormalize M (camFront_ a)) previewSpeed)
           (mkVec3 0 PROJECTILE_UPWARD_VELOCITY 0) in
    Some (previewPoints (gravity_ a) (bounceRestitution_ a) (1 / 60)
            (Z.to_nat trajMaxPoints) (p0, v0)).

End Throw.

(** ** The player against obstacles (App.cpp) *)

Module Player.

(** [std::min] on floats: [(b < a) ? b : a]. *)
Definition std_min (a b : Q) : Q := if Qltb b a then b else a.

(** The lambda [pushOutFromAABB_XZ] of [updateCameraMovement]: a point
    inside the box grown by the player radius is moved to the nearest of the
    four edges; the comparisons [==] are exact. *)
Definition pushOutFromAABB_XZ (playerRadius : Q) (p aabbWorldMin aabbWorldMax : vec3)
    : vec3 :=
  let bminx := vx aabbWorldMin - playerRadius in
  let bminz := vz aabbWorldMin - playerRadius in
  let bmaxx := vx aabbWorldMax + playerRadius in
  let bmaxz := vz aabbWorldMax + playerRadius in
  let clampx := App.glm_clamp (vx p) bminx bmaxx in
  let clampz := App.glm_clamp (vz p) bminz bmaxz in
  let deltax := vx p - clampx in
  let deltaz := vz p - clampz in
  if Qeq_bool deltax 0 && Qeq_bool deltaz 0 then
    let left := vx p - bminx in
    let right := bmaxx - vx p in
    let down := vz p - bminz in
    let up := bmaxz - vz p in
    let m := std_min (std_min left right) (std_min down up) in
    if Qeq_bool m left then mkVec3 bminx (vy p) (vz p)
    else if Qeq_bool m right then mkVec3 bmaxx (vy p) (vz p)
    else if Qeq_bool m down then mkVec3 (vx p) (vy p) bminz
    else mkVec3 (vx p) (vy p) bmaxz
  else p.

(** The obstacle loop of [updateCameraMovement]: each prop's world box,
    corners ordered, pushes the point in turn. *)
Definition pushOutOfProps (playerRadius : Q) (props : list Prop_) (next : vec3) : vec3 :=
  fold_left
    (fun q prop =>
       let wmin := vadd (pos prop) (vmul (scale prop) (aabbMinLocal prop)) in
       let wmax := vadd (pos prop) (vmul (scale prop) (aabbMaxLocal prop)) in
       let realMin := mkVec3 (minf (vx wmin) (vx wmax)) (minf (vy wmin) (vy wmax))
                             (minf (vz wmin) (vz wmax)) in
       let realMax := mkVec3 (App.maxf (vx wmin) (vx wmax)) (App.maxf (vy wmin) (vy wmax))
                             (App.maxf (vz wmin) (vz wmax)) in
       pushOutFromAABB_XZ playerRadius q realMin realMax)
    props next.

End Player.

(** ** Specification predicates *)

(** Capsule [b'] is capsule [b] struck in a capture pass that took the
    generator from [r] to [r']: [b] was not locked, and [b'] is [b] locked
    onto a creature of the roster [ps] with one of the samples drawn in
    between. *)
Definition struck (ps : list Pokemon) (r r' : Rng) (b b' : Pokeball) : Prop :=
  locked b = false
  /\ exists p k, In p ps /\ (cursor r <= k < cursor r')%nat
                 /\ b' = Controller.lockOnto p (draws r k) b.

(** Capsule [b'] is the locked capsule [b] one increment later: flags,
    velocity and time-to-live are kept, the base position is captured on the
    first increment after the lock, and the position is the shake
    oscillation around the base while shakes remain, else unchanged. *)
Definition shake_governed (M : Libm) (dt : Q) (b b' : Pokeball) : Prop :=
  locked b' = true
  /\ active b' = active b
  /\ velocity b' = velocity b
  /\ life b' = life b
  /\ captureSuccess b' = captureSuccess b
  /\ targetPokemonId b' = targetPokemonId b
  /\ captureBasePos b' =
       (if Qleb (lockTimer b') dt then position b else captureBasePos b)
  /\ position b' =
       (if (shakeCount b' <? MAX_SHAKES)%Z
        then App.shakePosition M (captureBasePos b') (shakePhase b')
        else position b).

(** A locked capsule is not flying. *)
Definition lock_excludes_flight (b : Pokeball) : Prop :=
  locked b = true -> active b = false.

(** A creature in mid-capture is hidden. *)
Definition hidden_while_capturing (p : Pokemon) : Prop :=
  state_ p = Capturing -> visible_ p = false.

(** Creature [p'] is creature [p] after a shake completion that revealed the
    outcome [success]: untouched, or it was [Capturing] and received exactly
    that outcome. *)
Definition revealed (success : bool) (p p' : Pokemon) : Prop :=
  p' = p
  \/ (Pokemon.isCapturing p = true
      /\ p' = if success then Pokemon.markCaptured p
              else Pokemon.markCaptureFailed p).

(** The test of the resolve loop of [updatePokeballs] on one creature: it
    is [Capturing] and less than [1] away from [base]. *)
Definition inReach (M : Libm) (base : vec3) (p : Pokemon) : bool :=
  Pokemon.isCapturing p && Qltb (vlength M (vsub (position_ p) base)) 1.

(** Every creature of an attached controller in mid-capture is hidden. *)
Definition roster_hidden (ctl : option PokemonController) : Prop :=
  match ctl with
  | Some c => Forall hidden_while_capturing (pokemon_ c)
  | None => True
  end.

(** What every state of a run satisfies. *)
Definition app_invariant (a : App) : Prop :=
  Forall lock_excludes_flight (balls_ a)
  /\ roster_hidden (pokemonController_ a)
  /\ 0 <= acc a
  /\ pokemonController_ a <> None.

(** A step of the wander part keeps the visibility, and keeps the state or
    makes it [Walking]. *)
Definition wanders_on (p q : Pokemon) : Prop :=
  visible_ q = visible_ p /\ (state_ q = state_ p \/ state_ q = Walking).

(** Terrain that the engine sees as the horizontal plane at height [h]. *)
Definition flat_terrain (M : Libm) (world : option World.t) (h : Q) : Prop :=
  forall p, fst (App.terrainUnder M world p) == h
            /\ veq (snd (App.terrainUnder M world p)) vup.

(** What [updateInventory] moves: captured, hidden, not a sent-out copy. *)
Definition promotable (out : list nat) (inv : list Pokemon) (p : Pokemon) : bool :=
  Pokemon.isCaptured p && negb (visible_ p) && negb (Controller.isOwned out inv p).

(** Identities in a controller: unique within the inventory and within the
    roster, all below the next automatic id; a roster creature shares its id
    with an inventory entry only as that entry's sent-out copy; every active
    slot is a valid slot whose copy is in the roster; at most one slot is
    active. *)
Definition ids_consistent (c : PokemonController) : Prop :=
  NoDup (map id_ (inventory_ c))
  /\ NoDup (map id_ (pokemon_ c))
  /\ (forall p, In p (pokemon_ c) \/ In p (inventory_ c) ->
                (id_ p < nextPokemonId_ c)%Z)
  /\ (forall p, In p (pokemon_ c) -> In (id_ p) (map id_ (inventory_ c)) ->
                Controller.isOwnedPokemon c p = true)
  /\ (forall i, In i (outPokemonIndices_ c) ->
                exists entry, nth_error (inventory_ c) i = Some entry
                              /\ In (id_ entry) (map id_ (pokemon_ c)))
  /\ (length (outPokemonIndices_ c) <= 1)%nat.

(** Time a capsule can still spend in the world, in seconds: what is left
    of the shake window once locked; before that the time-to-live, a full
    shake window and the increment in which it locks. *)
Definition remaining (b : Pokeball) : Q :=
  if locked b then (28 # 10) - lockTimer b
  else life b + (28 # 10) + PHYSICS_TIMESTEP.

(** A capsule as every run keeps it: flying exactly when not locked, with
    time-to-live left, and within the shake window when locked. *)
Definition capsule_live (b : Pokeball) : Prop :=
  active b = negb (locked b)
  /\ 0 < life b /\ life b <= PROJECTILE_LIFETIME
  /\ 0 <= lockTimer b
  /\ (locked b = true -> lockTimer b <= 28 # 10).


(** A point strictly outside the world box of a prop, as the obstacle loop
    of [updateCameraMovement] orders its corners, grown by [r]. *)
Definition outsideProp (r : Q) (q : vec3) (prop : Prop_) : Prop :=
  let wmin := vadd (pos prop) (vmul (scale prop) (aabbMinLocal prop)) in
  let wmax := vadd (pos prop) (vmul (scale prop) (aabbMaxLocal prop)) in
  vx q < minf (vx wmin) (vx wmax) - r
  \/ App.maxf (vx wmin) (vx wmax) + r < vx q
  \/ vz q < minf (vz wmin) (vz wmax) - r
  \/ App.maxf (vz wmin) (vz wmax) + r < vz q.

(** ** Sample data *)

(** A height field of three columns and two rows. *)
Definition grid32 : World.t :=
  World.FromHeightMap (Some (World.mkImage [0; 51; 102; 153; 204; 255]%Z 3 2))
    (1 # 2) 5.


(** A captured creature and a controller that holds it in slot 0, sent
    out. *)
Definition captive : Pokemon :=
  mkPokemon 7 (Some (mkSpecies 1 (1 # 2))) vzero vzero vzero 2 (1 # 2) false
    Captured 0 0 0.

Definition ctl_slot0_out : PokemonController :=
  snd (Controller.sendOutPokemon 0 (mkVec3 1 0 1)
         (mkController [] [captive; captive] [] 1)).

(** A generator whose [k]-th sample is [1 / (k + 2)]. *)
Definition rng0 : Rng := mkRng (fun k => 1 # Pos.of_succ_nat (S k)) 0.

(** A wild creature of a species that cannot be captured. *)
Definition wild0 : Pokemon :=
  mkPokemon 1 (Some (mkSpecies 1 0)) (mkVec3 3 0 4) vzero vzero 2 (1 # 2) true
    Walking 1 0 0.

(** A scene without world or obstacles, and a short run in it: a creature
    is placed where a thrown capsule appears, the capsule is thrown, and one
    physics increment runs, so that the capsule locks onto the creature. *)
Definition app0 : App := App.init None [] rng0 0.

Definition app_hit : App :=
  fold_left (App.exec libm_rational)
    [App.OpSpawn (Some (mkSpecies 1 (1 # 2))) (mkVec3 0 2 (-6)) 2 (1 # 2);
     App.OpInput (Throw 5); App.OpClock 10; App.OpIncrement]
    app0.

(** A capsule placed at rest exactly one radius above the ground plane of
    [app0]. *)
Definition ball_rest : Pokeball :=
  mkPokeball (mkVec3 0 (- (3 # 10)) 0) vzero (2 # 10) true false 15 false 0 0 0
    vzero false (-1).

(** The same throw at a creature of a species that cannot be captured,
    before any physics increment has run. *)
Definition app_throw : App :=
  fold_left (App.exec libm_rational)
    [App.OpSpawn (Some (mkSpecies 1 0)) (mkVec3 0 2 (-6)) 2 (1 # 2);
     App.OpInput (Throw 5)]
    app0.

(** A successful capture played to the end: the creature is always
    captured, the capsule locks in the first increment and its shakes
    complete within the 228 increments of a frame that arrives after
    1905 ms; the creature update promotes the creature to slot 0, and the
    key of slot 0 sends it out. *)
Definition app_out : App :=
  fold_left (App.exec libm_rational)
    ([App.OpSpawn (Some (mkSpecies 1 1)) (mkVec3 0 2 (-6)) 2 (1 # 2);
      App.OpInput (Throw 5); App.OpClock 1905]
       ++ repeat App.OpIncrement 228
       ++ [App.OpPhysics; App.OpInput (KeyDigit 0)])
    app0.

(** Two creatures that stand still, 0.8 apart: the first (id 1) of a
    species that cannot be captured, the second (id 2) of a species that
    always is.  A capsule is thrown at the second creature and locks onto it
    in the increment of the first frame; the camera is moved in front of
    the first creature, a second capsule is thrown and locks onto the first
    creature in the increment of the second frame. *)
Definition app_pair : App :=
  fold_left (App.exec libm_rational)
    [App.OpSpawn (Some (mkSpecies 1 0)) (mkVec3 (8 # 10) 2 (-6)) 0 (1 # 2);
     App.OpSpawn (Some (mkSpecies 1 1)) (mkVec3 0 2 (-6)) 0 (1 # 2);
     App.OpInput (Throw 5); App.OpClock 10; App.OpIncrement; App.OpPhysics;
     App.OpInput (MoveCamera (mkVec3 (8 # 10) 2 (-5)) (mkVec3 0 0 (-1)));
     App.OpInput (Throw 5); App.OpClock 20; App.OpIncrement; App.OpPhysics]
    app0.

(** The third frame arrives after 1840 ms and drains 218 increments, in
    which the shakes of both capsules complete; this is the state before
    the creature update of that frame. *)
Definition app_pair_done : App :=
  fold_left (App.exec libm_rational)
    (App.OpClock 1840 :: repeat App.OpIncrement 218) app_pair.

(** What became of creatures and capsules: id, capture-probability, state
    and visibility of every creature of the roster; id, capture-probability
    and state of every inventory entry; for every capsule the id of the
    creature it hit and the outcome it stored. *)
Definition fates (a : App)
    : list (Z * Q * PokemonState * bool) * list (Z * Q * PokemonState)
      * list (Z * bool) :=
  (match pokemonController_ a with
   | Some c =>
       (map (fun p => (id_ p, Pokemon.getCatchRate p, state_ p, visible_ p))
            (pokemon_ c),
        map (fun p => (id_ p, Pokemon.getCatchRate p, state_ p)) (inventory_ c))
   | None => ([], [])
   end,
   map (fun b => (targetPokemonId b, captureSuccess b)) (balls_ a)).

(** A locked capsule whose next increment completes the third shake, with a
    failed outcome stored for creature 1, and a roster in which that
    creature, mid-capture under the capsule, comes second. *)
Definition ball_last_shake : Pokeball :=
  mkPokeball (mkVec3 3 (1 # 2) 4) vzero (2 # 10) false false 15 true 1 2
    (71 # 72) (mkVec3 3 (1 # 2) 4) false 1.

Definition ctl_last_shake : PokemonController :=
  mkController [captive; Pokemon.setVisible false (Pokemon.startCapture wild0)]
    [] [] 2.

(** State and visibility of every creature of the roster. *)
Definition roster_states (a : App) : list (PokemonState * bool) :=
  match pokemonController_ a with
  | Some c => map (fun p => (state_ p, visible_ p)) (pokemon_ c)
  | None => []
  end.

(** * Properties *)

(** ** Scalars *)

Lemma Qleb_true a b : Qleb a b = true <-> a <= b.
Proof. unfold Qleb. apply Qle_bool_iff. Qed.

Lemma Qleb_false a b : Qleb a b = false <-> b < a.
Proof.
  unfold Qleb. split; intros H.
  - apply Qnot_le_lt. intros Hle. apply Qle_bool_iff in Hle. congruence.
  - destruct (Qle_bool a b) eqn:E; [|reflexivity].
    apply Qle_bool_iff in E. exfalso. apply (Qlt_not_le _ _ H E).
Qed.

Lemma Qltb_true a b : Qltb a b = true <-> a < b.
Proof.
  unfold Qltb. rewrite negb_true_iff. apply (Qleb_false b a).
Qed.

Lemma Qltb_false a b : Qltb a b = false <-> b <= a.
Proof.
  unfold Qltb. rewrite negb_false_iff. apply (Qleb_true b a).
Qed.


Lemma clampi_inside v lo hi : (lo <= v <= hi)%Z -> clampi v lo hi = v.
Proof.
  intros H. unfold clampi.
  destruct (Z.ltb_spec v lo); [lia|]. destruct (Z.ltb_spec hi v); [lia|]. reflexivity.
Qed.

Lemma inject_Z_le_mono a b : (a <= b)%Z -> inject_Z a <= inject_Z b.
Proof. intros. now rewrite <- Zle_Qle. Qed.

(** ** Rounding to binary32 *)

Section Binary32.

Lemma fl32_one : fl32 1 = 1.
Proof. reflexivity. Qed.

Lemma pow2_pos (k : Z) : 0 < 2 ^ k.
Proof. apply Qpower_0_lt. reflexivity. Qed.

Lemma pow2_add (a b : Z) : 2 ^ (a + b) == 2 ^ a * 2 ^ b.
Proof. apply Qpower_plus. discriminate. Qed.

Lemma pow2_lt (a b : Z) : (a < b)%Z -> 2 ^ a < 2 ^ b.
Proof. intros H. apply Qpower_lt_compat_l; [exact H|reflexivity]. Qed.

Lemma pow2_le (a b : Z) : (a <= b)%Z -> 2 ^ a <= 2 ^ b.
Proof. intros H. apply Qpower_le_compat_l; [exact H|discriminate]. Qed.

Lemma pow2_lt_inv (a b : Z) : 2 ^ a < 2 ^ b -> (a < b)%Z.
Proof. intros H. apply (Qpower_lt_compat_l_inv 2); [exact H|reflexivity]. Qed.

Lemma pow2_nat (k : Z) : (0 <= k)%Z -> 2 ^ k == inject_Z (2 ^ k).
Proof. intros H. symmetry. exact (Zpower_Qpower 2 k H). Qed.

Lemma fl32_compat (x y : Q) : x == y -> fl32 x = fl32 y.
Proof. intros H. unfold fl32. now rewrite (Qred_complete _ _ H). Qed.

Lemma roundEven_int (x : Q) (n : Z) : x == inject_Z n -> roundEven x = n.
Proof.
  intros H. unfold roundEven.
  assert (Ef : Qfloor x = n) by (rewrite H; apply Qfloor_Z).
  rewrite Ef.
  assert (E : Qltb (x - inject_Z n) (1 # 2) = true).
  { apply Qltb_true. rewrite H.
    setoid_replace (inject_Z n - inject_Z n) with 0 by ring. reflexivity. }
  now rewrite E.
Qed.

Lemma roundEven_nonneg (x : Q) : 0 <= x -> (0 <= roundEven x)%Z.
Proof.
  intros H. assert (H0 : (0 <= Qfloor x)%Z).
  { change 0%Z with (Qfloor 0). now apply Qfloor_resp_le. }
  unfold roundEven. repeat match goal with |- context [if ?c then _ else _] => destruct c end; lia.
Qed.

Lemma roundEven_below (x : Q) (n : Z) : x < inject_Z n -> (roundEven x <= n)%Z.
Proof.
  intros H. assert (H0 : (Qfloor x < n)%Z).
  { rewrite Zlt_Qlt. eapply Qle_lt_trans; [apply Qfloor_le|exact H]. }
  unfold roundEven. repeat match goal with |- context [if ?c then _ else _] => destruct c end; lia.
Qed.

(** The binade brackets a positive scalar. *)
Lemma binade_spec (a : Q) :
  0 < a -> 2 ^ binade a <= a /\ a < 2 ^ (binade a + 1).
Proof.
  intros Ha. destruct a as [n d]. unfold binade. cbn [Qnum Qden].
  assert (Hn : (0 < n)%Z).
  { unfold Qlt in Ha. cbn in Ha. lia. }
  set (L := Z.log2 n). set (D := Z.log2 (Zpos d)).
  assert (HL : (2 ^ L <= n < 2 ^ (L + 1))%Z).
  { unfold L. pose proof (Z.log2_spec n Hn). replace (L + 1)%Z with (Z.succ (Z.log2 n)) by (unfold L; lia). exact H. }
  assert (HD : (2 ^ D <= Zpos d < 2 ^ (D + 1))%Z).
  { unfold D. pose proof (Z.log2_spec (Zpos d) ltac:(lia)).
    replace (Z.log2 (Zpos d) + 1)%Z with (Z.succ (Z.log2 (Zpos d))) by lia. exact H. }
  assert (HL0 : (0 <= L)%Z) by apply Z.log2_nonneg.
  assert (HD0 : (0 <= D)%Z) by apply Z.log2_nonneg.
  assert (En : n # d == inject_Z n / inject_Z (Zpos d)) by apply Qmake_Qdiv.
  assert (Hd : 0 < inject_Z (Zpos d)) by reflexivity.
  assert (QL : 2 ^ L <= inject_Z n /\ inject_Z n < 2 ^ (L + 1)).
  { rewrite !pow2_nat by lia. rewrite <- Zle_Qle, <- Zlt_Qlt. exact HL. }
  assert (QD : 2 ^ D <= inject_Z (Zpos d) /\ inject_Z (Zpos d) < 2 ^ (D + 1)).
  { rewrite !pow2_nat by lia. rewrite <- Zle_Qle, <- Zlt_Qlt. exact HD. }
  (* n/d < 2^(L+1-D) and 2^(L-D-1) < n/d *)
  assert (Up : n # d < 2 ^ (L - D + 1)).
  { rewrite En. apply Qlt_shift_div_r; [exact Hd|].
    replace (L - D + 1)%Z with ((L + 1) + (- D))%Z by lia.
    rewrite pow2_add.
    assert (E1 : 2 ^ (- D) * 2 ^ D == 1).
    { rewrite <- pow2_add. replace (- D + D)%Z with 0%Z by lia. reflexivity. }
    destruct QL as [_ QL]. destruct QD as [QD _].
    pose proof (pow2_pos (L + 1)). pose proof (pow2_pos (- D)). pose proof (pow2_pos D).
    assert (E2 : 2 ^ (L + 1) * 2 ^ (- D) * 2 ^ D == 2 ^ (L + 1)).
    { rewrite <- Qmult_assoc, E1. ring. }
    assert (E3 : 2 ^ (L + 1) * 2 ^ (- D) * 2 ^ D
                 <= 2 ^ (L + 1) * 2 ^ (- D) * inject_Z (Zpos d)).
    { apply Qmult_le_l; [|exact QD]. apply Qmult_lt_0_compat; assumption. }
    lra. }
  assert (Lo : 2 ^ (L - D - 1) <= n # d).
  { rewrite En. apply Qle_shift_div_l; [exact Hd|].
    replace (L - D - 1)%Z with (L + (- (D + 1)))%Z by lia.
    rewrite pow2_add.
    assert (E1 : 2 ^ (- (D + 1)) * 2 ^ (D + 1) == 1).
    { rewrite <- pow2_add. replace (- (D + 1) + (D + 1))%Z with 0%Z by lia. reflexivity. }
    destruct QL as [QL _]. destruct QD as [_ QD].
    pose proof (pow2_pos L). pose proof (pow2_pos (- (D + 1))). pose proof (pow2_pos (D + 1)).
    assert (E2 : 2 ^ L * 2 ^ (- (D + 1)) * 2 ^ (D + 1) == 2 ^ L).
    { rewrite <- Qmult_assoc, E1. ring. }
    assert (E3 : 2 ^ L * 2 ^ (- (D + 1)) * inject_Z (Zpos d)
                 <= 2 ^ L * 2 ^ (- (D + 1)) * 2 ^ (D + 1)).
    { apply Qmult_le_l; [apply Qmult_lt_0_compat; assumption|]. now apply Qlt_le_weak. }
    lra. }
  destruct (Qleb (2 ^ (L - D)) (n # d)) eqn:E.
  - apply Qleb_true in E. split; [exact E|exact Up].
  - apply Qleb_false in E. split; [exact Lo|].
    replace (L - D - 1 + 1)%Z with (L - D)%Z by lia. exact E.
Qed.



(** [fl32] away from zero: sign, integer significand, quantum. *)
Lemma fl32_unfold (x : Q) :
  ~ x == 0 ->
  fl32 x == (if Qltb (Qred x) 0 then -1 else 1)
            * (inject_Z (roundEven (Qabs (Qred x) / 2 ^ quantum (Qabs (Qred x))))
               * 2 ^ quantum (Qabs (Qred x))).
Proof.
  intros Hx. unfold fl32.
  assert (E : Qeq_bool (Qred x) 0 = false).
  { destruct (Qeq_bool (Qred x) 0) eqn:E; [|reflexivity].
    apply Qeq_bool_iff in E. rewrite Qred_correct in E. contradiction. }
  rewrite E. destruct (Qltb (Qred x) 0); rewrite Qred_correct; ring.
Qed.

Lemma fl32_zero (x : Q) : x == 0 -> fl32 x = 0.
Proof. intros H. rewrite (fl32_compat H). reflexivity. Qed.

(** The significand has at most 24 bits. *)
Lemma significand_range (a : Q) :
  0 < a -> (0 <= roundEven (a / 2 ^ quantum a) <= 2 ^ 24)%Z.
Proof.
  intros Ha. destruct (binade_spec Ha) as [_ Hb].
  pose proof (pow2_pos (quantum a)) as Hq.
  split.
  - apply roundEven_nonneg. apply Qle_shift_div_l; [exact Hq|]. lra.
  - apply roundEven_below. apply Qlt_shift_div_r; [exact Hq|].
    rewrite <- pow2_nat by lia. rewrite <- pow2_add.
    eapply Qlt_le_trans; [exact Hb|]. apply pow2_le. unfold quantum. lia.
Qed.

(** A scalar with a significand of at most 24 bits and an exponent in range
    is a fixed point of the rounding. *)
Lemma fl32_exact (m e : Z) :
  (Z.abs m <= 2 ^ 24)%Z -> (-149 <= e)%Z ->
  fl32 (inject_Z m * 2 ^ e) == inject_Z m * 2 ^ e.
Proof.
  intros Hm He.
  destruct (Z.eq_dec m 0) as [->|Hm0].
  { rewrite fl32_zero; ring. }
  set (x0 := inject_Z m * 2 ^ e).
  pose proof (pow2_pos e) as Hpe.
  assert (Hx0 : ~ x0 == 0).
  { unfold x0. intros H. apply Qmult_integral in H. destruct H as [H|H].
    - apply Hm0. apply (proj1 (inject_Z_injective m 0)). exact H.
    - lra. }
  rewrite (fl32_unfold Hx0).
  set (x := Qred x0). assert (Hx : x == x0) by apply Qred_correct.
  set (a := Qabs x).
  assert (Ha : a == inject_Z (Z.abs m) * 2 ^ e).
  { unfold a. rewrite Hx. unfold x0. rewrite Qabs_Qmult.
    rewrite (Qabs_pos (2 ^ e)) by lra.
    assert (Hz : Qabs (inject_Z m) == inject_Z (Z.abs m)).
    { unfold Qabs, inject_Z. reflexivity. }
    now rewrite Hz. }
  assert (HN : (1 <= Z.abs m)%Z) by lia.
  assert (HNq : 1 <= inject_Z (Z.abs m) /\ inject_Z (Z.abs m) <= 2 ^ 24).
  { split.
    - change 1 with (inject_Z 1). now rewrite <- Zle_Qle.
    - rewrite pow2_nat by lia. now rewrite <- Zle_Qle. }
  assert (Hapos : 0 < a).
  { rewrite Ha. apply Qmult_lt_0_compat; lra. }
  destruct (binade_spec Hapos) as [Hb1 Hb2].
  assert (Hale : a <= 2 ^ (24 + e)).
  { rewrite Ha, pow2_add. apply Qmult_le_compat_r; [tauto|lra]. }
  assert (Hb : (binade a <= 24 + e)%Z).
  { apply (Qpower_le_compat_l_inv 2); [|reflexivity]. lra. }
  set (qz := quantum a) in *.
  assert (Hqz : (qz <= e + 1)%Z) by (unfold qz, quantum; lia).
  pose proof (pow2_pos qz) as Hpq.
  assert (Hint : exists k, a == inject_Z k * 2 ^ qz).
  { destruct (Z_le_gt_dec qz e) as [Hle|Hgt].
    - exists (Z.abs m * 2 ^ (e - qz))%Z.
      rewrite Ha, inject_Z_mult, <- pow2_nat by lia.
      rewrite <- Qmult_assoc, <- pow2_add.
      now replace (e - qz + qz)%Z with e by lia.
    - assert (Eq : qz = (e + 1)%Z) by lia.
      assert (Eb : binade a = (e + 24)%Z) by (unfold qz, quantum in Eq; lia).
      assert (HN2 : 2 ^ 24 <= inject_Z (Z.abs m)).
      { rewrite Eb in Hb1. rewrite Ha in Hb1.
        replace (e + 24)%Z with (24 + e)%Z in Hb1 by lia.
        rewrite pow2_add in Hb1.
        apply Qmult_le_r in Hb1; [exact Hb1|exact Hpe]. }
      assert (EN : inject_Z (Z.abs m) == 2 ^ 24) by (apply Qle_antisym; tauto).
      exists (2 ^ 23)%Z. rewrite Ha, EN, Eq, <- pow2_nat by lia.
      rewrite <- !pow2_add. now replace (24 + e)%Z with (23 + (e + 1))%Z by lia. }
  destruct Hint as (k & Hk).
  assert (Er : roundEven (a / 2 ^ qz) = k).
  { apply roundEven_int. rewrite Hk. field. lra. }
  rewrite Er, <- Hk.
  destruct (Qltb x 0) eqn:Es.
  - apply Qltb_true in Es. unfold a. rewrite Qabs_neg by lra. rewrite <- Hx. ring.
  - apply Qltb_false in Es. unfold a. rewrite Qabs_pos by lra. rewrite <- Hx. ring.
Qed.

Lemma fl32_int (n : Z) : (Z.abs n <= 2 ^ 24)%Z -> fl32 (inject_Z n) == inject_Z n.
Proof.
  intros H. rewrite (@fl32_compat (inject_Z n) (inject_Z n * 2 ^ 0)) by (simpl; ring).
  rewrite fl32_exact by lia. simpl. ring.
Qed.


(** Rounding keeps the sign. *)
Lemma fl32_nonneg (x : Q) : 0 <= x -> 0 <= fl32 x.
Proof.
  intros H. destruct (Qeq_dec x 0) as [H0|H0].
  { rewrite (fl32_zero H0). apply Qle_refl. }
  rewrite (fl32_unfold H0).
  assert (Es : Qltb (Qred x) 0 = false) by (apply Qltb_false; now rewrite Qred_correct).
  rewrite Es.
  assert (Ha : 0 < Qabs (Qred x)).
  { rewrite Qred_correct. rewrite Qabs_pos by exact H. lra. }
  pose proof (significand_range Ha) as [Hk _].
  pose proof (pow2_pos (quantum (Qabs (Qred x)))) as Hq.
  rewrite Zle_Qle in Hk. change (inject_Z 0) with 0 in Hk.
  rewrite Qmult_1_l. apply Qmult_le_0_compat; lra.
Qed.

Lemma fl32_nonpos (x : Q) : x <= 0 -> fl32 x <= 0.
Proof.
  intros H. destruct (Qeq_dec x 0) as [H0|H0].
  { rewrite (fl32_zero H0). apply Qle_refl. }
  rewrite (fl32_unfold H0).
  assert (Es : Qltb (Qred x) 0 = true) by (apply Qltb_true; rewrite Qred_correct; lra).
  rewrite Es.
  assert (Ha : 0 < Qabs (Qred x)).
  { rewrite Qred_correct. rewrite Qabs_neg by exact H. lra. }
  pose proof (significand_range Ha) as [Hk _].
  pose proof (pow2_pos (quantum (Qabs (Qred x)))) as Hq.
  rewrite Zle_Qle in Hk. change (inject_Z 0) with 0 in Hk.
  assert (P : 0 <= inject_Z (roundEven (Qabs (Qred x) / 2 ^ quantum (Qabs (Qred x))))
                   * 2 ^ quantum (Qabs (Qred x))) by (apply Qmult_le_0_compat; lra).
  lra.
Qed.



Lemma ofInt_exact (n : Z) : (Z.abs n <= 2 ^ 24)%Z -> ofInt n == inject_Z n.
Proof. apply fl32_int. Qed.

(** Rounding to an integer does not cross an integer. *)
Lemma roundEven_at_most (x : Q) (n : Z) : x <= inject_Z n -> (roundEven x <= n)%Z.
Proof.
  intros H. destruct (Qlt_le_dec x (inject_Z n)) as [Hlt|Hge].
  - now apply roundEven_below.
  - rewrite (@roundEven_int x n); [lia|]. now apply Qle_antisym.
Qed.

(** The binade grows with the scalar. *)
Lemma binade_mono (a b : Q) : 0 < a -> a <= b -> (binade a <= binade b)%Z.
Proof.
  intros Ha Hab. assert (Hb : 0 < b) by lra.
  destruct (binade_spec Ha) as [La _]. destruct (binade_spec Hb) as [_ Ub].
  assert (H : 2 ^ binade a < 2 ^ (binade b + 1)) by lra.
  apply pow2_lt_inv in H. lia.
Qed.

(** [fl32] of a positive scalar: integer significand times quantum. *)
Lemma fl32_positive (x : Q) :
  0 < x ->
  exists a, a == x
            /\ fl32 x == inject_Z (roundEven (a / 2 ^ quantum a)) * 2 ^ quantum a.
Proof.
  intros Hx. exists (Qabs (Qred x)).
  assert (Ea : Qabs (Qred x) == x).
  { rewrite Qred_correct. apply Qabs_pos. lra. }
  split; [exact Ea|].
  rewrite fl32_unfold by lra.
  assert (Es : Qltb (Qred x) 0 = false)
    by (apply Qltb_false; rewrite Qred_correct; lra).
  rewrite Es. ring.
Qed.

(** Rounding does not cross a representable scalar: a scalar that is not
    negative and at most the [float] [y] rounds to at most [y]. *)
Lemma fl32_at_most (x y : Q) : 0 <= x -> x <= y -> fl32 y == y -> fl32 x <= y.
Proof.
  intros H0 Hxy Hy.
  destruct (Qeq_dec x 0) as [Hz|Hz].
  { rewrite (fl32_zero Hz). lra. }
  assert (Hx : 0 < x) by lra. assert (Hy0 : 0 < y) by lra.
  destruct (fl32_positive Hx) as (a & Ea & Fa).
  destruct (fl32_positive Hy0) as (b & Eb & Fb).
  assert (Ha : 0 < a) by lra. assert (Hb : 0 < b) by lra.
  assert (Hab : a <= b) by lra.
  pose proof (binade_mono Ha Hab) as Hbin.
  set (qa := quantum a) in *. set (qb := quantum b) in *.
  assert (Hq : (qa <= qb)%Z) by (unfold qa, qb, quantum; lia).
  set (mb := roundEven (b / 2 ^ qb)) in *.
  pose proof (pow2_pos qa) as Pa.
  assert (Eyq : y == inject_Z (mb * 2 ^ (qb - qa)) * 2 ^ qa).
  { rewrite <- Hy, Fb, inject_Z_mult, <- pow2_nat by lia.
    replace qb with ((qb - qa) + qa)%Z at 1 by lia. rewrite pow2_add. ring. }
  assert (Hr : (roundEven (a / 2 ^ qa) <= mb * 2 ^ (qb - qa))%Z).
  { apply roundEven_at_most. apply Qle_shift_div_r; [exact Pa|].
    rewrite <- Eyq. lra. }
  rewrite Fa, Eyq. apply Qmult_le_compat_r; [|lra].
  now rewrite <- Zle_Qle.
Qed.

End Binary32.

(** ** Terrain height field *)

Section HeightField.
Import World.

Lemma nth_rows {A : Type} (row : nat -> list A) (w i : nat) (d : A) :
  (forall j, length (row j) = w) -> (i < w)%nat ->
  forall h s j, (j < h)%nat ->
    nth (j * w + i) (flat_map row (seq s h)) d = nth i (row (s + j)%nat) d.
Proof.
  intros Hrow Hi. induction h as [|h IH]; intros s j Hj; [lia|].
  simpl. destruct j as [|j].
  - rewrite app_nth1 by (rewrite Hrow; simpl; lia).
    simpl. now rewrite Nat.add_0_r.
  - rewrite app_nth2 by (rewrite Hrow; simpl; lia).
    rewrite Hrow. replace (S j * w + i - w)%nat with (j * w + i)%nat by (simpl; lia).
    rewrite IH by lia. f_equal. f_equal. lia.
Qed.

(** The sample [FromHeightMap] stores at [(i, j)] is the pixel there, as a
    fraction of 255, times the height scale, both rounded. *)
Lemma FromHeightMap_sample (im : image) (cellSize heightScale : Q) (i j : Z) :
  (0 <= i < wpx im)%Z -> (0 <= j < hpx im)%Z ->
  let w := FromHeightMap (Some im) cellSize heightScale in
  sample w (idx w i j)
  = fl32 (fl32 (ofInt (nth (Z.to_nat (j * wpx im + i)) (pixels im) 0%Z) / 255)
          * heightScale).
Proof.
  intros Hi Hj. cbv zeta. unfold sample, idx, FromHeightMap.
  cbn [heights_ imgW_].
  replace (Z.to_nat (j * wpx im + i))
    with (Z.to_nat j * Z.to_nat (wpx im) + Z.to_nat i)%nat by nia.
  rewrite nth_rows with (w := Z.to_nat (wpx im)); try lia.
  - rewrite Nat.add_0_l.
    set (f := fun i0 : nat =>
                fl32 (fl32 (ofInt (nth (Z.to_nat j * Z.to_nat (wpx im) + i0)
                                      (pixels im) 0%Z) / 255)
                      * heightScale)).
    rewrite (nth_indep _ 0 (f 0%nat)) by (rewrite length_map, length_seq; lia).
    rewrite map_nth, seq_nth by lia. reflexivity.
  - intros k. now rewrite length_map, length_seq.
Qed.

Lemma heightAt_without_samples (w : World.t) (x z : Q) :
  (imgW_ w <= 1)%Z \/ (imgH_ w <= 1)%Z -> heightAt w x z = 0.
Proof.
  intros H. unfold heightAt.
  destruct (Z.leb_spec (imgW_ w) 1); [reflexivity|].
  destruct (Z.leb_spec (imgH_ w) 1); [reflexivity|]. lia.
Qed.











Lemma libm_rational_sqrt : sqrt_exact_at_one libm_rational.
Proof.
  intros [n d] H. unfold Qeq in H. simpl in H.
  assert (Hn : n = Zpos d) by lia. subst n.
  unfold libm_rational. cbn [sqrtf Qnum Qden]. rewrite Z.sqrt_square by lia.
  unfold Qeq. simpl. lia.
Qed.

Lemma normalAt_default (M : Libm) (x z : Q) :
  sqrt_exact_at_one M -> veq (normalAt M default x z) vup.
Proof.
  intros HM.
  unfold normalAt. rewrite !heightAt_without_samples by (left; simpl; lia).
  unfold vnormalize, vscale, veq, vdot. cbn [vx vy vz cellSize_ default vup].
  match goal with
  | |- context [sqrtf M ?q] =>
      assert (Hs : sqrtf M q == 1) by (apply HM; field); rewrite !Hs
  end.
  repeat split; field.
Qed.

(** C8.  A height field without backing data (the default world, which is
    also what a failed image load returns) answers every height query with
    [0] and every normal query with the unit up vector. *)
Theorem flat_fallback_without_data (M : Libm) (cellSize heightScale x z : Q) :
  sqrt_exact_at_one M ->
  FromHeightMap None cellSize heightScale = default
  /\ heightAt default x z = 0
  /\ veq (normalAt M default x z) vup.
Proof.
  intros HM. split; [reflexivity|]. split; [reflexivity|].
  now apply normalAt_default.
Qed.

Lemma flat_fallback_without_data_witness :
  heightAt default (7 # 2) (-3) = 0
  /\ veq (normalAt libm_rational default (7 # 2) (-3)) vup.
Proof.
  exact (proj2 (@flat_fallback_without_data libm_rational (1 # 2) 5 (7 # 2) (-3)
                  libm_rational_sqrt)).
Defined.

End HeightField.

(** ** Inventory manager *)

Section Inventory.
Import Controller.

Lemma eraseFirst_length {A : Type} (f : A -> bool) (l r : list A) :
  eraseFirst f l = Some r -> length l = S (length r).
Proof.
  revert r. induction l as [|x l IH]; intros r H; simpl in H; [discriminate|].
  destruct (f x).
  - injection H as <-. reflexivity.
  - destruct (eraseFirst f l) as [r'|]; [|discriminate].
    injection H as <-. simpl. f_equal. now apply IH.
Qed.

Lemma sendOutPokemon_out (index : nat) (p : vec3) (c : PokemonController) :
  (length (outPokemonIndices_ c) <= 1)%nat ->
  (length (outPokemonIndices_ (snd (sendOutPokemon index p c))) <= 1)%nat.
Proof.
  intros H. unfold sendOutPokemon.
  destruct (nth_error (inventory_ c) index); [|exact H].
  destruct (hasAnyPokemonOut c) eqn:E; [exact H|].
  destruct (isPokemonOut index c); [exact H|].
  unfold hasAnyPokemonOut in E. simpl.
  destruct (outPokemonIndices_ c); [simpl; lia|discriminate].
Qed.

Lemma recallPokemon_out (index : nat) (c : PokemonController) :
  (length (outPokemonIndices_ c) <= 1)%nat ->
  (length (outPokemonIndices_ (snd (recallPokemon index c))) <= 1)%nat.
Proof.
  intros H. unfold recallPokemon.
  destruct (nth_error (inventory_ c) index); [|exact H].
  destruct (eraseFirst (Nat.eqb index) (outPokemonIndices_ c)) as [out'|] eqn:E;
    [|exact H].
  destruct (eraseLast _ (pokemon_ c)); [|exact H].
  simpl. apply eraseFirst_length in E. lia.
Qed.

Lemma spawnPokemon_out M r species p speed rad id c :
  outPokemonIndices_ (fst (spawnPokemon M r species p speed rad id c))
  = outPokemonIndices_ c.
Proof.
  unfold spawnPokemon. destruct (Pokemon.create _ _ _ _ _ _ _). reflexivity.
Qed.

Lemma updateAll_out M dt world obstacles r c :
  outPokemonIndices_ (fst (updateAll M dt world obstacles r c))
  = outPokemonIndices_ c.
Proof.
  unfold updateAll. destruct (updateEach _ _ _ _ _ _). reflexivity.
Qed.

Lemma handlePokeballCapture_out c balls r :
  outPokemonIndices_ (fst (fst (handlePokeballCapture c balls r)))
  = outPokemonIndices_ c.
Proof.
  unfold handlePokeballCapture.
  destruct (captureEach _ _ _ _ _) as [[ps bs] r']. reflexivity.
Qed.

Lemma updateInventory_out c :
  outPokemonIndices_ (updateInventory c) = outPokemonIndices_ c.
Proof.
  unfold updateInventory. destruct (promoteEach _ _ _). reflexivity.
Qed.

(** The side table never holds more than one slot. *)
Lemma reachable_single_active M c :
  reachable M c -> (length (outPokemonIndices_ c) <= 1)%nat.
Proof.
  induction 1.
  - simpl. lia.
  - now rewrite spawnPokemon_out.
  - now rewrite updateAll_out.
  - now rewrite handlePokeballCapture_out.
  - now rewrite updateInventory_out.
  - now apply sendOutPokemon_out.
  - now apply recallPokemon_out.
  - exact IHreachable.
Qed.

(** C3.  In every reachable controller state the side table of sent-out
    slots has at most one entry.  [sendOutPokemon] fails, changing nothing,
    when the index is out of range, when any slot is out, or when the
    requested slot is out; after a successful recall a send-out on any
    valid slot succeeds and that slot is then the only active one. *)
Theorem single_active_companion (M : Libm) (c : PokemonController) :
  reachable M c ->
  (length (outPokemonIndices_ c) <= 1)%nat
  /\ (forall index p,
        (length (inventory_ c) <= index)%nat
        \/ hasAnyPokemonOut c = true
        \/ isPokemonOut index c = true ->
        sendOutPokemon index p c = (false, c))
  /\ (forall index c',
        recallPokemon index c = (true, c') ->
        forall index' p,
          (index' < length (inventory_ c'))%nat ->
          fst (sendOutPokemon index' p c') = true
          /\ outPokemonIndices_ (snd (sendOutPokemon index' p c')) = [index']).
Proof.
  intros R. pose proof (reachable_single_active R) as Hlen.
  split; [exact Hlen|]. split.
  - intros index p H. unfold sendOutPokemon.
    destruct (nth_error (inventory_ c) index) eqn:E; [|reflexivity].
    destruct H as [H|[H|H]].
    + apply nth_error_None in H. congruence.
    + now rewrite H.
    + rewrite H. now destruct (hasAnyPokemonOut c).
  - intros index c' Hrec index' p Hidx.
    unfold recallPokemon in Hrec.
    destruct (nth_error (inventory_ c) index); [|discriminate].
    destruct (eraseFirst (Nat.eqb index) (outPokemonIndices_ c)) as [out'|] eqn:E;
      [|discriminate].
    destruct (eraseLast _ (pokemon_ c)) as [ps'|]; [|discriminate].
    injection Hrec as <-.
    apply eraseFirst_length in E.
    assert (Hout : out' = []) by (destruct out'; [reflexivity|simpl in E; lia]).
    subst out'. simpl in Hidx.
    unfold sendOutPokemon, hasAnyPokemonOut, isPokemonOut. simpl.
    destruct (nth_error (inventory_ c) index') eqn:E'.
    + simpl. split; reflexivity.
    + apply nth_error_None in E'. lia.
Qed.

Lemma ctl_slot0_out_reachable : reachable libm_rational ctl_slot0_out.
Proof.
  unfold ctl_slot0_out. apply reach_sendOutPokemon.
  pose proof (reach_updateInventory
                (reach_getPokemon [captive; captive] (reach_empty libm_rational)))
    as H.
  exact H.
Qed.

Lemma single_active_companion_witness :
  (length (outPokemonIndices_ ctl_slot0_out) <= 1)%nat
  /\ sendOutPokemon 1 vzero ctl_slot0_out = (false, ctl_slot0_out)
  /\ fst (sendOutPokemon 1 vzero (snd (recallPokemon 0 ctl_slot0_out))) = true.
Proof.
  destruct (@single_active_companion libm_rational ctl_slot0_out
              ctl_slot0_out_reachable) as [H1 [H2 H3]].
  split; [exact H1|]. split.
  - apply H2. right. left. reflexivity.
  - apply (H3 0%nat (snd (recallPokemon 0 ctl_slot0_out)) eq_refl 1%nat vzero).
    simpl. lia.
Defined.

Lemma eraseFirst_none {A : Type} (f : A -> bool) (l : list A) :
  existsb f l = false -> eraseFirst f l = None.
Proof.
  induction l as [|x l IH]; simpl; [reflexivity|].
  destruct (f x); simpl; [discriminate|]. intros H. now rewrite IH.
Qed.

(** C9.  A failed [sendOutPokemon] or [recallPokemon] leaves the inventory,
    the roster and the side table of active slots as they were.  The
    failures are: an index out of range (both), a slot that is not out
    (recall), any slot being out (send-out). *)
Theorem failed_inventory_operation_changes_nothing
    (c : PokemonController) (index : nat) (p : vec3) :
  (fst (sendOutPokemon index p c) = false -> snd (sendOutPokemon index p c) = c)
  /\ (fst (recallPokemon index c) = false -> snd (recallPokemon index c) = c)
  /\ ((length (inventory_ c) <= index)%nat \/ hasAnyPokemonOut c = true ->
      sendOutPokemon index p c = (false, c))
  /\ ((length (inventory_ c) <= index)%nat \/ isPokemonOut index c = false ->
      recallPokemon index c = (false, c)).
Proof.
  split; [|split; [|split]].
  - unfold sendOutPokemon.
    destruct (nth_error (inventory_ c) index); [|reflexivity].
    destruct (hasAnyPokemonOut c); [reflexivity|].
    destruct (isPokemonOut index c); [reflexivity|]. discriminate.
  - unfold recallPokemon.
    destruct (nth_error (inventory_ c) index); [|reflexivity].
    destruct (eraseFirst _ (outPokemonIndices_ c)); [|reflexivity].
    destruct (eraseLast _ (pokemon_ c)); [discriminate|reflexivity].
  - intros H. unfold sendOutPokemon.
    destruct (nth_error (inventory_ c) index) eqn:E; [|reflexivity].
    destruct H as [H|H]; [|now rewrite H].
    apply nth_error_None in H. congruence.
  - intros H. unfold recallPokemon.
    destruct (nth_error (inventory_ c) index) eqn:E; [|reflexivity].
    destruct H as [H|H].
    + apply nth_error_None in H. congruence.
    + unfold isPokemonOut in H. now rewrite (eraseFirst_none _ _ H).
Qed.

Lemma failed_inventory_operation_changes_nothing_witness :
  snd (sendOutPokemon 1 vzero ctl_slot0_out) = ctl_slot0_out
  /\ snd (recallPokemon 1 ctl_slot0_out) = ctl_slot0_out.
Proof.
  destruct (failed_inventory_operation_changes_nothing ctl_slot0_out 1 vzero)
    as [H1 [H2 _]].
  split; [apply H1|apply H2]; reflexivity.
Defined.

End Inventory.

(** ** Creature state machine *)

Section Creature.
Import Pokemon.

Lemma pickNewWanderDirection_spec (M : Libm) (r : Rng) (p : Pokemon) :
  let q := fst (pickNewWanderDirection M r p) in
  state_ q = Walking
  /\ visible_ q = visible_ p
  /\ position_ q = position_ p
  /\ wanderDir_ q = headingOf M (draws r (cursor r))
  /\ velocity_ q = vscale (wanderDir_ q) (speed_ p)
  /\ cursor (snd (pickNewWanderDirection M r p)) = S (S (cursor r)).
Proof. unfold pickNewWanderDirection. simpl. repeat split. Qed.

Lemma wanders_on_trans (p q s : Pokemon) :
  wanders_on p q -> wanders_on q s -> wanders_on p s.
Proof.
  intros [H1 H2] [H3 H4]. split; [congruence|].
  destruct H4 as [H4|H4]; [rewrite H4; exact H2|now right].
Qed.

Lemma moveOrTurn_wanders M dt obstacles r p :
  wanders_on p (fst (moveOrTurn M dt obstacles r p)).
Proof.
  unfold moveOrTurn. destruct (existsb _ obstacles); split; simpl; auto.
Qed.

Lemma followTerrain_wanders world p : wanders_on p (followTerrain world p).
Proof. destruct world; split; simpl; auto. Qed.

Lemma countDown_wanders M dt r p : wanders_on p (fst (countDown M dt r p)).
Proof. unfold countDown. destruct (Qleb _ 0); split; simpl; auto. Qed.

Lemma faceMovement_wanders M oldPos p : wanders_on p (faceMovement M oldPos p).
Proof. unfold faceMovement. destruct (Qltb _ _); split; simpl; auto. Qed.

Lemma update_wanders (M : Libm) (dt : Q) (world : option World.t)
    (obstacles : list vec3) (r : Rng) (p : Pokemon) :
  state_ p = Idle \/ state_ p = Walking ->
  wanders_on p (fst (update M dt world obstacles r p)).
Proof.
  intros Hs.
  assert (H : wanders_on p
                (faceMovement M (position_ p)
                   (fst (countDown M dt (snd (moveOrTurn M dt obstacles r p))
                           (followTerrain world
                              (fst (moveOrTurn M dt obstacles r p))))))).
  { eapply wanders_on_trans; [|apply faceMovement_wanders].
    eapply wanders_on_trans; [|apply countDown_wanders].
    eapply wanders_on_trans; [|apply followTerrain_wanders].
    apply moveOrTurn_wanders. }
  unfold update.
  destruct Hs as [Hs|Hs]; rewrite Hs;
    destruct (moveOrTurn M dt obstacles r p) as [p1 r1];
    destruct (countDown M dt r1 (followTerrain world p1)) as [p3 r3] eqn:E;
    cbn [fst snd] in H; rewrite E in H; exact H.
Qed.

(** No call of [update] leaves a creature in [CaptureFailed]; a creature
    comes out [Capturing] only if it went in [Capturing], with its
    visibility untouched. *)
Lemma update_state (M : Libm) (dt : Q) (world : option World.t)
    (obstacles : list vec3) (r : Rng) (p : Pokemon) :
  let q := fst (update M dt world obstacles r p) in
  state_ q <> CaptureFailed
  /\ (state_ q = Capturing -> state_ p = Capturing /\ visible_ q = visible_ p).
Proof.
  cbv zeta.
  destruct (state_ p) eqn:E.
  1, 2: destruct (update_wanders M dt world obstacles r p) as [Hv [Hq|Hq]];
    try (rewrite E; auto; fail);
    rewrite Hq, ?E; split; try congruence; intros; split; congruence.
  all: unfold update; rewrite E; simpl;
    split; [congruence | intros; split; congruence].
Qed.

(** C4 as the spec states it fails: the update that consumes
    [CaptureFailed] does not leave the creature in [Walking]. *)
Lemma capture_failed_update_not_walking :
  ~ (state_ (fst (update libm_rational (1 # 60) None [] rng0
                    (markCaptureFailed wild0))) = Walking).
Proof. vm_compute. discriminate. Qed.

(** The resolve loop of a shake completion stops at the first creature in
    reach: with every creature before [p] out of reach, [p] receives the
    outcome and the rest of the roster is left as it is. *)
Lemma resolveCapture_at (M : Libm) (base : vec3) (success : bool)
    (pre post : list Pokemon) (p : Pokemon) :
  forallb (fun x => negb (inReach M base x)) pre = true ->
  inReach M base p = true ->
  App.resolveCapture M base success (pre ++ p :: post)
  = pre ++ (if success then markCaptured p else markCaptureFailed p) :: post.
Proof.
  intros Hpre Hp. induction pre as [|x pre IH]; simpl.
  - unfold inReach in Hp. rewrite Hp. reflexivity.
  - simpl in Hpre. apply andb_prop in Hpre. destruct Hpre as [Hx Hpre].
    apply negb_true_iff in Hx. unfold inReach in Hx. rewrite Hx.
    now rewrite IH.
Qed.

(** The increment in which the phase of a locked capsule wraps for the
    third time (or a later one) runs the resolve loop, with the outcome the
    capsule stores and around the base position of that increment. *)
Lemma ballStep_completes (M : Libm) (a : App) (dt : Q) (b : Pokeball)
    (c : PokemonController) :
  locked b = true ->
  Qleb 1 (shakePhase b + dt / SHAKE_DURATION) = true ->
  (MAX_SHAKES <=? shakeCount b + 1)%Z = true ->
  snd (App.ballStep M a dt b (Some c))
  = Some (Controller.set_pokemon
            (App.resolveCapture M
               (if Qleb (lockTimer b + dt) dt then position b
                else captureBasePos b)
               (captureSuccess b) (pokemon_ c)) c).
Proof.
  intros Hl Hw Hc. unfold App.ballStep, App.lockedStep. rewrite Hl.
  cbn [snd]. rewrite Hw. cbn [andb]. rewrite Hc. reflexivity.
Qed.

(** C4, amended.  A capsule that hits a creature with capture-probability
    [0] stores a failed outcome for every positive sample.  When the shakes
    of a capsule with a failed outcome complete and creature [p] is the
    first creature of the roster mid-capture in reach of the capsule, the
    increment marks [p] [CaptureFailed], visible, and leaves the rest of
    the roster as it is.  Until its next [update] call the marked creature
    is skipped by the hit test and by every resolve loop.  That [update]
    call makes it [Idle] and visible with a heading computed from a fresh
    sample (the heading pick assigns [Walking], [update] then overwrites it
    with [Idle]); the position is kept.  No [update] call ever returns a
    creature in [CaptureFailed], so the state is seen by one update call
    only. *)
Theorem capture_failed_is_consumed_by_one_update
    (M : Libm) (dt : Q) (world : option World.t) (obstacles : list vec3)
    (r : Rng) (p : Pokemon) :
  let q := markCaptureFailed p in
  let q' := fst (update M dt world obstacles r q) in
  (forall roll ball, getCatchRate p == 0 -> 0 < roll ->
     captureSuccess (Controller.lockOnto p roll ball) = false)
  /\ (forall a step b c pre post,
        locked b = true -> captureSuccess b = false ->
        Qleb 1 (shakePhase b + step / SHAKE_DURATION) = true ->
        (MAX_SHAKES <=? shakeCount b + 1)%Z = true ->
        pokemon_ c = pre ++ p :: post ->
        let base := if Qleb (lockTimer b + step) step then position b
                    else captureBasePos b in
        forallb (fun x => negb (inReach M base x)) pre = true ->
        inReach M base p = true ->
        snd (App.ballStep M a step b (Some c))
        = Some (Controller.set_pokemon (pre ++ q :: post) c))
  /\ state_ q = CaptureFailed /\ visible_ q = true
  /\ (forall out inv, Controller.skipsCapture out inv q = true)
  /\ (forall base, inReach M base q = false)
  /\ state_ q' = Idle /\ visible_ q' = true
  /\ wanderDir_ q' = headingOf M (draws r (cursor r))
  /\ velocity_ q' = vscale (wanderDir_ q') (speed_ p)
  /\ position_ q' = position_ p
  /\ (forall dt' world' obstacles' r' x,
        state_ (fst (update M dt' world' obstacles' r' x)) <> CaptureFailed).
Proof.
  cbv zeta. split; [|split].
  - intros roll ball H0 Hroll. simpl. apply Qleb_false. now rewrite H0.
  - intros a step b c pre post Hl Hs Hw Hc Hps Hpre Hp.
    rewrite (ballStep_completes M a step b c Hl Hw Hc), Hps, Hs.
    now rewrite (resolveCapture_at M _ false pre post p Hpre Hp).
  - repeat split; try reflexivity.
    intros dt' world' obstacles' r' x. apply update_state.
Qed.

Lemma capture_failed_is_consumed_by_one_update_witness :
  captureSuccess (Controller.lockOnto wild0 (1 # 3) Pokeball_default) = false
  /\ snd (App.ballStep libm_rational app0 PHYSICS_TIMESTEP ball_last_shake
            (Some ctl_last_shake))
     = Some (Controller.set_pokemon
               [captive;
                markCaptureFailed (setVisible false (startCapture wild0))]
               ctl_last_shake)
  /\ state_ (fst (update libm_rational (1 # 60) None [] rng0
                    (markCaptureFailed
                       (setVisible false (startCapture wild0))))) = Idle.
Proof.
  destruct (capture_failed_is_consumed_by_one_update libm_rational (1 # 60)
              None [] rng0 (setVisible false (startCapture wild0)))
    as [H1 [H2 [_ [_ [_ [_ [H5 _]]]]]]].
  split; [|split; [|exact H5]].
  - apply (H1 (1 # 3) Pokeball_default); reflexivity.
  - apply (H2 app0 PHYSICS_TIMESTEP ball_last_shake ctl_last_shake
              [captive] []); vm_compute; reflexivity.
Defined.

End Creature.

(** ** The capture pass *)

Section CapturePass.
Import Pokemon Controller.

(** One creature against the capsules: nothing happens, or exactly one
    capsule, not locked before, is locked onto the creature with the next
    sample, and the creature enters [Capturing], hidden. *)
Lemma tryBalls_spec (p : Pokemon) (balls : list Pokeball) (r : Rng) :
  tryBalls p balls r = (p, balls, r)
  \/ exists pre ball post,
       balls = pre ++ ball :: post
       /\ locked ball = false
       /\ tryBalls p balls r =
            (setVisible false (startCapture p),
             pre ++ lockOnto p (draws r (cursor r)) ball :: post,
             mkRng (draws r) (S (cursor r))).
Proof.
  induction balls as [|b rest IH]; [left; reflexivity|].
  simpl.
  destruct (locked b) eqn:El; simpl.
  { destruct IH as [IH|(pre & ball & post & -> & Hl & IH)]; rewrite IH.
    - left. reflexivity.
    - right. exists (b :: pre), ball, post. repeat split. exact Hl. }
  destruct ((targetPokemonId b =? id_ p)%Z
            || negb (collide (position b) (radius b) (position_ p) (radius_ p))).
  { destruct IH as [IH|(pre & ball & post & -> & Hl & IH)]; rewrite IH.
    - left. reflexivity.
    - right. exists (b :: pre), ball, post. repeat split. exact Hl. }
  right. exists [], b, rest. repeat split. exact El.
Qed.

Lemma lockOnto_fields (p : Pokemon) (roll : Q) (b : Pokeball) :
  locked (lockOnto p roll b) = true
  /\ active (lockOnto p roll b) = false
  /\ velocity (lockOnto p roll b) = vzero
  /\ position (lockOnto p roll b) = vadd (position_ p) (mkVec3 0 (radius_ p) 0)
  /\ captureSuccess (lockOnto p roll b) = Qleb roll (getCatchRate p)
  /\ targetPokemonId (lockOnto p roll b) = id_ p.
Proof. repeat split. Qed.

Lemma struck_weaken (ps ps' : list Pokemon) (r0 r r' r1 : Rng) (b b' : Pokeball) :
  struck ps r r' b b' ->
  incl ps ps' -> draws r = draws r0 ->
  (cursor r0 <= cursor r)%nat -> (cursor r' <= cursor r1)%nat ->
  struck ps' r0 r1 b b'.
Proof.
  intros [Hl (p & k & Hin & Hk & ->)] Hi Hd H0 H1.
  split; [exact Hl|]. exists p, k. rewrite <- Hd. repeat split; auto; lia.
Qed.

(** The whole pass over the roster. *)
Lemma captureEach_spec (out : list nat) (inv ps : list Pokemon) :
  forall balls r ps' balls' r',
    captureEach out inv ps balls r = (ps', balls', r') ->
    Forall2 (fun q q' => q' = q \/ q' = setVisible false (startCapture q)) ps ps'
    /\ Forall2 (fun b b' => b' = b \/ struck ps r r' b b') balls balls'
    /\ draws r' = draws r /\ (cursor r <= cursor r')%nat.
Proof.
  induction ps as [|p ps IH]; intros balls r ps' balls' r' H; simpl in H.
  - injection H as <- <- <-. repeat split; auto.
    induction balls; constructor; auto.
  - destruct (skipsCapture out inv p).
    + destruct (captureEach out inv ps balls r) as [[ps1 balls1] r1] eqn:E.
      injection H as <- <- <-.
      destruct (IH _ _ _ _ _ E) as (Hp & Hb & Hd & Hc).
      repeat split; auto.
      eapply Forall2_impl; [|exact Hb]. intros b b' [->|Hs]; [now left|right].
      eapply struck_weaken; [exact Hs|..]; auto using incl_tl, incl_refl.
    + destruct (tryBalls_spec p balls r)
        as [Ht|(pre & ball & post & -> & Hl & Ht)]; rewrite Ht in H.
      * destruct (captureEach out inv ps balls r) as [[ps1 balls1] r1] eqn:E.
        injection H as <- <- <-.
        destruct (IH _ _ _ _ _ E) as (Hp & Hb & Hd & Hc).
        repeat split; auto.
        eapply Forall2_impl; [|exact Hb]. intros b b' [->|Hs]; [now left|right].
        eapply struck_weaken; [exact Hs|..]; auto using incl_tl, incl_refl.
      * destruct (captureEach out inv ps _ _) as [[ps1 balls1] r1] eqn:E.
        injection H as <- <- <-.
        destruct (IH _ _ _ _ _ E) as (Hp & Hb & Hd & Hc).
        simpl in Hd, Hc.
        repeat split; auto; [|lia].
        apply Forall2_app_inv_l in Hb.
        destruct Hb as (pre' & tl' & Hpre & Htl & ->).
        inversion Htl as [|b1 b1' post0 post' Hhd Hpost]; subst.
        apply Forall2_app; [|constructor].
        -- eapply Forall2_impl; [|exact Hpre].
           intros b b' [->|Hs]; [now left|right].
           eapply struck_weaken; [exact Hs|..]; simpl;
             auto using incl_tl, incl_refl; lia.
        -- right. destruct Hhd as [->|[Hlock _]]; [|discriminate Hlock].
           split; [exact Hl|]. exists p, (cursor r).
           repeat split; [now left|lia|lia].
        -- eapply Forall2_impl; [|exact Hpost].
           intros b b' [->|Hs]; [now left|right].
           eapply struck_weaken; [exact Hs|..]; simpl;
             auto using incl_tl, incl_refl; lia.
Qed.

Lemma captureEach_hidden (out : list nat) (inv ps : list Pokemon) :
  forall balls r ps' balls' r',
    captureEach out inv ps balls r = (ps', balls', r') ->
    Forall hidden_while_capturing ps -> Forall hidden_while_capturing ps'.
Proof.
  intros balls r ps' balls' r' H Hall.
  destruct (captureEach_spec _ _ _ _ _ H) as (Hp & _).
  clear H. induction Hp as [|q q' l l' Hq _ IH]; [constructor|].
  inversion Hall; subst. constructor; [|now apply IH].
  destruct Hq as [->| ->]; [assumption|]. intros _. reflexivity.
Qed.

Lemma Qleb_compat (a a' b b' : Q) : a == a' -> b == b' -> Qleb a b = Qleb a' b'.
Proof.
  intros Ha Hb. destruct (Qleb a' b') eqn:E.
  - apply Qleb_true. apply Qleb_true in E. now rewrite Ha, Hb.
  - apply Qleb_false. apply Qleb_false in E. now rewrite Ha, Hb.
Qed.

Lemma handlePokeballCapture_locked (c : PokemonController) (balls : list Pokeball)
    (r : Rng) :
  Forall2 (fun b b' => locked b = true -> b' = b) balls
          (snd (fst (handlePokeballCapture c balls r))).
Proof.
  unfold handlePokeballCapture.
  destruct (captureEach _ _ _ _ _) as [[ps' balls'] r'] eqn:E. simpl.
  destruct (captureEach_spec _ _ _ _ _ E) as (_ & Hb & _).
  eapply Forall2_impl; [|exact Hb].
  intros b b' [->|[Hl _]] Hlock; [reflexivity|congruence].
Qed.

Lemma resolveCapture_spec (M : Libm) (base : vec3) (success : bool)
    (ps : list Pokemon) :
  Forall2 (revealed success) ps (App.resolveCapture M base success ps).
Proof.
  induction ps as [|p ps IH]; simpl; [constructor|].
  destruct (isCapturing p) eqn:Ec; simpl.
  - destruct (Qltb _ 1).
    + constructor.
      * right. split; [exact Ec|reflexivity].
      * clear. induction ps; constructor; [now left|assumption].
    + constructor; [now left|exact IH].
  - constructor; [now left|exact IH].
Qed.

Lemma revealed_refl (success : bool) (ps : list Pokemon) :
  Forall2 (revealed success) ps ps.
Proof. induction ps; constructor; [now left|assumption]. Qed.

Lemma set_pokemon_same (c : PokemonController) : set_pokemon (pokemon_ c) c = c.
Proof. now destruct c. Qed.

Lemma lockedStep_controller (M : Libm) (dt : Q) (b : Pokeball)
    (c : PokemonController) :
  exists ps',
    snd (App.lockedStep M dt b (Some c)) = Some (set_pokemon ps' c)
    /\ Forall2 (revealed (captureSuccess b)) (pokemon_ c) ps'.
Proof.
  unfold App.lockedStep. cbn [snd].
  destruct (Qleb 1 _ && (MAX_SHAKES <=? _)%Z).
  - eexists. split; [reflexivity|]. apply resolveCapture_spec.
  - exists (pokemon_ c). rewrite set_pokemon_same. split; [reflexivity|].
    apply revealed_refl.
Qed.

Lemma ballStep_keeps (M : Libm) (a : App) (dt : Q) (b : Pokeball)
    (ctl : option PokemonController) :
  let b' := fst (App.ballStep M a dt b ctl) in
  locked b' = locked b /\ active b' = active b
  /\ captureSuccess b' = captureSuccess b
  /\ targetPokemonId b' = targetPokemonId b.
Proof.
  unfold App.ballStep.
  destruct (locked b) eqn:El; [simpl; auto|].
  destruct (active b) eqn:Ea; simpl; auto.
Qed.

(** C2.  The outcome a creature receives is not always the one decided
    at its hit.  In [app_pair] both creatures are mid-capture: the capsule
    that hit creature 2 (capture-probability 1) stores success, the capsule
    that hit creature 1 (capture-probability 0) stores failure.  The first
    capsule completes its shakes first, and its resolve loop takes the
    first creature of the roster mid-capture less than 1 away from it,
    which is creature 1: creature 1 is marked [Captured] with the outcome
    decided for creature 2, and the capsule that hit creature 1 then hands
    its failure to creature 2.  The creature update of the frame moves
    creature 1 to the inventory and leaves creature 2 [Idle] in the
    roster. *)
Theorem capture_outcome_crosses_capsules :
  fates app_pair
  = ([(1%Z, 0, Capturing, false); (2%Z, 1, Capturing, false)], [],
     [(2%Z, true); (1%Z, false)])
  /\ fates app_pair_done
     = ([(1%Z, 0, Captured, false); (2%Z, 1, CaptureFailed, true)], [],
        [(2%Z, true); (1%Z, false)])
  /\ fates (App.updatePhysics libm_rational app_pair_done)
     = ([(2%Z, 1, Idle, true)], [(1%Z, 0, Captured)],
        [(2%Z, true); (1%Z, false)]).
Proof.
  split; [vm_compute; reflexivity|].
  assert (E : exists a,
             app_pair_done = a
             /\ fates a
                = ([(1%Z, 0, Captured, false); (2%Z, 1, CaptureFailed, true)],
                   [], [(2%Z, true); (1%Z, false)])
             /\ fates (App.updatePhysics libm_rational a)
                = ([(2%Z, 1, Idle, true)], [(1%Z, 0, Captured)],
                   [(2%Z, true); (1%Z, false)]))
    by (eexists; split; [vm_compute; reflexivity|];
        split; vm_compute; reflexivity).
  destruct E as (a & Ea & H1 & H2). rewrite Ea. split; assumption.
Qed.

End CapturePass.

(** ** The capsule engine *)

Section Engine.
Import Pokemon Controller App.

Lemma Forall2_compose {A B C : Type} (R : A -> B -> Prop) (S : B -> C -> Prop)
    (l1 : list A) (l2 : list B) (l3 : list C) :
  Forall2 R l1 l2 -> Forall2 S l2 l3 ->
  Forall2 (fun x z => exists y, R x y /\ S y z) l1 l3.
Proof.
  intros H. revert l3. induction H as [|x y l1 l2 Hxy _ IH]; intros l3 H3.
  - inversion H3. constructor.
  - inversion H3; subst. constructor; [eauto|now apply IH].
Qed.

Lemma Forall_Forall2_r {A B : Type} (P : A -> Prop) (Q : B -> Prop)
    (R : A -> B -> Prop) (l : list A) (l' : list B) :
  (forall x y, P x -> R x y -> Q y) ->
  Forall P l -> Forall2 R l l' -> Forall Q l'.
Proof.
  intros HPR HP H. induction H as [|x y l l' Hxy _ IH]; [constructor|].
  inversion HP; subst. constructor; eauto.
Qed.

Lemma lockedStep_governed (M : Libm) (dt : Q) (b : Pokeball)
    (ctl : option PokemonController) :
  locked b = true -> shake_governed M dt b (fst (lockedStep M dt b ctl)).
Proof.
  intros Hl. unfold shake_governed, lockedStep. cbn [fst].
  cbn [locked active velocity life captureSuccess targetPokemonId captureBasePos
       position lockTimer shakeCount shakePhase].
  repeat split; auto.
Qed.

Lemma ballLoop_spec (M : Libm) (a : App) (dt : Q) (balls : list Pokeball) :
  forall ctl balls1 ctl1,
    ballLoop M a dt balls ctl = (balls1, ctl1) ->
    Forall2 (fun b b1 => exists c, b1 = fst (ballStep M a dt b c)) balls balls1.
Proof.
  induction balls as [|b rest IH]; intros ctl balls1 ctl1 H; simpl in H.
  - injection H as <- <-. constructor.
  - destruct (ballStep M a dt b ctl) as [b' c1] eqn:Eb.
    destruct (ballLoop M a dt rest c1) as [rest' c2] eqn:Er.
    injection H as <- <-. constructor; [|eapply IH; eauto].
    exists ctl. now rewrite Eb.
Qed.

Lemma resolveCapture_hidden (M : Libm) (base : vec3) (success : bool)
    (ps : list Pokemon) :
  Forall hidden_while_capturing ps ->
  Forall hidden_while_capturing (resolveCapture M base success ps).
Proof.
  intros H.
  eapply Forall_Forall2_r; [|exact H|apply resolveCapture_spec].
  intros p p' Hp [->|[_ ->]]; [exact Hp|].
  destruct success; intros Hs; discriminate Hs.
Qed.

Lemma ballStep_controller (M : Libm) (a : App) (dt : Q) (b : Pokeball)
    (ctl : option PokemonController) :
  (roster_hidden ctl -> roster_hidden (snd (ballStep M a dt b ctl)))
  /\ (ctl <> None -> snd (ballStep M a dt b ctl) <> None).
Proof.
  unfold ballStep.
  destruct (locked b); [|destruct (negb (active b)); simpl; auto].
  unfold lockedStep. cbn [snd].
  destruct (Qleb 1 _ && (MAX_SHAKES <=? _)%Z); [|auto].
  destruct ctl as [c|]; simpl; [|auto]. split; [|discriminate].
  apply resolveCapture_hidden.
Qed.

Lemma ballLoop_controller (M : Libm) (a : App) (dt : Q) (balls : list Pokeball) :
  forall ctl,
    (roster_hidden ctl -> roster_hidden (snd (ballLoop M a dt balls ctl)))
    /\ (ctl <> None -> snd (ballLoop M a dt balls ctl) <> None).
Proof.
  induction balls as [|b rest IH]; intros ctl; simpl; [auto|].
  destruct (ballStep_controller M a dt b ctl) as [H1 H2].
  destruct (ballStep M a dt b ctl) as [b' c1].
  destruct (IH c1) as [H3 H4].
  destruct (ballLoop M a dt rest c1) as [rest' c2]. simpl in *. auto.
Qed.

(** One increment, capsule by capsule, before expired capsules are
    removed: a capsule that was locked is shake-governed and untouched by the
    capture pass; any capsule keeps its flags or is struck. *)
Lemma beforeErase_balls (M : Libm) (dt : Q) (a : App) :
  Forall2 (fun b b' =>
             (locked b = true -> shake_governed M dt b b')
             /\ (lock_excludes_flight b -> lock_excludes_flight b'))
          (balls_ a) (fst (fst (fst (beforeErase M dt a)))).
Proof.
  unfold beforeErase.
  destruct (ballLoop M a dt (balls_ a) (pokemonController_ a))
    as [balls1 ctl1] eqn:El.
  pose proof (ballLoop_spec _ _ _ _ _ El) as H1.
  assert (Hstep : forall b b1,
             (exists c, b1 = fst (ballStep M a dt b c)) ->
             (locked b = true -> shake_governed M dt b b1)
             /\ (lock_excludes_flight b -> lock_excludes_flight b1)).
  { intros b b1 [c ->]. split.
    - intros Hl. unfold ballStep. rewrite Hl. now apply lockedStep_governed.
    - destruct (ballStep_keeps M a dt b c) as (Hk1 & Hk2 & _).
      unfold lock_excludes_flight. cbv zeta in Hk1, Hk2. now rewrite Hk1, Hk2. }
  destruct ctl1 as [c|]; cbn [fst].
  - destruct (handlePokeballCapture c balls1 (rng a)) as [[c' balls2] r'] eqn:Ec.
    cbn [fst].
    assert (H2 : Forall2 (fun b b' => b' = b \/ (locked b = false
                            /\ lock_excludes_flight b')) balls1 balls2).
    { unfold handlePokeballCapture in Ec.
      destruct (captureEach _ _ _ _ _) as [[ps' bs'] r''] eqn:E.
      injection Ec as <- <- <-.
      destruct (captureEach_spec _ _ _ _ _ E) as (_ & Hb & _).
      eapply Forall2_impl; [|exact Hb].
      intros b b' [->|[Hl (p & k & _ & _ & ->)]]; [now left|right].
      split; [exact Hl|]. intros _. reflexivity. }
    eapply Forall2_impl; [|exact (Forall2_compose H1 H2)].
    intros b b2 (b1 & Hb1 & Hb2). destruct (Hstep _ _ Hb1) as [Hs1 Hs2].
    split.
    + intros Hl. specialize (Hs1 Hl). destruct Hb2 as [->|[Hu _]]; [exact Hs1|].
      destruct Hs1 as [Hs1 _]. congruence.
    + intros Hi. destruct Hb2 as [->|[_ Hf]]; auto.
  - eapply Forall2_impl; [|exact H1]. intros b b1 Hb. now apply Hstep.
Qed.

Lemma updatePokeballs_balls (M : Libm) (dt : Q) (a : App) :
  balls_ (updatePokeballs M dt a)
  = filter (fun p => negb (expired p)) (fst (fst (fst (beforeErase M dt a)))).
Proof.
  unfold updatePokeballs.
  destruct (beforeErase M dt a) as [[[bs c] r] ran]. reflexivity.
Qed.

Lemma Forall_filter {A : Type} (P : A -> Prop) (f : A -> bool) (l : list A) :
  Forall P l -> Forall P (filter f l).
Proof.
  intros H. apply Forall_forall. intros x Hx. apply filter_In in Hx.
  rewrite Forall_forall in H. now apply H.
Qed.

Lemma beforeErase_controller (M : Libm) (dt : Q) (a : App) :
  let ctl := snd (fst (fst (beforeErase M dt a))) in
  (roster_hidden (pokemonController_ a) -> roster_hidden ctl)
  /\ (pokemonController_ a <> None ->
      ctl <> None /\ snd (beforeErase M dt a) = true).
Proof.
  unfold beforeErase.
  destruct (ballLoop_controller M a dt (balls_ a) (pokemonController_ a))
    as [H1 H2].
  destruct (ballLoop M a dt (balls_ a) (pokemonController_ a)) as [balls1 ctl1].
  cbn [snd] in H1, H2.
  destruct ctl1 as [c|].
  - unfold handlePokeballCapture.
    destruct (captureEach _ _ _ _ _) as [[ps' bs'] r''] eqn:E. cbn [fst snd].
    split; [|intros _; split; [discriminate|reflexivity]].
    intros Hh. simpl. eapply captureEach_hidden; [exact E|]. now apply H1.
  - cbn [fst snd]. split; [auto|]. intros Hn. now elim (H2 Hn).
Qed.

Lemma updatePokeballs_fields (M : Libm) (dt : Q) (a : App) :
  pokemonController_ (updatePokeballs M dt a) = snd (fst (fst (beforeErase M dt a)))
  /\ acc (updatePokeballs M dt a) = acc a
  /\ increments (updatePokeballs M dt a) = S (increments a)
  /\ capturePasses (updatePokeballs M dt a)
     = (if snd (beforeErase M dt a) then S (capturePasses a) else capturePasses a).
Proof.
  unfold updatePokeballs.
  destruct (beforeErase M dt a) as [[[bs c] r] ran]. repeat split.
Qed.

Lemma updatePokeballs_invariant (M : Libm) (dt : Q) (a : App) :
  app_invariant a -> app_invariant (updatePokeballs M dt a).
Proof.
  intros (Hb & Hh & Ha & Hc).
  destruct (updatePokeballs_fields M dt a) as (Ec & Ea & _).
  destruct (beforeErase_controller M dt a) as [H1 H2].
  unfold app_invariant. rewrite updatePokeballs_balls, Ec, Ea.
  repeat split; auto.
  - apply Forall_filter.
    eapply Forall_Forall2_r; [|exact Hb|apply beforeErase_balls].
    intros b b' Hi [_ H]. now apply H.
  - now apply H2.
Qed.

Lemma updateEach_hidden (M : Libm) (dt : Q) (world : option World.t)
    (obstacles : list vec3) (ps : list Pokemon) :
  forall r, Forall hidden_while_capturing ps ->
            Forall hidden_while_capturing (fst (updateEach M dt world obstacles r ps)).
Proof.
  induction ps as [|p ps IH]; intros r H; simpl; [constructor|].
  inversion H as [|? ? Hp Hps]; subst.
  pose proof (update_state M dt world obstacles r p) as [_ Hu].
  destruct (update M dt world obstacles r p) as [p' r1].
  specialize (IH r1 Hps).
  destruct (updateEach M dt world obstacles r1 ps) as [ps' r2].
  simpl in *. constructor; [|exact IH].
  intros Hc. destruct (Hu Hc) as [Hs Hv]. rewrite Hv. now apply Hp.
Qed.

Lemma promoteEach_hidden (out : list nat) (ps : list Pokemon) :
  forall inv, Forall hidden_while_capturing ps ->
              Forall hidden_while_capturing (fst (promoteEach out ps inv)).
Proof.
  induction ps as [|p ps IH]; intros inv H; simpl; [constructor|].
  inversion H; subst.
  destruct (isCaptured p && negb (visible_ p) && negb (isOwned out inv p)).
  - now apply IH.
  - specialize (IH inv). destruct (promoteEach out ps inv). simpl in *.
    constructor; auto.
Qed.

Lemma eraseFirst_Forall {A : Type} (P : A -> Prop) (f : A -> bool) (l r : list A) :
  eraseFirst f l = Some r -> Forall P l -> Forall P r.
Proof.
  revert r. induction l as [|x l IH]; intros r H HP; simpl in H; [discriminate|].
  inversion HP; subst. destruct (f x).
  - now injection H as <-.
  - destruct (eraseFirst f l); [|discriminate]. injection H as <-.
    constructor; auto.
Qed.

Lemma eraseLast_Forall {A : Type} (P : A -> Prop) (f : A -> bool) (l r : list A) :
  eraseLast f l = Some r -> Forall P l -> Forall P r.
Proof.
  unfold eraseLast. intros H HP.
  destruct (eraseFirst f (rev l)) as [r'|] eqn:E; [|discriminate].
  injection H as <-. apply Forall_rev.
  eapply eraseFirst_Forall; [exact E|]. now apply Forall_rev.
Qed.

Lemma sendOutPokemon_hidden (index : nat) (p : vec3) (c : PokemonController) :
  Forall hidden_while_capturing (pokemon_ c) ->
  Forall hidden_while_capturing (pokemon_ (snd (sendOutPokemon index p c))).
Proof.
  intros H. unfold sendOutPokemon.
  destruct (nth_error (inventory_ c) index); [|exact H].
  destruct (hasAnyPokemonOut c); [exact H|].
  destruct (isPokemonOut index c); [exact H|]. simpl.
  apply Forall_app. split; [exact H|]. constructor; [|constructor].
  intros Hs. discriminate Hs.
Qed.

Lemma recallPokemon_hidden (index : nat) (c : PokemonController) :
  Forall hidden_while_capturing (pokemon_ c) ->
  Forall hidden_while_capturing (pokemon_ (snd (recallPokemon index c))).
Proof.
  intros H. unfold recallPokemon.
  destruct (nth_error (inventory_ c) index); [|exact H].
  destruct (eraseFirst _ (outPokemonIndices_ c)); [|exact H].
  destruct (eraseLast _ (pokemon_ c)) eqn:E; [|exact H]. simpl.
  eapply eraseLast_Forall; eauto.
Qed.

Lemma updatePhysics_invariant (M : Libm) (a : App) :
  app_invariant a -> app_invariant (updatePhysics M a).
Proof.
  intros (Hb & Hh & Ha & Hc). unfold updatePhysics.
  destruct (pokemonController_ a) as [c|] eqn:Ec; [|congruence].
  unfold updateAll.
  pose proof (updateEach_hidden M (dt_ a) (world_ a) (map pos (props_ a))
                (rng a) Hh) as Hu.
  destruct (updateEach _ _ _ _ _ _) as [ps r1]. simpl in Hu.
  unfold app_invariant. simpl. repeat split; auto; [|discriminate].
  unfold updateInventory. simpl.
  pose proof (promoteEach_hidden (outPokemonIndices_ c) (inventory_ c) Hu) as Hp.
  destruct (promoteEach _ _ _). exact Hp.
Qed.

Lemma handleEvent_invariant (M : Libm) (e : InputEvent) (a : App) :
  app_invariant a -> app_invariant (handleEvent M e a).
Proof.
  intros (Hb & Hh & Ha & Hc). destruct e as [index|speed|cp cf]; simpl.
  - unfold toggleSlot.
    destruct (pokemonController_ a) as [c|] eqn:Ec; [|congruence].
    destruct (index <? length (inventory_ c))%nat;
      [|unfold app_invariant; rewrite Ec; auto].
    destruct (isPokemonOut index c); unfold app_invariant; simpl;
      repeat split; auto; try discriminate.
    + now apply recallPokemon_hidden.
    + now apply sendOutPokemon_hidden.
  - unfold app_invariant, spawnPokeball. simpl. repeat split; auto.
    apply Forall_app. split; [exact Hb|]. constructor; [|constructor].
    intros Hl. discriminate Hl.
  - unfold app_invariant. simpl. auto.
Qed.

Lemma spawnWild_invariant (M : Libm) (species : option PokemonSpecies)
    (p : vec3) (speed rad : Q) (a : App) :
  app_invariant a -> app_invariant (spawnWild M species p speed rad a).
Proof.
  intros (Hb & Hh & Ha & Hc). unfold spawnWild.
  destruct (pokemonController_ a) as [c|] eqn:Ec; [|congruence].
  unfold app_invariant. simpl. repeat split; auto; [|discriminate].
  apply Forall_app. split; [exact Hh|]. constructor; [|constructor].
  intros Hs. discriminate Hs.
Qed.

Lemma clock_delta_nonneg (now last : Z) :
  0 <= inject_Z ((now - last) mod 2 ^ 32) / 1000.
Proof.
  apply Qle_shift_div_l; [reflexivity|]. rewrite Qmult_0_l.
  apply (@inject_Z_le_mono 0). apply Z.mod_pos_bound. lia.
Qed.

Lemma advanceClock_invariant (now : Z) (a : App) :
  app_invariant a -> app_invariant (advanceClock now a).
Proof.
  intros (Hb & Hh & Ha & Hc).
  unfold app_invariant, advanceClock, set_clock.
  cbn [balls_ pokemonController_ acc].
  repeat split; auto.
  pose proof (clock_delta_nonneg now (lastTicks_ a)). lra.
Qed.

Lemma drainOne_invariant (M : Libm) (a : App) :
  PHYSICS_TIMESTEP <= acc a -> app_invariant a -> app_invariant (drainOne M a).
Proof.
  intros Hge Hi.
  destruct (updatePokeballs_invariant M PHYSICS_TIMESTEP Hi) as (Hb & Hh & Ha & Hc).
  destruct (updatePokeballs_fields M PHYSICS_TIMESTEP a) as (_ & Ea & _).
  unfold app_invariant, drainOne. simpl. repeat split; auto.
  rewrite Ea. lra.
Qed.

Lemma exec_invariant (M : Libm) (a : App) (op : Op) :
  app_invariant a -> app_invariant (exec M a op).
Proof.
  intros Hi. destruct op; simpl.
  - now apply advanceClock_invariant.
  - destruct (Qleb PHYSICS_TIMESTEP (acc a)) eqn:E; [|exact Hi].
    apply drainOne_invariant; [|exact Hi]. now apply Qleb_true.
  - now apply updatePhysics_invariant.
  - now apply handleEvent_invariant.
  - now apply spawnWild_invariant.
Qed.

Lemma reachable_invariant (M : Libm) (a : App) :
  reachable M a -> app_invariant a.
Proof.
  induction 1 as [world props r ticks|a op _ IH].
  - unfold app_invariant. simpl. repeat split; auto; discriminate.
  - now apply exec_invariant.
Qed.

Lemma reachable_run (M : Libm) (ops : list Op) :
  forall a, reachable M a -> reachable M (fold_left (exec M) ops a).
Proof.
  induction ops as [|op ops IH]; intros a H; simpl; [exact H|].
  apply IH. now apply reach_step.
Qed.

Lemma app_hit_reachable : reachable libm_rational app_hit.
Proof. apply reachable_run. apply reach_init. Qed.

(** C1.  In every state of a run a locked capsule is not flying.  Across a
    physics increment a locked capsule stays locked and not flying, keeps
    its velocity and time-to-live (no gravity, no integration), and its
    position is the shake oscillation around the captured base position
    while shakes remain and is left alone afterwards; the increment then
    only removes expired capsules.  Every other step keeps the existing
    capsules as they are. *)
Theorem locked_capsule_never_flies_again (M : Libm) (a : App) :
  reachable M a ->
  Forall lock_excludes_flight (balls_ a)
  /\ (forall dt,
        Forall2 (fun b b' =>
                   locked b = true ->
                   shake_governed M dt b b' /\ active b' = false)
                (balls_ a) (fst (fst (fst (beforeErase M dt a))))
        /\ balls_ (updatePokeballs M dt a)
           = filter (fun p => negb (expired p))
                    (fst (fst (fst (beforeErase M dt a)))))
  /\ (forall op, op <> OpIncrement ->
                 exists extra, balls_ (exec M a op) = balls_ a ++ extra).
Proof.
  intros R. destruct (reachable_invariant R) as (Hb & _).
  split; [exact Hb|]. split.
  - intros dt. split; [|apply updatePokeballs_balls].
    pose proof (beforeErase_balls M dt a) as H.
    revert Hb H. generalize (fst (fst (fst (beforeErase M dt a)))).
    generalize (balls_ a). clear.
    intros l l' Hb H. induction H as [|b b' l l' [H1 H2] _ IH]; [constructor|].
    inversion Hb as [|? ? Hb1 Hb2]; subst.
    constructor; [|now apply IH].
    intros Hl. specialize (H1 Hl). split; [exact H1|].
    destruct H1 as (_ & Ha & _). rewrite Ha. now apply Hb1.
  - intros op Hop. destruct op as [now| | |e|species p speed rad]; simpl.
    + exists []. now rewrite app_nil_r.
    + congruence.
    + exists []. rewrite app_nil_r. unfold updatePhysics.
      destruct (pokemonController_ a); [|reflexivity].
      now destruct (updateAll _ _ _ _ _ _).
    + destruct e as [index|speed|cp cf]; simpl.
      * exists []. rewrite app_nil_r. unfold toggleSlot.
        destruct (pokemonController_ a) as [c|]; [|reflexivity].
        destruct (index <? length (inventory_ c))%nat; [|reflexivity].
        now destruct (isPokemonOut index c).
      * eexists. reflexivity.
      * exists []. now rewrite app_nil_r.
    + exists []. rewrite app_nil_r. unfold spawnWild.
      destruct (pokemonController_ a); [|reflexivity].
      now destruct (spawnPokemon _ _ _ _ _ _ _ _).
Qed.

Lemma locked_capsule_never_flies_again_witness :
  (exists b, balls_ app_hit = [b] /\ locked b = true)
  /\ Forall lock_excludes_flight (balls_ app_hit).
Proof.
  split.
  - eexists. split; [vm_compute; reflexivity|reflexivity].
  - exact (proj1 (locked_capsule_never_flies_again app_hit_reachable)).
Defined.



Lemma ballLoop_controller_reachable (M : Libm) (a : App) (dt : Q)
    (balls : list Pokeball) :
  forall c,
    Controller.reachable M c ->
    exists c', snd (ballLoop M a dt balls (Some c)) = Some c'
               /\ Controller.reachable M c'.
Proof.
  induction balls as [|b rest IH]; intros c R; simpl; [eauto|].
  assert (H : exists c1, snd (ballStep M a dt b (Some c)) = Some c1
                         /\ Controller.reachable M c1).
  { unfold ballStep.
    destruct (locked b); [|destruct (negb (active b)); simpl; eauto].
    destruct (lockedStep_controller M dt b c) as (ps' & E & _).
    rewrite E. eexists. split; [reflexivity|]. now apply reach_getPokemon. }
  destruct H as (c1 & E1 & R1).
  destruct (ballStep M a dt b (Some c)) as [b' ctl1]. simpl in E1. subst ctl1.
  destruct (IH c1 R1) as (c2 & E2 & R2).
  destruct (ballLoop M a dt rest (Some c1)) as [rest' ctl2]. simpl in *. eauto.
Qed.

(** The controller of an application run is one its public interface can
    produce. *)
Lemma reachable_controller (M : Libm) (a : App) :
  reachable M a ->
  exists c, pokemonController_ a = Some c /\ Controller.reachable M c.
Proof.
  induction 1 as [world props r ticks|a op _ (c & Ec & Rc)].
  - exists Controller.empty. split; [reflexivity|constructor].
  - destruct op as [now| | |e|species p speed rad]; simpl.
    + exists c. now split.
    + destruct (Qleb PHYSICS_TIMESTEP (acc a)); [|eauto].
      unfold drainOne. cbn [pokemonController_ set_clock].
      destruct (updatePokeballs_fields M PHYSICS_TIMESTEP a) as (E & _).
      rewrite E. unfold beforeErase. rewrite Ec.
      destruct (@ballLoop_controller_reachable M a PHYSICS_TIMESTEP (balls_ a) c Rc)
        as (c1 & E1 & R1).
      destruct (ballLoop M a PHYSICS_TIMESTEP (balls_ a) (Some c)) as [bs ctl1].
      simpl in E1. subst ctl1.
      pose proof (reach_handlePokeballCapture bs (rng a) R1) as R2.
      destruct (handlePokeballCapture c1 bs (rng a)) as [[c2 bs2] r2].
      simpl in *. eauto.
    + unfold updatePhysics. rewrite Ec.
      pose proof (reach_updateAll (dt_ a) (world_ a) (map pos (props_ a))
                    (rng a) Rc) as R1.
      destruct (updateAll M (dt_ a) (world_ a) (map pos (props_ a)) (rng a) c)
        as [c1 r1].
      simpl in *. eexists. split; [reflexivity|]. now apply reach_updateInventory.
    + destruct e as [index|speed|cp cf]; simpl; eauto.
      unfold toggleSlot. rewrite Ec.
      destruct (index <? length (inventory_ c))%nat; [|eauto].
      destruct (isPokemonOut index c); simpl; eexists; split; try reflexivity.
      * now apply reach_recallPokemon.
      * now apply reach_sendOutPokemon.
    + unfold spawnWild. rewrite Ec.
      pose proof (reach_spawnPokemon (rng a) species p speed rad 0 Rc) as R1.
      destruct (spawnPokemon M (rng a) species p speed rad 0 c) as [c1 r1].
      simpl in *. eauto.
Qed.

End Engine.

(** ** Frame timing *)

Section Timing.
Import App.

Lemma drainOne_fields (M : Libm) (a : App) :
  pokemonController_ a <> None ->
  acc (drainOne M a) = acc a - PHYSICS_TIMESTEP
  /\ increments (drainOne M a) = S (increments a)
  /\ capturePasses (drainOne M a) = S (capturePasses a)
  /\ pokemonController_ (drainOne M a) <> None.
Proof.
  intros Hc.
  destruct (updatePokeballs_fields M PHYSICS_TIMESTEP a) as (Ec & Ea & Ei & Ep).
  destruct (beforeErase_controller M PHYSICS_TIMESTEP a) as [_ H].
  destruct (H Hc) as [Hn Hr]. rewrite Hr in Ep.
  unfold drainOne. cbn [acc increments capturePasses pokemonController_ set_clock].
  rewrite Ea, Ei, Ep, Ec. auto.
Qed.

(** A drain loop that ends has run as many capture passes as
    increments. *)
Lemma drain_counts (M : Libm) (fuel : nat) :
  forall a a',
    pokemonController_ a <> None -> drain M fuel a = Some a' ->
    exists n,
      (n <= fuel)%nat
      /\ increments a' = (increments a + n)%nat
      /\ capturePasses a' = (capturePasses a + n)%nat.
Proof.
  induction fuel as [|fuel IH]; intros a a' Hc H; cbn [drain] in H;
    destruct (Qleb PHYSICS_TIMESTEP (acc a)); try discriminate;
    try (injection H as <-; exists 0%nat; repeat split; lia).
  destruct (@drainOne_fields M a Hc) as (_ & Ei & Ep & Hc').
  destruct (IH _ _ Hc' H) as (n & Hn & Hi & Hp).
  exists (S n). rewrite Hi, Hp, Ei, Ep. repeat split; lia.
Qed.

Lemma updatePhysics_counters (M : Libm) (a : App) :
  increments (updatePhysics M a) = increments a
  /\ capturePasses (updatePhysics M a) = capturePasses a.
Proof.
  unfold updatePhysics. destruct (pokemonController_ a); [|auto].
  destruct (Controller.updateAll _ _ _ _ _ _). auto.
Qed.

Lemma handleEvent_counters (M : Libm) (e : InputEvent) (a : App) :
  increments (handleEvent M e a) = increments a
  /\ capturePasses (handleEvent M e a) = capturePasses a.
Proof.
  destruct e as [index|speed|cp cf]; simpl; auto.
  unfold toggleSlot. destruct (pokemonController_ a) as [c|]; [|auto].
  destruct (index <? length (inventory_ c))%nat; [|auto].
  destruct (Controller.isPokemonOut index c); auto.
Qed.

Lemma handleInput_counters (M : Libm) (events : list InputEvent) :
  forall a,
    increments (fold_left (fun s e => handleEvent M e s) events a) = increments a
    /\ capturePasses (fold_left (fun s e => handleEvent M e s) events a)
       = capturePasses a.
Proof.
  induction events as [|e events IH]; intros a; simpl; [auto|].
  destruct (IH (handleEvent M e a)) as [H1 H2].
  destruct (handleEvent_counters M e a) as [H3 H4]. split; congruence.
Qed.

(** C5 as the spec states it fails: from the initial scene, a frame that
    arrives with no elapsed time runs no capture pass, and a frame that
    arrives after 105 ms runs twelve; the spec wants one in each. *)
Lemma capture_passes_in_a_frame_not_one :
  option_map capturePasses (tick libm_rational 100 0 [] app0) = Some 0%nat
  /\ option_map capturePasses (tick libm_rational 100 105 [] app0) = Some 12%nat.
Proof. split; vm_compute; reflexivity. Qed.

(** C5, amended.  The capture pass runs once in every physics increment:
    [updatePokeballs] runs it each time it is called, and every iteration of
    the drain loop is one increment and one pass.  A rendered frame runs the
    pass as many times as it drains increments from the accumulator, which
    may be none or several. *)
Theorem capture_pass_runs_once_per_increment
    (M : Libm) (fuel : nat) (now : Z) (events : list InputEvent) (a a' : App) :
  reachable M a -> tick M fuel now events a = Some a' ->
  (forall dt, capturePasses (updatePokeballs M dt a) = S (capturePasses a))
  /\ (forall b, reachable M b ->
        increments (drainOne M b) = S (increments b)
        /\ capturePasses (drainOne M b) = S (capturePasses b))
  /\ exists n,
       (n <= fuel)%nat
       /\ increments a' = (increments a + n)%nat
       /\ capturePasses a' = (capturePasses a + n)%nat.
Proof.
  intros R Ht. destruct (reachable_invariant R) as (_ & _ & _ & Hc).
  split; [|split].
  - intros dt.
    destruct (updatePokeballs_fields M dt a) as (_ & _ & _ & Ep).
    destruct (beforeErase_controller M dt a) as [_ H].
    destruct (H Hc) as [_ Hr]. now rewrite Hr in Ep.
  - intros b Rb. destruct (reachable_invariant Rb) as (_ & _ & _ & Hb).
    destruct (@drainOne_fields M b Hb) as (_ & Ei & Ep & _). now split.
  - unfold tick, updateTiming in Ht.
    destruct (drain M fuel (advanceClock now a)) as [a1|] eqn:Ed; [|discriminate].
    injection Ht as <-.
    destruct (@drain_counts M fuel (advanceClock now a) a1 Hc Ed)
      as (n & Hn & Hi & Hp).
    exists n.
    destruct (handleInput_counters M events (updatePhysics M a1)) as [H1 H2].
    destruct (updatePhysics_counters M a1) as [H3 H4].
    rewrite H1, H2, H3, H4, Hi, Hp. repeat split; auto.
Qed.

Lemma capture_pass_runs_once_per_increment_witness :
  exists a',
    tick libm_rational 100 105 [] app0 = Some a'
    /\ increments a' = 12%nat /\ capturePasses a' = 12%nat.
Proof.
  assert (E : exists a', tick libm_rational 100 105 [] app0 = Some a'
                         /\ increments a' = 12%nat).
  { eexists. split; vm_compute; reflexivity. }
  destruct E as (a' & E & Hi). exists a'. split; [exact E|]. split; [exact Hi|].
  destruct (@capture_pass_runs_once_per_increment libm_rational 100 105 [] app0 a'
              (reach_init libm_rational None [] rng0 0) E)
    as (_ & _ & n & _ & H1 & H2).
  cbn [increments capturePasses app0 init] in H1, H2. lia.
Defined.

(** A frame is a run of primitive steps. *)
Lemma drain_reachable (M : Libm) (n : nat) :
  forall a a', reachable M a -> drain M n a = Some a' -> reachable M a'.
Proof.
  induction n as [|n IH]; intros a a' R H; simpl in H;
    destruct (Qleb PHYSICS_TIMESTEP (acc a)) eqn:E;
    try discriminate; try (injection H as <-; exact R).
  apply (IH (drainOne M a)); [|exact H].
  pose proof (reach_step OpIncrement R) as R'. simpl in R'.
  now rewrite E in R'.
Qed.

Lemma tick_reachable (M : Libm) (fuel : nat) (now : Z) (events : list InputEvent)
    (a a' : App) :
  reachable M a -> tick M fuel now events a = Some a' -> reachable M a'.
Proof.
  intros R H. unfold tick, updateTiming in H.
  destruct (drain M _ (advanceClock now a)) as [a1|] eqn:E; [|discriminate].
  injection H as <-.
  assert (R1 : reachable M (updatePhysics M a1)).
  { apply (reach_step OpPhysics). eapply drain_reachable; [|exact E].
    apply (reach_step (OpClock now) R). }
  revert R1. generalize (updatePhysics M a1). clear.
  induction events as [|e events IH]; intros s R; simpl; [exact R|].
  apply IH. apply (reach_step (OpInput e) R).
Qed.

End Timing.

(** The failed capture from throw to release, run on the model: the
    creature cannot be captured, the capsule locks in the first increment
    and its three shakes complete within the 228 increments of a frame that
    arrives after 1905 ms, which leaves the creature [CaptureFailed] and
    visible; the creature update of the same frame leaves it [Idle] and
    visible. *)
Example failed_capture_end_to_end :
  option_map
    (fun a => (increments a, roster_states a,
               roster_states (App.updatePhysics libm_rational a)))
    (App.updateTiming libm_rational 300 1905 app_throw)
  = Some (228%nat, [(CaptureFailed, true)], [(Idle, true)]).
Proof. vm_compute. reflexivity. Qed.

(** ** Terrain contact *)

Section Contact.
Import App.

Lemma flat_terrain_ground (M : Libm) : flat_terrain M None GROUND_Y.
Proof. intros p. simpl. repeat split; reflexivity. Qed.

Lemma flat_terrain_default (M : Libm) :
  sqrt_exact_at_one M -> flat_terrain M (Some World.default) 0.
Proof.
  intros HM p. simpl. split; [reflexivity|]. now apply normalAt_default.
Qed.







End Contact.

(** ** Height queries beyond the grid points *)

Section HeightFieldMore.
Import World.

Lemma clampf_below (v lo hi : Q) : v <= lo -> lo <= hi -> clampf v lo hi == lo.
Proof.
  intros H1 H2. unfold clampf.
  destruct (Qltb v lo) eqn:E1; [reflexivity|].
  apply Qltb_false in E1.
  destruct (Qltb hi v) eqn:E2.
  - apply Qltb_true in E2. lra.
  - lra.
Qed.

(** A query enters [heightAt] only through its two clamped grid
    coordinates. *)
Lemma heightAt_by_coordinates (w : t) (x x' z z' : Q) :
  gridCoord w x (halfWm_ w) (imgW_ w) == gridCoord w x' (halfWm_ w) (imgW_ w) ->
  gridCoord w z (halfZm_ w) (imgH_ w) == gridCoord w z' (halfZm_ w) (imgH_ w) ->
  heightAt w x z = heightAt w x' z'.
Proof.
  intros Hu Hv. unfold heightAt.
  destruct ((imgW_ w <=? 1)%Z || (imgH_ w <=? 1)%Z); [reflexivity|].
  set (u := gridCoord w x (halfWm_ w) (imgW_ w)) in *.
  set (u' := gridCoord w x' (halfWm_ w) (imgW_ w)) in *.
  set (v := gridCoord w z (halfZm_ w) (imgH_ w)) in *.
  set (v' := gridCoord w z' (halfZm_ w) (imgH_ w)) in *.
  assert (Efu : Qfloor u = Qfloor u') by now rewrite Hu.
  assert (Efv : Qfloor v = Qfloor v') by now rewrite Hv.
  rewrite Efu, Efv.
  rewrite (@fl32_compat (u - ofInt (Qfloor u')) (u' - ofInt (Qfloor u')))
    by now rewrite Hu.
  rewrite (@fl32_compat (v - ofInt (Qfloor v')) (v' - ofInt (Qfloor v')))
    by now rewrite Hv.
  reflexivity.
Qed.

(** At or below the low edge the grid coordinate is clamped to zero: the
    sum and the quotient are not positive, and rounding keeps the sign. *)
Lemma gridCoord_low_edge (w : t) (x half : Q) (n : Z) :
  (1 <= n)%Z -> 0 < cellSize_ w -> x <= - half -> gridCoord w x half n == 0.
Proof.
  intros Hn Hcs Hx. unfold gridCoord, ofInt. apply clampf_below.
  - apply fl32_nonpos. apply Qle_shift_div_r; [exact Hcs|].
    assert (H : fl32 (x + half) <= 0) by (apply fl32_nonpos; lra). lra.
  - apply fl32_nonneg. apply (@inject_Z_le_mono 0 (n - 1)). lia.
Qed.

(** X2.  At and beyond the low edges of the grid the edge value is held:
    two queries with [x <= -halfWm_], and the same [z], agree, and so do two
    queries with [z <= -halfZm_] and the same [x]. *)
Theorem heightAt_holds_edge_values (w : t) (x x' z z' : Q) :
  (1 <= imgW_ w)%Z -> (1 <= imgH_ w)%Z -> 0 < cellSize_ w ->
  (x <= - halfWm_ w -> x' <= - halfWm_ w -> heightAt w x z == heightAt w x' z)
  /\ (z <= - halfZm_ w -> z' <= - halfZm_ w -> heightAt w x z == heightAt w x z').
Proof.
  intros HW HH Hcs. split; intros H1 H2.
  - rewrite (@heightAt_by_coordinates w x x' z z); [reflexivity| |reflexivity].
    now rewrite !gridCoord_low_edge.
  - rewrite (@heightAt_by_coordinates w x x z z'); [reflexivity|reflexivity|].
    now rewrite !gridCoord_low_edge.
Qed.

Lemma heightAt_holds_edge_values_witness :
  heightAt grid32 (-4) (1 # 7) == heightAt grid32 (-9) (1 # 7).
Proof.
  refine (proj1 (@heightAt_holds_edge_values grid32 (-4) (-9) (1 # 7) (1 # 7)
                   _ _ _) _ _); vm_compute; try reflexivity; discriminate.
Defined.

(** X3.  A height field loaded from an 8-bit image stores one sample per
    pixel: the [float] product of the height scale and the gray level of
    the pixel, which is the [float] quotient of the pixel by 255.  With a
    height scale that is a [float] and not negative, every stored sample
    lies between zero and the height scale. *)
Theorem FromHeightMap_heights (im : image) (cellSize heightScale : Q) :
  Forall (fun g => (0 <= g <= 255)%Z) (pixels im) ->
  0 <= heightScale -> fl32 heightScale == heightScale ->
  let w := FromHeightMap (Some im) cellSize heightScale in
  length (heights_ w) = (Z.to_nat (wpx im) * Z.to_nat (hpx im))%nat
  /\ imgW_ w = wpx im /\ imgH_ w = hpx im /\ cellSize_ w = cellSize
  /\ (forall i j, (0 <= i < wpx im)%Z -> (0 <= j < hpx im)%Z ->
        sample w (idx w i j)
        = fl32 (fl32 (ofInt (nth (Z.to_nat (j * wpx im + i)) (pixels im) 0%Z)
                      / 255)
                * heightScale)
        /\ 0 <= sample w (idx w i j) /\ sample w (idx w i j) <= heightScale).
Proof.
  intros Hpix Hs Hf. cbv zeta.
  split; [|split; [reflexivity|split; [reflexivity|split; [reflexivity|]]]].
  - unfold FromHeightMap. cbn [heights_].
    rewrite flat_map_constant_length with (c := Z.to_nat (wpx im)).
    + rewrite length_seq. lia.
    + intros j _. now rewrite length_map, length_seq.
  - intros i j Hi Hj.
    rewrite (@FromHeightMap_sample im cellSize heightScale i j Hi Hj).
    split; [reflexivity|].
    assert (Hg : (0 <= nth (Z.to_nat (j * wpx im + i)) (pixels im) 0 <= 255)%Z).
    { destruct (nth_in_or_default (Z.to_nat (j * wpx im + i)) (pixels im) 0%Z)
        as [Hin|Hd]; [|rewrite Hd; lia].
      rewrite Forall_forall in Hpix. now apply Hpix. }
    set (g := nth _ (pixels im) 0%Z) in *.
    assert (Eg : ofInt g == inject_Z g) by (apply ofInt_exact; lia).
    assert (G0 : 0 <= inject_Z g) by (change 0 with (inject_Z 0); rewrite <- Zle_Qle; lia).
    assert (G1 : inject_Z g <= 255) by (change 255 with (inject_Z 255); rewrite <- Zle_Qle; lia).
    assert (Q0 : 0 <= ofInt g / 255).
    { apply Qle_shift_div_l; [reflexivity|]. lra. }
    assert (Q1 : ofInt g / 255 <= 1).
    { apply Qle_shift_div_r; [reflexivity|]. lra. }
    pose proof (fl32_nonneg Q0) as K0.
    assert (K1 : fl32 (ofInt g / 255) <= 1).
    { apply fl32_at_most; [exact Q0|exact Q1|]. now rewrite fl32_one. }
    set (gray := fl32 (ofInt g / 255)) in *. clearbody gray.
    assert (P0 : 0 <= gray * heightScale) by (apply Qmult_le_0_compat; lra).
    assert (P1 : gray * heightScale <= heightScale).
    { setoid_replace heightScale with (1 * heightScale) at 2 by ring.
      apply Qmult_le_compat_r; lra. }
    split; [now apply fl32_nonneg|now apply fl32_at_most].
Qed.

Lemma FromHeightMap_heights_witness :
  length (heights_ grid32) = 6%nat
  /\ 0 <= sample grid32 (idx grid32 2 1) /\ sample grid32 (idx grid32 2 1) <= 5.
Proof.
  destruct (@FromHeightMap_heights
              (mkImage [0; 51; 102; 153; 204; 255]%Z 3 2) (1 # 2) 5)
    as (H1 & _ & _ & _ & H5).
  - repeat constructor; lia.
  - discriminate.
  - vm_compute. reflexivity.
  - split; [exact H1|].
    apply (H5 2%Z 1%Z); simpl; lia.
Defined.

End HeightFieldMore.

(** ** Meshes *)

Section Meshes.
Import World Mesh.

Lemma In_upto (n k : Z) : In k (upto n) <-> (0 <= k < n)%Z.
Proof.
  unfold upto. rewrite in_map_iff. split.
  - intros (m & <- & Hm). apply in_seq in Hm. lia.
  - intros H. exists (Z.to_nat k). split; [lia|]. apply in_seq. lia.
Qed.

Lemma length_upto (n : Z) : length (upto n) = Z.to_nat n.
Proof. unfold upto. now rewrite length_map, length_seq. Qed.

Lemma length_grid {A : Type} (cell : Z -> Z -> A) (w h : Z) :
  length (flat_map (fun j => map (fun i => cell i j) (upto w)) (upto h))
  = (Z.to_nat h * Z.to_nat w)%nat.
Proof.
  rewrite flat_map_constant_length with (c := Z.to_nat w).
  - now rewrite length_upto.
  - intros j _. now rewrite length_map, length_upto.
Qed.

Lemma length_cells {A : Type} (cell : Z -> Z -> list A) (w h : Z) (c : nat) :
  (forall i j, length (cell i j) = c) ->
  length (flat_map (fun j => flat_map (fun i => cell i j) (upto w)) (upto h))
  = (Z.to_nat h * (Z.to_nat w * c))%nat.
Proof.
  intros Hc. rewrite flat_map_constant_length with (c := (Z.to_nat w * c)%nat).
  - now rewrite length_upto.
  - intros j _. rewrite flat_map_constant_length with (c := c).
    + now rewrite length_upto.
    + intros i _. apply Hc.
Qed.

Lemma flat_map_of_map {A B C : Type} (f : B -> list C) (g : A -> B) (l : list A) :
  flat_map f (map g l) = flat_map (fun x => f (g x)) l.
Proof. induction l as [|x l IH]; simpl; [reflexivity|]. now rewrite IH. Qed.

Lemma nth_grid {A : Type} (cell : Z -> Z -> A) (w h i j : Z) (d : A) :
  (0 <= i < w)%Z -> (0 <= j < h)%Z ->
  nth (Z.to_nat (j * w + i))
      (flat_map (fun j => map (fun i => cell i j) (upto w)) (upto h)) d
  = cell i j.
Proof.
  intros Hi Hj. unfold upto at 2. rewrite flat_map_of_map.
  replace (Z.to_nat (j * w + i))
    with (Z.to_nat j * Z.to_nat w + Z.to_nat i)%nat by nia.
  rewrite nth_rows with (w := Z.to_nat w); try lia.
  - rewrite Nat.add_0_l, Z2Nat.id by lia. unfold upto.
    rewrite map_map.
    rewrite (nth_indep _ d (cell (Z.of_nat 0) j))
      by (rewrite length_map, length_seq; lia).
    rewrite (map_nth (fun x => cell (Z.of_nat x) j)), seq_nth by lia.
    simpl. now rewrite Z2Nat.id by lia.
  - intros k. now rewrite length_map, length_upto.
Qed.

(** X4.  For a grid size whose vertex count fits an [int], the flat ground
    mesh has [(n + 1)^2] vertices, all at height zero with the up normal,
    and six indices per cell; every index addresses a vertex of the mesh. *)
Theorem makeGround_mesh (n : Z) (size : Q) :
  (Z.abs (n + 1) <= 46340)%Z ->
  let vertices := fst (makeGround n size) in
  let indices := snd (makeGround n size) in
  length vertices = (Z.to_nat (n + 1) * Z.to_nat (n + 1))%nat
  /\ length indices = (6 * (Z.to_nat n * Z.to_nat n))%nat
  /\ Forall (fun v => vy (vposition v) = 0 /\ vnormal v = vup) vertices
  /\ Forall (fun k => (0 <= k)%Z /\ (Z.to_nat k < length vertices)%nat) indices.
Proof.
  intros _. cbv zeta. unfold makeGround. cbn [fst snd].
  assert (Hlen : length
            (flat_map (fun z =>
               map (fun x =>
                      mkVertex (mkVec3 (inject_Z x * size - inject_Z n * size / 2) 0
                                  (inject_Z z * size - inject_Z n * size / 2))
                         vup (inject_Z x / inject_Z n) (inject_Z z / inject_Z n))
                   (upto (n + 1))) (upto (n + 1)))
          = (Z.to_nat (n + 1) * Z.to_nat (n + 1))%nat)
    by apply length_grid.
  split; [exact Hlen|]. split; [|split].
  - rewrite length_cells with (c := 6%nat); [lia|reflexivity].
  - apply Forall_forall. intros v Hv.
    apply in_flat_map in Hv. destruct Hv as (z & _ & Hv).
    apply in_map_iff in Hv. destruct Hv as (x & <- & _). now split.
  - rewrite Hlen. apply Forall_forall. intros k Hk.
    apply in_flat_map in Hk. destruct Hk as (z & Hz & Hk).
    apply in_flat_map in Hk. destruct Hk as (x & Hx & Hk).
    apply In_upto in Hz. apply In_upto in Hx.
    assert (Hb : (0 <= k < (n + 1) * (n + 1))%Z).
    { simpl in Hk. repeat (destruct Hk as [<-|Hk]; [nia|]). contradiction. }
    split; [lia|]. nia.
Qed.

Lemma makeGround_mesh_witness :
  length (fst (makeGround 2 1)) = 9%nat
  /\ length (snd (makeGround 2 1)) = 24%nat.
Proof.
  pose proof (@makeGround_mesh 2 1 ltac:(discriminate)) as H.
  exact (conj (proj1 H) (proj1 (proj2 H))).
Defined.

(** X5.  The mesh built from a height field has one vertex per sample and
    six indices per quad, and every index addresses a vertex.  The vertex of
    sample [(i, j)] sits at index [j * width + i]; its height is the stored
    sample, the value the collision terrain interpolates, and its horizontal
    position is the vertex coordinate of column [i] and row [j]. *)
Theorem heightMapMesh_on_height_field (M : Libm) (w : World.t) :
  (2 <= imgW_ w)%Z -> (2 <= imgH_ w)%Z ->
  let vertices := fst (heightMapMesh M w) in
  let indices := snd (heightMapMesh M w) in
  length vertices = (Z.to_nat (imgH_ w) * Z.to_nat (imgW_ w))%nat
  /\ length indices
     = (6 * (Z.to_nat (imgH_ w - 1) * Z.to_nat (imgW_ w - 1)))%nat
  /\ Forall (fun k => (0 <= k)%Z /\ (Z.to_nat k < length vertices)%nat) indices
  /\ (forall i j d, (0 <= i < imgW_ w)%Z -> (0 <= j < imgH_ w)%Z ->
        vposition (nth (Z.to_nat (idx w i j)) vertices d)
        = mkVec3 (vertexX w i) (sample w (idx w i j)) (vertexZ w j)).
Proof.
  intros HW HH. cbv zeta. unfold heightMapMesh. cbn [fst snd].
  set (cell := fun i j : Z =>
         mkVertex
           (mkVec3 (vertexX w i) (Hval w i j) (vertexZ w j))
           (vnormalize M
              (mkVec3 (- ((Hval w (i + 1) j - Hval w (i - 1) j) / (2 * cellSize_ w)))
                      1
                      (- ((Hval w i (j + 1) - Hval w i (j - 1)) / (2 * cellSize_ w)))))
           (inject_Z i / inject_Z (imgW_ w - 1))
           (inject_Z j / inject_Z (imgH_ w - 1))).
  change (flat_map _ (upto (imgH_ w)))
    with (flat_map (fun j => map (fun i => cell i j) (upto (imgW_ w))) (upto (imgH_ w))).
  rewrite length_grid.
  split; [reflexivity|]. split; [|split].
  - rewrite length_cells with (c := 6%nat); [lia|reflexivity].
  - apply Forall_forall. intros k Hk.
    apply in_flat_map in Hk. destruct Hk as (j & Hj & Hk).
    apply in_flat_map in Hk. destruct Hk as (i & Hi & Hk).
    apply In_upto in Hj. apply In_upto in Hi.
    assert (Hb : (0 <= k < imgH_ w * imgW_ w)%Z).
    { simpl in Hk. repeat (destruct Hk as [<-|Hk]; [nia|]). contradiction. }
    split; [lia|]. nia.
  - intros i j d Hi Hj. unfold idx. rewrite nth_grid by assumption.
    unfold cell. cbn [vposition]. unfold Hval.
    now rewrite !clampi_inside by lia.
Qed.

Lemma heightMapMesh_on_height_field_witness :
  length (fst (heightMapMesh libm_rational grid32)) = 6%nat
  /\ length (snd (heightMapMesh libm_rational grid32)) = 12%nat.
Proof.
  destruct (@heightMapMesh_on_height_field libm_rational grid32
              ltac:(simpl; lia) ltac:(simpl; lia))
    as (H1 & H2 & _).
  split; [exact H1|exact H2].
Defined.

End Meshes.

(** ** Wandering on terrain and around obstacles *)

Section CreatureMore.
Import Pokemon.

Lemma countDown_position M dt r p :
  position_ (fst (countDown M dt r p)) = position_ p
  /\ radius_ (fst (countDown M dt r p)) = radius_ p.
Proof. unfold countDown. destruct (Qleb _ 0); split; reflexivity. Qed.

Lemma faceMovement_position M oldPos p :
  position_ (faceMovement M oldPos p) = position_ p
  /\ state_ (faceMovement M oldPos p) = state_ p.
Proof. unfold faceMovement. destruct (Qltb _ _); split; reflexivity. Qed.

Lemma followTerrain_position world p :
  vx (position_ (followTerrain world p)) = vx (position_ p)
  /\ vz (position_ (followTerrain world p)) = vz (position_ p)
  /\ match world with
     | Some w =>
         vy (position_ (followTerrain world p))
         = World.heightAt w (vx (position_ p)) (vz (position_ p))
     | None => vy (position_ (followTerrain world p)) = vy (position_ p)
     end.
Proof. destruct world; repeat split. Qed.

(** The position a wandering update ends with is the one the terrain
    block leaves. *)
Lemma update_wander_position (M : Libm) (dt : Q) (world : option World.t)
    (obstacles : list vec3) (r : Rng) (p : Pokemon) :
  state_ p = Idle \/ state_ p = Walking ->
  position_ (fst (update M dt world obstacles r p))
  = position_ (followTerrain world (fst (moveOrTurn M dt obstacles r p))).
Proof.
  intros Hs. unfold update.
  destruct Hs as [Hs|Hs]; rewrite Hs;
    destruct (moveOrTurn M dt obstacles r p) as [p1 r1]; cbn [fst];
    pose proof (countDown_position M dt r1 (followTerrain world p1)) as [Hc _];
    destruct (countDown M dt r1 (followTerrain world p1)) as [p3 r3];
    cbn [fst] in *;
    now rewrite (proj1 (faceMovement_position M (position_ p) p3)).
Qed.

(** X6.  A wandering creature rides the surface: after every update with a
    world, its height is the terrain height at its horizontal position. *)
Theorem update_rides_terrain (M : Libm) (dt : Q) (w : World.t)
    (obstacles : list vec3) (r : Rng) (p : Pokemon) :
  state_ p = Idle \/ state_ p = Walking ->
  let q := fst (update M dt (Some w) obstacles r p) in
  vy (position_ q) = World.heightAt w (vx (position_ q)) (vz (position_ q)).
Proof.
  intros Hs. cbv zeta. rewrite update_wander_position by exact Hs.
  reflexivity.
Qed.

Lemma update_rides_terrain_witness :
  vy (position_ (fst (update libm_rational (1 # 60) (Some grid32) [] rng0 wild0)))
  = World.heightAt grid32
      (vx (position_ (fst (update libm_rational (1 # 60) (Some grid32) [] rng0 wild0))))
      (vz (position_ (fst (update libm_rational (1 # 60) (Some grid32) [] rng0 wild0)))).
Proof.
  apply (@update_rides_terrain libm_rational (1 # 60) grid32 [] rng0 wild0).
  right. reflexivity.
Defined.

Lemma nearObstacle_horizontal M p a b o :
  vx a = vx b -> vz a = vz b -> nearObstacle M p a o = nearObstacle M p b o.
Proof. intros Hx Hz. unfold nearObstacle. now rewrite Hx, Hz. Qed.

Lemma existsb_same {A : Type} (f g : A -> bool) (l : list A) :
  (forall x, f x = g x) -> existsb f l = existsb g l.
Proof. intros H. induction l as [|x l IH]; simpl; [reflexivity|]. now rewrite H, IH. Qed.

(** X7.  A wandering creature never steps next to an obstacle.  Either the
    candidate position is clear of every obstacle centre and the creature
    moves there horizontally, or it is not, and the creature keeps its
    horizontal position and turns: it is [Walking] afterwards. *)
Theorem update_avoids_obstacles (M : Libm) (dt : Q) (world : option World.t)
    (obstacles : list vec3) (r : Rng) (p : Pokemon) :
  state_ p = Idle \/ state_ p = Walking ->
  let q := fst (update M dt world obstacles r p) in
  let nextPos := vadd (position_ p) (vscale (velocity_ p) dt) in
  (existsb (nearObstacle M p nextPos) obstacles = false
   /\ vx (position_ q) = vx nextPos /\ vz (position_ q) = vz nextPos
   /\ existsb (nearObstacle M q (position_ q)) obstacles = false)
  \/ (existsb (nearObstacle M p nextPos) obstacles = true
      /\ vx (position_ q) = vx (position_ p)
      /\ vz (position_ q) = vz (position_ p)
      /\ state_ q = Walking).
Proof.
  intros Hs. cbv zeta.
  pose proof (@update_wander_position M dt world obstacles r p Hs) as Hpos.
  destruct (followTerrain_position world (fst (moveOrTurn M dt obstacles r p)))
    as (Hx & Hz & _).
  rewrite <- Hpos in Hx, Hz.
  destruct (existsb (nearObstacle M p (vadd (position_ p) (vscale (velocity_ p) dt)))
              obstacles) eqn:E; [right|left].
  - split; [reflexivity|].
    unfold moveOrTurn in Hx, Hz. rewrite E in Hx, Hz. cbn in Hx, Hz.
    split; [exact Hx|]. split; [exact Hz|].
    unfold update.
    destruct Hs as [Hs|Hs]; rewrite Hs; unfold moveOrTurn; rewrite E;
      cbn [pickNewWanderDirection randomFloat fst snd];
      match goal with
      | |- context [countDown M dt ?r1 ?p2] =>
          pose proof (countDown_wanders M dt r1 p2) as [_ Hw];
          destruct (countDown M dt r1 p2) as [p3 r3]
      end;
      cbn [fst] in *;
      rewrite (proj2 (faceMovement_position _ _ p3));
      destruct world; cbn in Hw; destruct Hw as [Hw|Hw]; exact Hw.
  - split; [reflexivity|].
    unfold moveOrTurn in Hx, Hz. rewrite E in Hx, Hz. cbn [fst setPosition position_] in Hx, Hz.
    split; [exact Hx|]. split; [exact Hz|].
    rewrite <- E. apply existsb_same. intros o.
    unfold nearObstacle. rewrite Hx, Hz.
    assert (Hr : radius_ (fst (update M dt world obstacles r p)) = radius_ p).
    { unfold update.
      destruct Hs as [Hs|Hs]; rewrite Hs; unfold moveOrTurn; rewrite E;
        match goal with
        | |- context [countDown M dt ?r1 ?p2] =>
            pose proof (countDown_position M dt r1 p2) as [_ Hc];
            destruct (countDown M dt r1 p2) as [p3 r3]
        end;
        cbn [fst] in *; unfold faceMovement; destruct (Qltb _ _);
        cbn [radius_]; rewrite Hc; now destruct world. }
    now rewrite Hr.
Qed.

Lemma update_avoids_obstacles_witness :
  vx (position_ (fst (update libm_rational (1 # 60) None [mkVec3 3 0 4] rng0 wild0)))
  = vx (position_ wild0)
  /\ state_ (fst (update libm_rational (1 # 60) None [mkVec3 3 0 4] rng0 wild0))
     = Walking.
Proof.
  destruct (@update_avoids_obstacles libm_rational (1 # 60) None [mkVec3 3 0 4]
              rng0 wild0 (or_intror eq_refl))
    as [(E & _)|(_ & Hx & _ & Hs)].
  - vm_compute in E. discriminate E.
  - split; [exact Hx|exact Hs].
Defined.

End CreatureMore.

(** ** Inventory round trips *)

Section InventoryMore.
Import Pokemon Controller.

(** A successful send-out is undone by the recall of the same slot. *)
Lemma sendOut_recall (c c1 : PokemonController) (index : nat) (p : vec3) :
  sendOutPokemon index p c = (true, c1) -> recallPokemon index c1 = (true, c).
Proof.
  unfold sendOutPokemon. intros H.
  destruct (nth_error (inventory_ c) index) as [entry|] eqn:En; [|discriminate].
  destruct (hasAnyPokemonOut c) eqn:Ea; [discriminate|].
  destruct (isPokemonOut index c); [discriminate|].
  injection H as <-.
  unfold hasAnyPokemonOut in Ea.
  destruct c as [ps inv out next]. cbn [outPokemonIndices_] in Ea.
  destruct out; [|discriminate]. cbn [pokemon_ inventory_ outPokemonIndices_
    nextPokemonId_ app] in *.
  unfold recallPokemon. cbn [pokemon_ inventory_ outPokemonIndices_ nextPokemonId_].
  rewrite En. cbn [eraseFirst]. rewrite Nat.eqb_refl.
  unfold eraseLast. rewrite rev_app_distr. cbn [rev app eraseFirst].
  unfold isOwnedPokemon, isOwned.
  cbn [outPokemonIndices_ inventory_ existsb id_ setVisible setState setPosition].
  rewrite En, Z.eqb_refl. cbn [orb andb]. now rewrite rev_involutive.
Qed.

(** X8.  Recall undoes send-out: after a successful [sendOutPokemon],
    recalling the same slot succeeds and gives back the controller as it was
    before, roster included. *)
Theorem sendOutPokemon_then_recall (c c1 : PokemonController) (index : nat) (p : vec3) :
  sendOutPokemon index p c = (true, c1) -> recallPokemon index c1 = (true, c).
Proof. apply sendOut_recall. Qed.

Lemma sendOutPokemon_then_recall_witness :
  recallPokemon 0 ctl_slot0_out = (true, mkController [] [captive; captive] [] 1).
Proof.
  apply (@sendOutPokemon_then_recall (mkController [] [captive; captive] [] 1)
           ctl_slot0_out 0 (mkVec3 1 0 1)).
  reflexivity.
Defined.

Lemma existsb_same_on {A : Type} (f g : A -> bool) (l : list A) :
  (forall x, In x l -> f x = g x) -> existsb f l = existsb g l.
Proof.
  induction l as [|x l IH]; intros H; simpl; [reflexivity|].
  rewrite H by now left. rewrite IH; [reflexivity|]. intros y Hy. apply H. now right.
Qed.

Lemma isOwned_extend (out : list nat) (inv more : list Pokemon) (p : Pokemon) :
  Forall (fun i => (i < length inv)%nat) out ->
  isOwned out (inv ++ more) p = isOwned out inv p.
Proof.
  intros Hv. unfold isOwned. destruct out as [|o out]; [reflexivity|].
  apply existsb_same_on. intros i Hi.
  rewrite Forall_forall in Hv. specialize (Hv i Hi).
  now rewrite nth_error_app1.
Qed.

Lemma promoteEach_partition (out : list nat) (ps : list Pokemon) :
  forall inv,
    Forall (fun i => (i < length inv)%nat) out ->
    promoteEach out ps inv
    = (filter (fun p => negb (promotable out inv p)) ps,
       inv ++ filter (promotable out inv) ps).
Proof.
  induction ps as [|p ps IH]; intros inv Hv; simpl.
  - now rewrite app_nil_r.
  - change (isCaptured p && negb (visible_ p) && negb (isOwned out inv p))
      with (promotable out inv p).
    destruct (promotable out inv p) eqn:E; cbn [negb].
    + rewrite IH.
      * rewrite <- app_assoc. cbn [app]. f_equal.
        -- apply filter_ext. intros q. unfold promotable.
           now rewrite isOwned_extend.
        -- f_equal. f_equal. apply filter_ext. intros q. unfold promotable.
           now rewrite isOwned_extend.
      * eapply Forall_impl; [|exact Hv]. intros i Hi. cbv beta in *. rewrite length_app. simpl. lia.
    + now rewrite IH.
Qed.

Lemma filter_twice {A : Type} (f : A -> bool) (l : list A) :
  filter f (filter f l) = filter f l.
Proof.
  induction l as [|x l IH]; simpl; [reflexivity|].
  destruct (f x) eqn:E; simpl; [rewrite E; now f_equal|exact IH].
Qed.

Lemma filter_none {A : Type} (f : A -> bool) (l : list A) :
  filter f (filter (fun x => negb (f x)) l) = [].
Proof.
  induction l as [|x l IH]; simpl; [reflexivity|].
  destruct (f x) eqn:E; simpl; [exact IH|now rewrite E].
Qed.

(** X9.  With every active slot a valid slot, [updateInventory] splits the
    roster: the creatures that are captured, hidden and not a sent-out copy
    go to the end of the inventory in roster order, the others stay in
    order; nothing is lost or duplicated, and a second call changes
    nothing. *)
Theorem updateInventory_partition (c : PokemonController) :
  Forall (fun i => (i < length (inventory_ c))%nat) (outPokemonIndices_ c) ->
  let moves := promotable (outPokemonIndices_ c) (inventory_ c) in
  updateInventory c
  = mkController (filter (fun p => negb (moves p)) (pokemon_ c))
                 (inventory_ c ++ filter moves (pokemon_ c))
                 (outPokemonIndices_ c) (nextPokemonId_ c)
  /\ (length (pokemon_ (updateInventory c)) + length (inventory_ (updateInventory c))
      = length (pokemon_ c) + length (inventory_ c))%nat
  /\ updateInventory (updateInventory c) = updateInventory c.
Proof.
  intros Hv. cbv zeta.
  assert (E : updateInventory c
              = mkController
                  (filter (fun p => negb (promotable (outPokemonIndices_ c)
                                            (inventory_ c) p)) (pokemon_ c))
                  (inventory_ c ++ filter (promotable (outPokemonIndices_ c)
                                             (inventory_ c)) (pokemon_ c))
                  (outPokemonIndices_ c) (nextPokemonId_ c)).
  { unfold updateInventory. now rewrite promoteEach_partition. }
  split; [exact E|]. split.
  - rewrite E. cbn [pokemon_ inventory_]. rewrite length_app.
    pose proof (filter_length (promotable (outPokemonIndices_ c) (inventory_ c))
                  (pokemon_ c)) as Hl.
    lia.
  - rewrite E. unfold updateInventory.
    cbn [pokemon_ inventory_ outPokemonIndices_ nextPokemonId_].
    rewrite promoteEach_partition.
    + set (moves := promotable (outPokemonIndices_ c) (inventory_ c)).
      assert (Hm : forall q,
                 promotable (outPokemonIndices_ c)
                   (inventory_ c ++ filter moves (pokemon_ c)) q = moves q).
      { intros q. unfold moves, promotable. now rewrite isOwned_extend. }
      f_equal.
      * rewrite (filter_ext
                   (fun q => negb (promotable (outPokemonIndices_ c)
                                     (inventory_ c ++ filter moves (pokemon_ c)) q))
                   (fun q => negb (moves q)))
          by (intros q; now rewrite Hm).
        apply filter_twice.
      * rewrite (filter_ext
                   (promotable (outPokemonIndices_ c)
                      (inventory_ c ++ filter moves (pokemon_ c)))
                   moves Hm).
        rewrite filter_none. apply app_nil_r.
    + eapply Forall_impl; [|exact Hv]. intros i Hi. cbv beta in *. rewrite length_app. lia.
Qed.

Lemma updateInventory_partition_witness :
  updateInventory (mkController [captive; wild0] [] [] 1)
  = mkController [wild0] [captive] [] 1.
Proof.
  exact (proj1 (@updateInventory_partition (mkController [captive; wild0] [] [] 1)
                  (Forall_nil _))).
Defined.


End InventoryMore.

(** ** Creature identities *)

Section Identities.
Import Pokemon Controller App.

Lemma isOwned_true (out : list nat) (inv : list Pokemon) (p : Pokemon) :
  isOwned out inv p = true
  <-> exists i entry, In i out /\ nth_error inv i = Some entry /\ id_ p = id_ entry.
Proof.
  unfold isOwned. split.
  - destruct out as [|o out]; [discriminate|].
    intros H. apply existsb_exists in H. destruct H as (i & Hi & H).
    destruct (nth_error inv i) as [entry|] eqn:E; [|discriminate].
    exists i, entry. repeat split; auto. now apply Z.eqb_eq.
  - intros (i & entry & Hi & E & Hid).
    destruct out as [|o out]; [contradiction|].
    apply existsb_exists. exists i. split; [exact Hi|].
    rewrite E. now apply Z.eqb_eq.
Qed.

Lemma isOwned_by_id (out : list nat) (inv : list Pokemon) (p q : Pokemon) :
  id_ p = id_ q -> isOwned out inv p = isOwned out inv q.
Proof.
  intros H. unfold isOwned. destruct out; [reflexivity|].
  apply existsb_same. intros i. now rewrite H.
Qed.

Lemma NoDup_map_filter {A B : Type} (f : A -> B) (g : A -> bool) (l : list A) :
  NoDup (map f l) -> NoDup (map f (filter g l)).
Proof.
  induction l as [|x l IH]; simpl; intros H; [constructor|].
  inversion H as [|? ? Hn Hd]; subst.
  destruct (g x); [|now apply IH]. simpl. constructor; [|now apply IH].
  intros Hin. apply Hn. apply in_map_iff in Hin. destruct Hin as (y & Hy & Hin).
  apply filter_In in Hin. apply in_map_iff. exists y. tauto.
Qed.

Lemma NoDup_map_same {A B : Type} (f : A -> B) (l : list A) (x y : A) :
  NoDup (map f l) -> In x l -> In y l -> f x = f y -> x = y.
Proof.
  induction l as [|z l IH]; simpl; intros H Hx Hy E; [contradiction|].
  inversion H as [|? ? Hn Hd]; subst.
  destruct Hx as [->|Hx]; destruct Hy as [->|Hy]; auto.
  - exfalso. apply Hn. rewrite E. now apply in_map.
  - exfalso. apply Hn. rewrite <- E. now apply in_map.
Qed.

Lemma eraseFirst_split {A : Type} (f : A -> bool) (l r : list A) :
  eraseFirst f l = Some r ->
  exists l1 x l2, l = l1 ++ x :: l2 /\ r = l1 ++ l2 /\ f x = true.
Proof.
  revert r. induction l as [|y l IH]; intros r H; simpl in H; [discriminate|].
  destruct (f y) eqn:E.
  - injection H as <-. exists [], y, l. auto.
  - destruct (eraseFirst f l) as [r'|]; [|discriminate]. injection H as <-.
    destruct (IH r' eq_refl) as (l1 & x & l2 & -> & -> & Hx).
    exists (y :: l1), x, l2. auto.
Qed.

Lemma eraseLast_split {A : Type} (f : A -> bool) (l r : list A) :
  eraseLast f l = Some r ->
  exists l1 x l2, l = l1 ++ x :: l2 /\ r = l1 ++ l2 /\ f x = true.
Proof.
  unfold eraseLast. intros H.
  destruct (eraseFirst f (rev l)) as [r'|] eqn:E; [|discriminate].
  injection H as <-.
  destruct (eraseFirst_split _ _ E) as (l1 & x & l2 & Hl & -> & Hx).
  exists (rev l2), x, (rev l1). repeat split; auto.
  - rewrite <- (rev_involutive l), Hl, rev_app_distr. simpl.
    now rewrite <- app_assoc.
  - now rewrite rev_app_distr.
Qed.

(** The roster enters [ids_consistent] through its ids only. *)
Lemma ids_consistent_roster (c : PokemonController) (ps : list Pokemon) :
  map id_ ps = map id_ (pokemon_ c) ->
  ids_consistent c -> ids_consistent (set_pokemon ps c).
Proof.
  intros E (H1 & H2 & H3 & H4 & H5 & H6).
  assert (Hin : forall p, In p ps -> exists q, In q (pokemon_ c) /\ id_ q = id_ p).
  { intros p Hp. apply (in_map id_) in Hp. rewrite E in Hp.
    apply in_map_iff in Hp. destruct Hp as (q & Hq & Hq'). eauto. }
  unfold ids_consistent, set_pokemon, isOwnedPokemon.
  cbn [pokemon_ inventory_ outPokemonIndices_ nextPokemonId_].
  rewrite E. repeat split; auto.
  - intros p [Hp|Hp]; [|now apply H3; right].
    destruct (Hin p Hp) as (q & Hq & <-). apply H3. now left.
  - intros p Hp Hi. destruct (Hin p Hp) as (q & Hq & Hid).
    rewrite <- (isOwned_by_id _ _ _ _ Hid). apply (H4 q Hq). now rewrite Hid.
Qed.

Lemma ids_consistent_spawn (M : Libm) (r : Rng) (species : option PokemonSpecies)
    (p : vec3) (speed rad : Q) (c : PokemonController) :
  ids_consistent c ->
  ids_consistent (fst (spawnPokemon M r species p speed rad 0 c)).
Proof.
  intros (H1 & H2 & H3 & H4 & H5 & H6).
  unfold spawnPokemon, create, pickNewWanderDirection. cbn.
  set (q := mkPokemon (nextPokemonId_ c) _ _ _ _ _ _ _ _ _ _ _).
  assert (Hfresh : forall x, In x (pokemon_ c) \/ In x (inventory_ c) ->
                             id_ x <> nextPokemonId_ c).
  { intros x Hx. specialize (H3 x Hx). lia. }
  unfold ids_consistent, isOwnedPokemon.
  cbn [pokemon_ inventory_ outPokemonIndices_ nextPokemonId_].
  rewrite map_app. cbn [map]. repeat split; auto.
  - apply NoDup_app; auto.
    + constructor; [intros []|constructor].
    + intros a Ha [<-|[]]. apply in_map_iff in Ha. destruct Ha as (x & Hx & Hin).
      apply (Hfresh x); [now left|exact Hx].
  - intros x [Hx|Hx].
    + apply in_app_or in Hx. destruct Hx as [Hx|[<-|[]]].
      * specialize (H3 x (or_introl Hx)). lia.
      * simpl. lia.
    + specialize (H3 x (or_intror Hx)). lia.
  - intros x Hx Hi. apply in_app_or in Hx. destruct Hx as [Hx|[<-|[]]].
    + now apply H4.
    + exfalso. apply in_map_iff in Hi. destruct Hi as (y & Hy & Hin).
      apply (Hfresh y); [now right|exact Hy].
  - intros i Hi. destruct (H5 i Hi) as (entry & E & Hin).
    exists entry. split; [exact E|]. apply in_or_app. now left.
Qed.

Lemma ids_consistent_valid (c : PokemonController) :
  ids_consistent c ->
  Forall (fun i => (i < length (inventory_ c))%nat) (outPokemonIndices_ c).
Proof.
  intros (_ & _ & _ & _ & H5 & _). apply Forall_forall. intros i Hi.
  destruct (H5 i Hi) as (entry & E & _). apply nth_error_Some. congruence.
Qed.

Lemma ids_consistent_updateInventory (c : PokemonController) :
  ids_consistent c -> ids_consistent (updateInventory c).
Proof.
  intros Hc. pose proof (ids_consistent_valid Hc) as Hv.
  destruct Hc as (H1 & H2 & H3 & H4 & H5 & H6).
  unfold updateInventory. rewrite promoteEach_partition by exact Hv.
  set (moves := promotable (outPokemonIndices_ c) (inventory_ c)).
  assert (Hmoved : forall q, In q (filter moves (pokemon_ c)) ->
             In q (pokemon_ c)
             /\ isOwned (outPokemonIndices_ c) (inventory_ c) q = false).
  { intros q Hq. apply filter_In in Hq. destruct Hq as [Hq Hm]. split; [exact Hq|].
    unfold moves, promotable in Hm. apply andb_prop in Hm. destruct Hm as [_ Hm].
    now apply negb_true_iff in Hm. }
  unfold ids_consistent, isOwnedPokemon.
  cbn [pokemon_ inventory_ outPokemonIndices_ nextPokemonId_].
  repeat split; auto.
  - rewrite map_app. apply NoDup_app; auto.
    + now apply NoDup_map_filter.
    + intros a Ha Hb. apply in_map_iff in Hb. destruct Hb as (q & <- & Hq).
      destruct (Hmoved q Hq) as [Hq1 Hq2].
      specialize (H4 q Hq1 Ha). unfold isOwnedPokemon in H4. congruence.
  - now apply NoDup_map_filter.
  - intros p [Hp|Hp].
    + apply filter_In in Hp. apply H3. now left.
    + apply in_app_or in Hp. destruct Hp as [Hp|Hp]; [apply H3; now right|].
      apply H3. left. now apply Hmoved.
  - intros p Hp Hi. apply filter_In in Hp. destruct Hp as [Hp Hm].
    rewrite isOwned_extend by exact Hv.
    rewrite map_app in Hi. apply in_app_or in Hi. destruct Hi as [Hi|Hi].
    + now apply H4.
    + exfalso. apply in_map_iff in Hi. destruct Hi as (q & Hid & Hq).
      apply filter_In in Hq. destruct Hq as [Hq Hmq].
      assert (q = p) by (eapply NoDup_map_same; eauto). subst q.
      rewrite Hmq in Hm. discriminate Hm.
  - intros i Hi. destruct (H5 i Hi) as (entry & E & Hin).
    exists entry. split.
    + rewrite nth_error_app1; [exact E|]. apply nth_error_Some. congruence.
    + apply in_map_iff in Hin. destruct Hin as (p & Hid & Hp).
      apply in_map_iff. exists p. split; [exact Hid|].
      apply filter_In. split; [exact Hp|].
      assert (Ho : isOwned (outPokemonIndices_ c) (inventory_ c) p = true).
      { apply isOwned_true. exists i, entry. auto. }
      unfold moves, promotable. rewrite Ho. cbn. now rewrite andb_false_r.
Qed.

Lemma ids_consistent_sendOut (index : nat) (p : vec3) (c : PokemonController) :
  ids_consistent c -> ids_consistent (snd (sendOutPokemon index p c)).
Proof.
  intros Hc. unfold sendOutPokemon.
  destruct (nth_error (inventory_ c) index) as [entry|] eqn:En; [|exact Hc].
  destruct (hasAnyPokemonOut c) eqn:Ea; [exact Hc|].
  destruct (isPokemonOut index c); [exact Hc|]. cbn [snd].
  destruct Hc as (H1 & H2 & H3 & H4 & H5 & H6).
  unfold hasAnyPokemonOut in Ea.
  destruct (outPokemonIndices_ c) as [|o out] eqn:Eo; [|discriminate].
  assert (Hwild : forall x, In x (pokemon_ c) ->
                            ~ In (id_ x) (map id_ (inventory_ c))).
  { intros x Hx Hi. specialize (H4 x Hx Hi).
    unfold isOwnedPokemon in H4. rewrite Eo in H4. discriminate H4. }
  assert (Hentry : In (id_ entry) (map id_ (inventory_ c))).
  { apply in_map. eapply nth_error_In; eauto. }
  unfold ids_consistent, isOwnedPokemon.
  cbn [pokemon_ inventory_ outPokemonIndices_ nextPokemonId_ app].
  rewrite map_app. cbn [map id_ setVisible setState setPosition].
  repeat split; auto.
  - apply NoDup_app; auto.
    + constructor; [intros []|constructor].
    + intros a Ha [<-|[]]. apply in_map_iff in Ha. destruct Ha as (x & Hx & Hin).
      apply (Hwild x Hin). now rewrite Hx.
  - intros x [Hx|Hx]; [|apply H3; now right].
    apply in_app_or in Hx. destruct Hx as [Hx|[<-|[]]]; [apply H3; now left|].
    cbn [id_ setVisible setState setPosition]. apply H3. right.
    eapply nth_error_In; eauto.
  - intros x Hx Hi. apply in_app_or in Hx. destruct Hx as [Hx|[<-|[]]].
    + now elim (Hwild x Hx).
    + apply isOwned_true. exists index, entry. repeat split; auto. now left.
  - intros i [<-|[]]. exists entry. split; [exact En|].
    apply in_or_app. right. now left.
Qed.

Lemma ids_consistent_recall (index : nat) (c : PokemonController) :
  ids_consistent c -> ids_consistent (snd (recallPokemon index c)).
Proof.
  intros Hc. unfold recallPokemon.
  destruct (nth_error (inventory_ c) index) as [entry|] eqn:En; [|exact Hc].
  destruct (eraseFirst (Nat.eqb index) (outPokemonIndices_ c)) as [out'|] eqn:Eo;
    [|exact Hc].
  destruct (eraseLast _ (pokemon_ c)) as [ps'|] eqn:Ep; [|exact Hc]. cbn [snd].
  destruct Hc as (H1 & H2 & H3 & H4 & H5 & H6).
  destruct (eraseFirst_split _ _ Eo) as (o1 & i & o2 & Hout & -> & Hi).
  apply Nat.eqb_eq in Hi. subst i.
  assert (o1 = [] /\ o2 = []) as [-> ->].
  { rewrite Hout, length_app in H6. simpl in H6.
    destruct o1; destruct o2; simpl in H6; try lia. auto. }
  cbn [app] in Hout.
  destruct (eraseLast_split _ _ Ep) as (l1 & x & l2 & Hps & -> & Hx).
  apply andb_prop in Hx. destruct Hx as [Hx _]. apply Z.eqb_eq in Hx.
  assert (Hnd : NoDup (map id_ (l1 ++ l2)) /\ ~ In (id_ x) (map id_ (l1 ++ l2))).
  { rewrite Hps in H2. rewrite map_app in H2. cbn [map] in H2.
    rewrite map_app. split;
      [eapply NoDup_remove_1|eapply NoDup_remove_2]; exact H2. }
  destruct Hnd as [Hnd Hnx].
  assert (Hsub : forall q, In q (l1 ++ l2) -> In q (pokemon_ c)).
  { intros q Hq. rewrite Hps. apply in_app_or in Hq. apply in_or_app.
    destruct Hq; [now left|right; now right]. }
  unfold ids_consistent, isOwnedPokemon.
  cbn [pokemon_ inventory_ outPokemonIndices_ nextPokemonId_].
  repeat split; auto.
  - intros q [Hq|Hq]; apply H3; [left; now apply Hsub|now right].
  - intros q Hq Hin. exfalso.
    specialize (H4 q (Hsub q Hq) Hin). unfold isOwnedPokemon in H4.
    apply isOwned_true in H4. destruct H4 as (i & e & Hi & He & Hid).
    rewrite Hout in Hi. destruct Hi as [<-|[]].
    rewrite En in He. injection He as <-.
    apply Hnx. rewrite Hx, <- Hid. now apply in_map.
  - intros i [].
Qed.

Lemma moveOrTurn_id M dt obstacles r p : id_ (fst (moveOrTurn M dt obstacles r p)) = id_ p.
Proof. unfold moveOrTurn. now destruct (existsb _ obstacles). Qed.

Lemma followTerrain_id world p : id_ (followTerrain world p) = id_ p.
Proof. now destruct world. Qed.

Lemma countDown_id M dt r p : id_ (fst (countDown M dt r p)) = id_ p.
Proof. unfold countDown. now destruct (Qleb _ 0). Qed.

Lemma faceMovement_id M oldPos p : id_ (faceMovement M oldPos p) = id_ p.
Proof. unfold faceMovement. now destruct (Qltb _ _). Qed.

Lemma update_id (M : Libm) (dt : Q) (world : option World.t)
    (obstacles : list vec3) (r : Rng) (p : Pokemon) :
  id_ (fst (update M dt world obstacles r p)) = id_ p.
Proof.
  assert (H : id_ (faceMovement M (position_ p)
                     (fst (countDown M dt (snd (moveOrTurn M dt obstacles r p))
                             (followTerrain world
                                (fst (moveOrTurn M dt obstacles r p))))))
              = id_ p).
  { now rewrite faceMovement_id, countDown_id, followTerrain_id, moveOrTurn_id. }
  unfold update. destruct (state_ p); try reflexivity;
    destruct (moveOrTurn M dt obstacles r p) as [p1 r1];
    destruct (countDown M dt r1 (followTerrain world p1)) as [p3 r3] eqn:E;
    cbn [fst snd] in H; rewrite E in H; exact H.
Qed.

Lemma updateEach_ids (M : Libm) (dt : Q) (world : option World.t)
    (obstacles : list vec3) (ps : list Pokemon) :
  forall r, map id_ (fst (updateEach M dt world obstacles r ps)) = map id_ ps.
Proof.
  induction ps as [|p ps IH]; intros r; simpl; [reflexivity|].
  pose proof (update_id M dt world obstacles r p) as Hp.
  destruct (update M dt world obstacles r p) as [p' r1].
  specialize (IH r1). destruct (updateEach M dt world obstacles r1 ps) as [ps' r2].
  simpl in *. now rewrite Hp, IH.
Qed.

Lemma resolveCapture_ids (M : Libm) (base : vec3) (success : bool) (ps : list Pokemon) :
  map id_ (resolveCapture M base success ps) = map id_ ps.
Proof.
  induction ps as [|p ps IH]; simpl; [reflexivity|].
  destruct (isCapturing p && Qltb _ 1).
  - simpl. f_equal. now destruct success.
  - simpl. now rewrite IH.
Qed.

Lemma captureEach_ids (out : list nat) (inv ps : list Pokemon) :
  forall balls r, map id_ (fst (fst (captureEach out inv ps balls r))) = map id_ ps.
Proof.
  intros balls r.
  destruct (captureEach out inv ps balls r) as [[ps' balls'] r'] eqn:E.
  destruct (captureEach_spec _ _ _ _ _ E) as (Hp & _). cbn [fst].
  clear E. induction Hp as [|q q' l l' Hq _ IH]; simpl; [reflexivity|].
  rewrite IH. f_equal. now destruct Hq as [->| ->].
Qed.

Lemma ballLoop_ids (M : Libm) (a : App) (dt : Q) (balls : list Pokeball) :
  forall c, exists ps',
    snd (ballLoop M a dt balls (Some c)) = Some (set_pokemon ps' c)
    /\ map id_ ps' = map id_ (pokemon_ c).
Proof.
  induction balls as [|b rest IH]; intros c; simpl.
  - exists (pokemon_ c). now rewrite set_pokemon_same.
  - assert (H : exists ps1, snd (ballStep M a dt b (Some c)) = Some (set_pokemon ps1 c)
                            /\ map id_ ps1 = map id_ (pokemon_ c)).
    { unfold ballStep.
      destruct (locked b);
        [|destruct (negb (active b)); exists (pokemon_ c);
          now rewrite set_pokemon_same].
      unfold lockedStep. cbn [snd].
      destruct (Qleb 1 _ && (MAX_SHAKES <=? _)%Z).
      - eexists. split; [reflexivity|]. apply resolveCapture_ids.
      - exists (pokemon_ c). now rewrite set_pokemon_same. }
    destruct H as (ps1 & E1 & Hid1).
    destruct (ballStep M a dt b (Some c)) as [b' ctl1]. simpl in E1. subst ctl1.
    destruct (IH (set_pokemon ps1 c)) as (ps2 & E2 & Hid2).
    destruct (ballLoop M a dt rest (Some (set_pokemon ps1 c))) as [rest' ctl2].
    simpl in *. exists ps2. split; [exact E2|]. congruence.
Qed.

(** Identities stay consistent along every run. *)
Lemma reachable_ids_consistent (M : Libm) (a : App) :
  reachable M a ->
  exists c, pokemonController_ a = Some c /\ ids_consistent c.
Proof.
  induction 1 as [world props r ticks|a op _ (c & Ec & Hc)].
  - exists Controller.empty. split; [reflexivity|].
    unfold ids_consistent. simpl. repeat split; auto; try constructor;
      try (intros ? []; fail); try (intros ? [[]|[]]; fail); try tauto.
  - destruct op as [now| | |e|species p speed rad]; simpl.
    + exists c. now split.
    + destruct (Qleb PHYSICS_TIMESTEP (acc a)); [|eauto].
      unfold drainOne. cbn [pokemonController_ set_clock].
      destruct (updatePokeballs_fields M PHYSICS_TIMESTEP a) as (E & _).
      rewrite E. unfold beforeErase. rewrite Ec.
      destruct (ballLoop_ids M a PHYSICS_TIMESTEP (balls_ a) c) as (ps1 & E1 & Hid1).
      destruct (ballLoop M a PHYSICS_TIMESTEP (balls_ a) (Some c)) as [bs ctl1].
      simpl in E1. subst ctl1.
      unfold handlePokeballCapture.
      pose proof (captureEach_ids (outPokemonIndices_ (set_pokemon ps1 c))
                    (inventory_ (set_pokemon ps1 c)) (pokemon_ (set_pokemon ps1 c))
                    bs (rng a)) as Hid2.
      destruct (captureEach _ _ _ bs (rng a)) as [[ps2 bs2] r2].
      cbn [fst snd] in *. eexists. split; [reflexivity|].
      replace (set_pokemon ps2 (set_pokemon ps1 c)) with (set_pokemon ps2 c)
        by reflexivity.
      apply ids_consistent_roster; [|exact Hc]. simpl in Hid2. congruence.
    + unfold updatePhysics. rewrite Ec. unfold updateAll.
      pose proof (updateEach_ids M (dt_ a) (world_ a) (map pos (props_ a))
                    (pokemon_ c) (rng a)) as Hid.
      destruct (updateEach _ _ _ _ _ _) as [ps1 r1]. cbn [fst] in Hid.
      simpl. eexists. split; [reflexivity|].
      apply ids_consistent_updateInventory.
      now apply ids_consistent_roster.
    + destruct e as [index|speed|cp cf]; simpl; eauto.
      unfold toggleSlot. rewrite Ec.
      destruct (index <? length (inventory_ c))%nat; [|eauto].
      destruct (isPokemonOut index c); simpl; eexists; split; try reflexivity.
      * now apply ids_consistent_recall.
      * now apply ids_consistent_sendOut.
    + unfold spawnWild. rewrite Ec.
      pose proof (@ids_consistent_spawn M (rng a) species p speed rad c Hc) as H1.
      destruct (spawnPokemon M (rng a) species p speed rad 0 c) as [c1 r1].
      simpl in *. eauto.
Qed.

(** X10.  Along every run creature identities stay consistent: ids are
    unique within the roster and within the inventory and lie below the next
    automatic id, and a roster creature shares its id with an inventory
    entry only as that entry's sent-out copy. *)
Theorem identities_stay_unique (M : Libm) (a : App) (c : PokemonController) :
  reachable M a -> pokemonController_ a = Some c ->
  NoDup (map id_ (inventory_ c))
  /\ NoDup (map id_ (pokemon_ c))
  /\ (forall p, In p (pokemon_ c) \/ In p (inventory_ c) ->
                (id_ p < nextPokemonId_ c)%Z)
  /\ (forall p, In p (pokemon_ c) -> In (id_ p) (map id_ (inventory_ c)) ->
                isOwnedPokemon c p = true).
Proof.
  intros R Ec. destruct (reachable_ids_consistent R) as (c' & Ec' & Hc).
  assert (c' = c) by congruence. subst c'.
  destruct Hc as (H1 & H2 & H3 & H4 & _). auto.
Qed.

Lemma identities_stay_unique_witness :
  exists c, pokemonController_ app_hit = Some c
            /\ NoDup (map id_ (pokemon_ c)) /\ map id_ (pokemon_ c) = [1%Z].
Proof.
  assert (E : exists c, pokemonController_ app_hit = Some c
                        /\ map id_ (pokemon_ c) = [1%Z]).
  { eexists. split; vm_compute; reflexivity. }
  destruct E as (c & Ec & Hm). exists c. split; [exact Ec|]. split; [|exact Hm].
  exact (proj1 (proj2 (@identities_stay_unique libm_rational app_hit c
                         app_hit_reachable Ec))).
Defined.

(** X11.  In every state of a run a slot shown as out can be recalled: the
    recall succeeds, removes one creature from the roster and leaves no slot
    active, so the next send-out is possible. *)
Theorem active_slot_can_be_recalled (M : Libm) (a : App) (c : PokemonController)
    (index : nat) :
  reachable M a -> pokemonController_ a = Some c ->
  isPokemonOut index c = true ->
  fst (recallPokemon index c) = true
  /\ outPokemonIndices_ (snd (recallPokemon index c)) = []
  /\ S (length (pokemon_ (snd (recallPokemon index c)))) = length (pokemon_ c)
  /\ inventory_ (snd (recallPokemon index c)) = inventory_ c.
Proof.
  intros R Ec Hout. destruct (reachable_ids_consistent R) as (c' & Ec' & Hc).
  assert (c' = c) by congruence. subst c'.
  destruct Hc as (H1 & H2 & H3 & H4 & H5 & H6).
  unfold isPokemonOut in Hout. apply existsb_exists in Hout.
  destruct Hout as (i & Hi & Hx). apply Nat.eqb_eq in Hx. subst i.
  destruct (H5 index Hi) as (entry & En & Hin).
  assert (Eo : outPokemonIndices_ c = [index]).
  { destruct (outPokemonIndices_ c) as [|o [|o' out]]; simpl in *; try lia; try tauto.
    destruct Hi as [->|[]]. reflexivity. }
  unfold recallPokemon. rewrite En, Eo. cbn [eraseFirst]. rewrite Nat.eqb_refl.
  assert (Hfound : exists ps',
             eraseLast (fun p => (id_ p =? id_ entry)%Z && isOwnedPokemon c p)
                       (pokemon_ c) = Some ps'
             /\ S (length ps') = length (pokemon_ c)).
  { unfold eraseLast.
    apply in_map_iff in Hin. destruct Hin as (p & Hid & Hp).
    assert (Hpred : (id_ p =? id_ entry)%Z && isOwnedPokemon c p = true).
    { rewrite Hid, Z.eqb_refl. cbn [andb]. apply isOwned_true.
      exists index, entry. rewrite Eo. repeat split; auto. now left. }
    apply in_rev in Hp. revert Hp.
    rewrite <- (length_rev (pokemon_ c)).
    generalize (rev (pokemon_ c)). intros l.
    induction l as [|y l IH]; intros Hp; [contradiction|]. simpl.
    destruct ((id_ y =? id_ entry)%Z && isOwnedPokemon c y) eqn:Ey.
    - eexists. split; [reflexivity|]. now rewrite length_rev.
    - destruct Hp as [->|Hp]; [congruence|].
      destruct (IH Hp) as (ps' & E & Hl).
      destruct (eraseFirst _ l) as [r'|]; [|discriminate].
      eexists. split; [reflexivity|]. injection E as <-.
      rewrite !length_rev in *. simpl. lia. }
  destruct Hfound as (ps' & E & Hl). rewrite E. cbn. auto.
Qed.

Lemma app_out_reachable : reachable libm_rational app_out.
Proof. apply reachable_run. apply reach_init. Qed.

Lemma active_slot_can_be_recalled_witness :
  exists c, pokemonController_ app_out = Some c
            /\ fst (recallPokemon 0 c) = true.
Proof.
  assert (E : exists c, pokemonController_ app_out = Some c
                        /\ isPokemonOut 0 c = true).
  { eexists. split; vm_compute; reflexivity. }
  destruct E as (c & Ec & Ho). exists c. split; [exact Ec|].
  exact (proj1 (@active_slot_can_be_recalled libm_rational app_out c 0
                  app_out_reachable Ec Ho)).
Defined.

End Identities.

(** ** The capture pass and the collision primitives *)

Section CapturePassMore.
Import Pokemon Controller App.

Lemma count_locked_struck (pre post : list Pokeball) (ball : Pokeball)
    (p : Pokemon) (roll : Q) :
  locked ball = false ->
  length (filter locked (pre ++ lockOnto p roll ball :: post))
  = S (length (filter locked (pre ++ ball :: post))).
Proof.
  intros Hl. rewrite !filter_app, !length_app. cbn [filter lockOnto locked].
  rewrite Hl. simpl. lia.
Qed.

Lemma skipsCapture_false (out : list nat) (inv : list Pokemon) (p : Pokemon) :
  skipsCapture out inv p = false -> isCapturing p = false.
Proof.
  unfold skipsCapture. intros H.
  apply orb_false_elim in H. destruct H as [H _].
  apply orb_false_elim in H. destruct H as [H _].
  apply orb_false_elim in H. now destruct H.
Qed.

Lemma captureEach_counts (out : list nat) (inv ps : list Pokemon) :
  forall balls r ps' balls' r',
    captureEach out inv ps balls r = (ps', balls', r') ->
    exists n,
      cursor r' = (cursor r + n)%nat
      /\ length (filter locked balls') = (length (filter locked balls) + n)%nat
      /\ length (filter isCapturing ps') = (length (filter isCapturing ps) + n)%nat
      /\ length balls' = length balls
      /\ Forall2 (fun q q' =>
                    (skipsCapture out inv q = true -> q' = q)
                    /\ (q' = q \/ q' = setVisible false (startCapture q)))
                 ps ps'.
Proof.
  induction ps as [|p ps IH]; intros balls r ps' balls' r' H; simpl in H.
  - injection H as <- <- <-. exists 0%nat. repeat split; auto.
  - destruct (skipsCapture out inv p) eqn:Es.
    + destruct (captureEach out inv ps balls r) as [[ps1 balls1] r1] eqn:E.
      injection H as <- <- <-.
      destruct (IH _ _ _ _ _ E) as (n & H1 & H2 & H3 & H4 & H5).
      exists n. cbn [filter].
      destruct (isCapturing p); simpl; repeat split; auto; try lia;
        constructor; auto.
    + pose proof (skipsCapture_false _ _ _ Es) as Hc.
      destruct (tryBalls_spec p balls r)
        as [Ht|(pre & ball & post & -> & Hl & Ht)]; rewrite Ht in H.
      * destruct (captureEach out inv ps balls r) as [[ps1 balls1] r1] eqn:E.
        injection H as <- <- <-.
        destruct (IH _ _ _ _ _ E) as (n & H1 & H2 & H3 & H4 & H5).
        exists n. cbn [filter]. rewrite Hc. repeat split; auto;
          try (constructor; [split; [congruence|now left]|exact H5]).
      * destruct (captureEach out inv ps _ _) as [[ps1 balls1] r1] eqn:E.
        injection H as <- <- <-.
        destruct (IH _ _ _ _ _ E) as (n & H1 & H2 & H3 & H4 & H5).
        exists (S n). cbn [filter]. rewrite Hc.
        rewrite count_locked_struck in H2 by exact Hl.
        cbn [isCapturing startCapture setVisible state_ PokemonState_eqb].
        simpl in H1. rewrite !length_app in *. simpl in *.
        repeat split; auto; try lia;
          try (constructor; [split; [congruence|now right]|exact H5]).
Qed.

(** X12.  One capture pass pairs capsules, creatures and samples one to
    one: the number of samples drawn, the number of capsules that become
    locked and the number of creatures that become [Capturing] are the same.
    No capsule or creature is added or removed, and a creature that is the
    player's sent-out copy, [Captured], [Capturing] or [CaptureFailed] is
    left exactly as it was. *)
Theorem capture_pass_pairs_one_to_one (c : PokemonController)
    (balls : list Pokeball) (r : Rng) :
  let c' := fst (fst (handlePokeballCapture c balls r)) in
  let balls' := snd (fst (handlePokeballCapture c balls r)) in
  let r' := snd (handlePokeballCapture c balls r) in
  (exists n,
     cursor r' = (cursor r + n)%nat
     /\ length (filter locked balls') = (length (filter locked balls) + n)%nat
     /\ length (filter isCapturing (pokemon_ c'))
        = (length (filter isCapturing (pokemon_ c)) + n)%nat)
  /\ length balls' = length balls
  /\ Forall2 (fun q q' =>
                (isOwnedPokemon c q = true \/ state_ q = Captured
                 \/ state_ q = Capturing \/ state_ q = CaptureFailed -> q' = q)
                /\ (q' = q \/ q' = setVisible false (startCapture q)))
             (pokemon_ c) (pokemon_ c')
  /\ inventory_ c' = inventory_ c
  /\ outPokemonIndices_ c' = outPokemonIndices_ c.
Proof.
  cbv zeta. unfold handlePokeballCapture.
  destruct (captureEach _ _ _ balls r) as [[ps' balls'] r'] eqn:E.
  destruct (captureEach_counts _ _ _ _ _ E) as (n & H1 & H2 & H3 & H4 & H5).
  cbn [fst snd pokemon_ inventory_ outPokemonIndices_ set_pokemon].
  split; [exists n; auto|]. split; [exact H4|]. split; [|split; reflexivity].
  eapply Forall2_impl; [|exact H5].
  intros q q' [Hs Hq]. split; [|exact Hq].
  intros Hskip. apply Hs. unfold skipsCapture, isCaptured, isCapturing, captureFailed.
  destruct Hskip as [Ho|[Hst|[Hst|Hst]]].
  - unfold isOwnedPokemon in Ho. rewrite Ho. apply orb_true_r.
  - now rewrite Hst.
  - now rewrite Hst.
  - now rewrite Hst.
Qed.

(** X13.  Shake completion resolves at most one creature, the first in
    roster order that is [Capturing] within distance one of the base
    position; without such a creature the roster is left as it is. *)
Theorem resolveCapture_first_match (M : Libm) (base : vec3) (success : bool)
    (ps : list Pokemon) :
  let inReach := fun p =>
    isCapturing p && Qltb (vlength M (vsub (position_ p) base)) 1 in
  (forallb (fun p => negb (inReach p)) ps = true
   /\ resolveCapture M base success ps = ps)
  \/ exists pre p post,
       ps = pre ++ p :: post
       /\ forallb (fun q => negb (inReach q)) pre = true
       /\ inReach p = true
       /\ resolveCapture M base success ps
          = pre ++ (if success then markCaptured p else markCaptureFailed p) :: post.
Proof.
  cbv zeta. induction ps as [|p ps IH]; [left; split; reflexivity|].
  simpl. destruct (isCapturing p && Qltb _ 1) eqn:E.
  - right. exists [], p, ps. repeat split; auto.
  - destruct IH as [[H1 H2]|(pre & q & post & -> & H1 & H2 & H3)].
    + left. simpl. now rewrite H2.
    + right. exists (p :: pre), q, post. simpl. rewrite E, H1, H3. repeat split; auto.
Qed.

End CapturePassMore.

Section PhysicsMore.
Import App.

Lemma glm_clamp_range (x lo hi : Q) :
  lo <= hi -> lo <= glm_clamp x lo hi /\ glm_clamp x lo hi <= hi.
Proof.
  intros H. unfold glm_clamp, minf, maxf.
  destruct (Qltb x lo) eqn:E1.
  - destruct (Qltb hi lo) eqn:E2.
    + apply Qltb_true in E2. lra.
    + split; [apply Qle_refl|exact H].
  - apply Qltb_false in E1. destruct (Qltb hi x) eqn:E2.
    + split; [exact H|apply Qle_refl].
    + apply Qltb_false in E2. now split.
Qed.

Lemma glm_clamp_inside (x lo hi : Q) :
  lo <= x -> x <= hi -> glm_clamp x lo hi = x.
Proof.
  intros H1 H2. unfold glm_clamp, minf, maxf.
  apply Qltb_false in H1. rewrite H1. apply Qltb_false in H2. now rewrite H2.
Qed.

Lemma Qsquare_nonneg (a : Q) : 0 <= a * a.
Proof.
  destruct (Qlt_le_dec a 0).
  - assert (0 <= (- a) * (- a)) by (apply Qmult_le_0_compat; lra). lra.
  - apply Qmult_le_0_compat; lra.
Qed.

Lemma square_farther (x c q : Q) :
  (x <= c /\ c <= q) \/ (q <= c /\ c <= x) ->
  (x - c) * (x - c) <= (x - q) * (x - q).
Proof.
  intros [[H1 H2]|[H1 H2]].
  - assert (0 <= (q - c) * (c + q - 2 * x)) by (apply Qmult_le_0_compat; lra). lra.
  - assert (0 <= (c - q) * (2 * x - c - q)) by (apply Qmult_le_0_compat; lra). lra.
Qed.

Lemma glm_clamp_nearest (x lo hi q : Q) :
  lo <= hi -> lo <= q -> q <= hi ->
  (x - glm_clamp x lo hi) * (x - glm_clamp x lo hi) <= (x - q) * (x - q).
Proof.
  intros H Hq1 Hq2. unfold glm_clamp, minf, maxf.
  destruct (Qltb x lo) eqn:E1.
  - apply Qltb_true in E1. destruct (Qltb hi lo) eqn:E2.
    + apply Qltb_true in E2. lra.
    + apply square_farther. left. split; lra.
  - apply Qltb_false in E1. destruct (Qltb hi x) eqn:E2.
    + apply Qltb_true in E2. apply square_farther. right. split; lra.
    + assert (E : (x - x) * (x - x) == 0) by ring. rewrite E.
      apply Qsquare_nonneg.
Qed.

(** X14.  For a box with ordered corners, [closestPointOnAABB] returns a
    point of the box, returns the point itself when it is in the box, and no
    point of the box is closer: it minimises the squared distance. *)
Theorem closestPointOnAABB_is_closest (p aabbMin aabbMax q : vec3) :
  vx aabbMin <= vx aabbMax -> vy aabbMin <= vy aabbMax -> vz aabbMin <= vz aabbMax ->
  let inBox := fun a =>
    vx aabbMin <= vx a /\ vx a <= vx aabbMax
    /\ vy aabbMin <= vy a /\ vy a <= vy aabbMax
    /\ vz aabbMin <= vz a /\ vz a <= vz aabbMax in
  let cp := closestPointOnAABB p aabbMin aabbMax in
  inBox cp
  /\ (inBox p -> cp = p)
  /\ (inBox q -> vdot (vsub p cp) (vsub p cp) <= vdot (vsub p q) (vsub p q)).
Proof.
  intros Hx Hy Hz. cbv zeta. unfold closestPointOnAABB. cbn [vx vy vz].
  destruct (glm_clamp_range (vx p) Hx) as [X1 X2].
  destruct (glm_clamp_range (vy p) Hy) as [Y1 Y2].
  destruct (glm_clamp_range (vz p) Hz) as [Z1 Z2].
  split; [tauto|]. split.
  - intros (A1 & A2 & B1 & B2 & C1 & C2).
    rewrite !glm_clamp_inside by assumption. now destruct p.
  - intros (A1 & A2 & B1 & B2 & C1 & C2). unfold vdot, vsub. cbn [vx vy vz].
    pose proof (glm_clamp_nearest (vx p) Hx A1 A2).
    pose proof (glm_clamp_nearest (vy p) Hy B1 B2).
    pose proof (glm_clamp_nearest (vz p) Hz C1 C2).
    lra.
Qed.

Lemma closestPointOnAABB_is_closest_witness :
  closestPointOnAABB (mkVec3 (1 # 4) (1 # 3) 0) (mkVec3 0 0 0) (mkVec3 1 1 1)
  = mkVec3 (1 # 4) (1 # 3) 0.
Proof.
  refine (proj1 (proj2 (@closestPointOnAABB_is_closest
                          (mkVec3 (1 # 4) (1 # 3) 0) (mkVec3 0 0 0) (mkVec3 1 1 1)
                          (mkVec3 0 0 0) _ _ _)) _);
    simpl; repeat split; discriminate.
Defined.



End PhysicsMore.

(** ** Capsule lifetime *)

Section EngineMore.
Import Pokemon Controller App.

(** One increment for one capsule, before expired capsules are removed: the
    loop body, then at most one strike of the capture pass. *)
Lemma beforeErase_each (M : Libm) (dt : Q) (a : App) :
  Forall2 (fun b b2 =>
             exists ctl,
               b2 = fst (ballStep M a dt b ctl)
               \/ (locked (fst (ballStep M a dt b ctl)) = false
                   /\ exists p roll,
                        b2 = lockOnto p roll (fst (ballStep M a dt b ctl))))
          (balls_ a) (fst (fst (fst (beforeErase M dt a)))).
Proof.
  unfold beforeErase.
  destruct (ballLoop M a dt (balls_ a) (pokemonController_ a))
    as [balls1 ctl1] eqn:El.
  pose proof (ballLoop_spec _ _ _ _ _ El) as H1.
  destruct ctl1 as [c|]; cbn [fst].
  - destruct (handlePokeballCapture c balls1 (rng a)) as [[c' balls2] r'] eqn:Ec.
    cbn [fst].
    assert (H2 : Forall2 (fun b b' => b' = b \/ (locked b = false
                            /\ exists p roll, b' = lockOnto p roll b))
                         balls1 balls2).
    { unfold handlePokeballCapture in Ec.
      destruct (captureEach _ _ _ _ _) as [[ps' bs'] r''] eqn:E.
      injection Ec as <- <- <-.
      destruct (captureEach_spec _ _ _ _ _ E) as (_ & Hb & _).
      eapply Forall2_impl; [|exact Hb].
      intros b b' [->|[Hl (p & k & _ & _ & ->)]]; [now left|right].
      split; [exact Hl|]. eauto. }
    eapply Forall2_impl; [|exact (Forall2_compose H1 H2)].
    intros b b2 (b1 & [ctl ->] & Hb2). exists ctl. exact Hb2.
  - eapply Forall2_impl; [|exact H1]. intros b b1 [ctl ->]. exists ctl. now left.
Qed.

Lemma ballStep_clock (M : Libm) (a : App) (b : Pokeball)
    (ctl : option PokemonController) :
  active b = negb (locked b) ->
  let b1 := fst (ballStep M a PHYSICS_TIMESTEP b ctl) in
  locked b1 = locked b /\ active b1 = active b
  /\ remaining b1 == remaining b - PHYSICS_TIMESTEP
  /\ life b1 <= life b
  /\ (0 <= lockTimer b -> 0 <= lockTimer b1).
Proof.
  intros Ha. cbv zeta. unfold ballStep, remaining.
  destruct (locked b) eqn:El.
  - unfold lockedStep. cbn [fst locked active lockTimer life]. rewrite El.
    repeat split; try reflexivity; try apply Qle_refl.
    + ring.
    + intros H. unfold PHYSICS_TIMESTEP. lra.
  - rewrite Ha. cbn [negb]. unfold flyStep.
    cbn [fst locked active lockTimer life]. rewrite El.
    change (minf PHYSICS_TIMESTEP (1 # 60)) with PHYSICS_TIMESTEP.
    repeat split; try reflexivity; auto.
    + ring.
    + unfold PHYSICS_TIMESTEP. lra.
Qed.

(** What one increment does to a live capsule, before removal. *)
Lemma increment_ages (M : Libm) (a : App) :
  Forall2 (fun b b2 =>
             capsule_live b ->
             remaining b2 <= remaining b - PHYSICS_TIMESTEP
             /\ active b2 = negb (locked b2)
             /\ life b2 <= life b
             /\ 0 <= lockTimer b2)
          (balls_ a) (fst (fst (fst (beforeErase M PHYSICS_TIMESTEP a)))).
Proof.
  eapply Forall2_impl; [|apply beforeErase_each].
  intros b b2 (ctl & Hb2) (Ha & Hl0 & Hl1 & Ht0 & Ht1).
  destruct (@ballStep_clock M a b ctl Ha) as (K1 & K2 & K3 & K4 & K5).
  destruct Hb2 as [->|(Hu & p & roll & ->)].
  - repeat split; auto.
    + rewrite K3. apply Qle_refl.
    + now rewrite K1, K2.
  - cbn [lockOnto remaining locked active lockTimer life negb].
    unfold remaining in K3. rewrite Hu in K3. rewrite K1 in Hu. rewrite Hu in K3.
    unfold remaining. rewrite Hu.
    repeat split; auto; try apply Qle_refl.
    unfold PHYSICS_TIMESTEP in *. lra.
Qed.

Lemma updatePokeballs_ages (M : Libm) (a : App) (c : Q) :
  Forall (fun b => capsule_live b /\ remaining b <= c) (balls_ a) ->
  Forall (fun b => capsule_live b /\ remaining b <= c - PHYSICS_TIMESTEP)
         (balls_ (updatePokeballs M PHYSICS_TIMESTEP a)).
Proof.
  intros H. rewrite updatePokeballs_balls.
  pose proof (increment_ages M a) as H2.
  revert H H2. generalize (fst (fst (fst (beforeErase M PHYSICS_TIMESTEP a)))).
  generalize (balls_ a). intros l l' H H2.
  induction H2 as [|b b2 l l' Hb _ IH]; [constructor|].
  inversion H as [|? ? [Hlive Hc] Hrest]; subst.
  specialize (IH Hrest). cbn [filter].
  destruct (expired b2) eqn:Ee; [exact IH|]. cbn [negb].
  constructor; [|exact IH].
  destruct (Hb Hlive) as (K1 & K2 & K3 & K4).
  destruct Hlive as (_ & _ & Hl1 & _).
  unfold expired in Ee. apply orb_false_elim in Ee. destruct Ee as [E1 E2].
  apply Qleb_false in E1.
  split; [|lra].
  unfold capsule_live. repeat split; auto; try lra.
  intros Hl. rewrite Hl in E2. cbn [andb] in E2. now apply Qltb_false in E2.
Qed.

Lemma exec_balls (M : Libm) (a : App) (op : Op) :
  Forall capsule_live (balls_ a) -> Forall capsule_live (balls_ (exec M a op)).
Proof.
  intros H. destruct op as [now| | |e|species p speed rad]; simpl.
  - exact H.
  - destruct (Qleb PHYSICS_TIMESTEP (acc a)); [|exact H].
    unfold drainOne. cbn [balls_ set_clock].
    rewrite updatePokeballs_balls.
    pose proof (increment_ages M a) as H2.
    revert H H2. generalize (fst (fst (fst (beforeErase M PHYSICS_TIMESTEP a)))).
    generalize (balls_ a). intros l l' H H2.
    induction H2 as [|b b2 l l' Hb _ IH]; [constructor|].
    inversion H as [|? ? Hlive Hrest]; subst.
    specialize (IH Hrest). cbn [filter].
    destruct (expired b2) eqn:Ee; [exact IH|]. cbn [negb].
    constructor; [|exact IH].
    destruct (Hb Hlive) as (K1 & K2 & K3 & K4).
    destruct Hlive as (_ & _ & Hl1 & _).
    unfold expired in Ee. apply orb_false_elim in Ee. destruct Ee as [E1 E2].
    apply Qleb_false in E1.
    unfold capsule_live. repeat split; auto; try lra.
    intros Hl. rewrite Hl in E2. cbn [andb] in E2. now apply Qltb_false in E2.
  - unfold updatePhysics. destruct (pokemonController_ a); [|exact H].
    now destruct (updateAll _ _ _ _ _ _).
  - destruct e as [index|speed|cp cf]; simpl.
    + unfold toggleSlot. destruct (pokemonController_ a) as [c|]; [|exact H].
      destruct (index <? length (inventory_ c))%nat; [|exact H].
      now destruct (isPokemonOut index c).
    + apply Forall_app. split; [exact H|]. constructor; [|constructor].
      unfold capsule_live. simpl. repeat split; discriminate.
    + exact H.
  - unfold spawnWild. destruct (pokemonController_ a); [|exact H].
    now destruct (spawnPokemon _ _ _ _ _ _ _ _).
Qed.

Lemma reachable_capsule_live (M : Libm) (a : App) :
  reachable M a -> Forall capsule_live (balls_ a).
Proof.
  induction 1 as [world props r ticks|a op _ IH].
  - constructor.
  - now apply exec_balls.
Qed.

(** X16.  In every state of a run every capsule is flying exactly when it
    is not locked, still has time-to-live, never more than it was thrown
    with, and, once locked, is at most 2.8 seconds into its lock. *)
Theorem capsules_stay_live (M : Libm) (a : App) :
  reachable M a ->
  Forall (fun b =>
            active b = negb (locked b)
            /\ 0 < life b /\ life b <= PROJECTILE_LIFETIME
            /\ 0 <= lockTimer b
            /\ (locked b = true -> lockTimer b <= 28 # 10))
         (balls_ a).
Proof. exact (@reachable_capsule_live M a). Qed.

Lemma capsules_stay_live_witness :
  Forall (fun b =>
            active b = negb (locked b)
            /\ 0 < life b /\ life b <= PROJECTILE_LIFETIME
            /\ 0 <= lockTimer b
            /\ (locked b = true -> lockTimer b <= 28 # 10))
         (balls_ app_hit).
Proof. exact (capsules_stay_live app_hit_reachable). Defined.

Lemma iterate_ages (M : Libm) (n : nat) :
  forall a c,
    Forall (fun b => capsule_live b /\ remaining b <= c) (balls_ a) ->
    Forall (fun b => capsule_live b
                     /\ remaining b <= c - inject_Z (Z.of_nat n) * PHYSICS_TIMESTEP)
           (balls_ (Nat.iter n (updatePokeballs M PHYSICS_TIMESTEP) a)).
Proof.
  induction n as [|n IH]; intros a c H.
  - cbn [Nat.iter]. eapply Forall_impl; [|exact H].
    intros b [H1 H2]. split; [exact H1|].
    change (inject_Z (Z.of_nat 0)) with 0. unfold PHYSICS_TIMESTEP. lra.
  - cbn [Nat.iter]. specialize (IH a c H).
    apply (@updatePokeballs_ages M) in IH.
    eapply Forall_impl; [|exact IH]. intros b [H1 H2]. split; [exact H1|].
    cbv beta in H2. rewrite Nat2Z.inj_succ. unfold Z.succ. rewrite inject_Z_plus.
    change (inject_Z 1) with 1. unfold PHYSICS_TIMESTEP in *. lra.
Qed.

Lemma capsule_live_remaining (b : Pokeball) :
  capsule_live b ->
  0 <= remaining b
  /\ remaining b <= PROJECTILE_LIFETIME + (28 # 10) + PHYSICS_TIMESTEP.
Proof.
  intros (Ha & Hl0 & Hl1 & Ht0 & Ht1). unfold remaining.
  unfold PROJECTILE_LIFETIME, PHYSICS_TIMESTEP in *.
  destruct (locked b); [specialize (Ht1 eq_refl)|]; split; lra.
Qed.

(** X17.  No capsule stays in the world for ever: left alone, the
    capsules of any state of a run are all gone after 2138 physics
    increments, whatever they hit or miss on the way. *)
Theorem capsules_do_not_leak (M : Libm) (a : App) (n : nat) :
  reachable M a -> (2138 <= n)%nat ->
  balls_ (Nat.iter n (updatePokeballs M PHYSICS_TIMESTEP) a) = [].
Proof.
  intros R Hn. pose proof (reachable_capsule_live R) as Hlive.
  assert (H0 : Forall (fun b => capsule_live b
                         /\ remaining b
                            <= PROJECTILE_LIFETIME + (28 # 10) + PHYSICS_TIMESTEP)
                      (balls_ a)).
  { eapply Forall_impl; [|exact Hlive]. intros b Hb. split; [exact Hb|].
    now apply capsule_live_remaining. }
  pose proof (iterate_ages M n a H0) as H1.
  destruct (balls_ (Nat.iter n (updatePokeballs M PHYSICS_TIMESTEP) a)) as [|b l];
    [reflexivity|].
  exfalso. inversion H1 as [|? ? [Hb Hr] _]; subst.
  destruct (capsule_live_remaining Hb) as [Hb0 _].
  assert (Hq : inject_Z 2138 <= inject_Z (Z.of_nat n))
    by (rewrite <- Zle_Qle; lia).
  unfold PROJECTILE_LIFETIME, PHYSICS_TIMESTEP in *.
  change (inject_Z 2138) with 2138 in Hq. lra.
Qed.

Lemma capsules_do_not_leak_witness :
  length (balls_ app_hit) = 1%nat
  /\ balls_ (Nat.iter 2138 (updatePokeballs libm_rational PHYSICS_TIMESTEP) app_hit)
     = [].
Proof.
  split; [vm_compute; reflexivity|].
  apply (@capsules_do_not_leak libm_rational app_hit 2138).
  - exact app_hit_reachable.
  - apply Nat.le_refl.
Defined.

End EngineMore.

(** ** The frame clock *)

Section TimingMore.
Import App.





End TimingMore.

(** ** Throwing and the player against obstacles *)

Section ThrowMore.
Import App Throw.

Lemma mix_between (x y a : Q) :
  x <= y -> 0 <= a -> a <= 1 -> x <= mix x y a /\ mix x y a <= y.
Proof.
  intros Hxy H0 H1. unfold mix.
  assert (P1 : 0 <= (y - x) * a) by (apply Qmult_le_0_compat; lra).
  assert (P2 : 0 <= (y - x) * (1 - a)) by (apply Qmult_le_0_compat; lra).
  split; lra.
Qed.

Lemma glm_clamp_unit (x : Q) :
  0 <= glm_clamp x 0 1 /\ glm_clamp x 0 1 <= 1.
Proof. apply glm_clamp_range. discriminate. Qed.

(** X19.  A throw is never slower than the minimum nor faster than the
    maximum speed, whatever the charge.  Releasing the button while
    charging throws exactly one capsule and ends the charge; releasing it
    when no charge is in progress changes nothing, so a second release has
    no effect. *)
Theorem release_speed_within_limits (M : Libm) (s : Throw.t) :
  minThrowSpeed_ s <= maxThrowSpeed_ s ->
  minThrowSpeed_ s <= releaseSpeed s /\ releaseSpeed s <= maxThrowSpeed_ s
  /\ isCharging_ (handleMouseButtonUp M s) = false
  /\ length (balls_ (app (handleMouseButtonUp M s)))
     = (length (balls_ (app s)) + (if isCharging_ s then 1 else 0))%nat
  /\ handleMouseButtonUp M (handleMouseButtonUp M s) = handleMouseButtonUp M s.
Proof.
  intros H. destruct (glm_clamp_unit (charge_ s)) as [H0 H1].
  destruct (@mix_between (minThrowSpeed_ s) (maxThrowSpeed_ s)
              (glm_clamp (charge_ s) 0 1) H H0 H1) as [K0 K1].
  unfold handleMouseButtonUp. destruct (isCharging_ s) eqn:E.
  - cbn [isCharging_ app]. repeat split; auto.
    unfold spawnPokeball, set_balls. cbn [balls_ set_sim].
    now rewrite length_app.
  - rewrite E. repeat split; auto; lia.
Qed.

Lemma release_speed_within_limits_witness :
  5 <= releaseSpeed (handleMouseButtonDown (Throw.init app0))
  /\ releaseSpeed (handleMouseButtonDown (Throw.init app0)) <= 20.
Proof.
  pose proof (@release_speed_within_limits libm_rational
                (handleMouseButtonDown (Throw.init app0))
                ltac:(vm_compute; discriminate)) as H.
  exact (conj (proj1 H) (proj1 (proj2 H))).
Defined.

(** X20.  While a throw is charging, with a positive full-charge time,
    each frame leaves the charge between 0 and 1 and previews a speed
    between the two speed limits, and releasing the button right after the
    frame throws with exactly the previewed speed. *)
Theorem preview_shows_the_throw (s : Throw.t) :
  isCharging_ s = true -> minThrowSpeed_ s < maxThrowSpeed_ s ->
  0 < maxChargeSeconds_ s ->
  exists v,
    snd (chargeFrame s) = Some v
    /\ 0 <= charge_ (fst (chargeFrame s)) /\ charge_ (fst (chargeFrame s)) <= 1
    /\ minThrowSpeed_ s <= v /\ v <= maxThrowSpeed_ s
    /\ releaseSpeed (fst (chargeFrame s)) = v.
Proof.
  intros Hc Hlt _. unfold chargeFrame. rewrite Hc. cbn [fst snd].
  set (c := glm_clamp (charge_ s + dt_ (app s) / maxChargeSeconds_ s) 0 1).
  destruct (glm_clamp_unit (charge_ s + dt_ (app s) / maxChargeSeconds_ s))
    as [H0 H1]. fold c in H0, H1.
  exists (mix (minThrowSpeed_ s) (maxThrowSpeed_ s) c).
  cbn [charge_]. split; [reflexivity|]. split; [exact H0|]. split; [exact H1|].
  assert (Hle : minThrowSpeed_ s <= maxThrowSpeed_ s) by lra.
  destruct (@mix_between _ _ c Hle H0 H1) as [K0 K1].
  split; [exact K0|]. split; [exact K1|].
  unfold releaseSpeed. cbn [charge_ minThrowSpeed_ maxThrowSpeed_].
  now rewrite (@glm_clamp_inside c 0 1 H0 H1).
Qed.

Lemma preview_shows_the_throw_witness :
  exists v,
    snd (chargeFrame (handleMouseButtonDown (Throw.init app_hit))) = Some v
    /\ releaseSpeed (fst (chargeFrame (handleMouseButtonDown (Throw.init app_hit))))
       = v.
Proof.
  destruct (@preview_shows_the_throw (handleMouseButtonDown (Throw.init app_hit))
              eq_refl ltac:(vm_compute; reflexivity) ltac:(vm_compute; reflexivity))
    as (v & H1 & _ & _ & _ & _ & H2).
  exists v. split; assumption.
Defined.

(** X21.  Holding the button never lowers the throw: in a frame that took
    no negative time the charge does not fall, and it stays at most 1. *)
Theorem charge_never_falls (s : Throw.t) :
  isCharging_ s = true -> 0 <= dt_ (app s) -> 0 < maxChargeSeconds_ s ->
  charge_ s <= 1 ->
  charge_ s <= charge_ (fst (chargeFrame s))
  /\ charge_ (fst (chargeFrame s)) <= 1
  /\ (1 <= charge_ s + dt_ (app s) / maxChargeSeconds_ s ->
      charge_ (fst (chargeFrame s)) == 1).
Proof.
  intros Hc Hd Hm H1. unfold chargeFrame. rewrite Hc. cbn [fst charge_].
  assert (Hq : 0 <= dt_ (app s) / maxChargeSeconds_ s).
  { unfold Qdiv. apply Qmult_le_0_compat; [exact Hd|].
    apply Qlt_le_weak. now apply Qinv_lt_0_compat. }
  set (d := dt_ (app s) / maxChargeSeconds_ s) in *. clearbody d.
  unfold glm_clamp, minf, maxf.
  destruct (Qltb (charge_ s + d) 0) eqn:E1.
  - apply Qltb_true in E1. change (Qltb 1 0) with false. cbv iota.
    repeat split; lra.
  - apply Qltb_false in E1. destruct (Qltb 1 (charge_ s + d)) eqn:E2.
    + apply Qltb_true in E2. repeat split; try lra; intros; reflexivity.
    + apply Qltb_false in E2. repeat split; try lra; intros; lra.
Qed.

Lemma charge_never_falls_witness :
  charge_ (handleMouseButtonDown (Throw.init app_hit))
  <= charge_ (fst (chargeFrame (handleMouseButtonDown (Throw.init app_hit)))).
Proof.
  exact (proj1 (@charge_never_falls (handleMouseButtonDown (Throw.init app_hit))
                  eq_refl ltac:(vm_compute; discriminate)
                  ltac:(vm_compute; reflexivity)
                  ltac:(vm_compute; discriminate))).
Defined.

Lemma previewStep_above (g e dt : Q) (pv : vec3 * vec3) :
  GROUND_Y <= vy (fst (previewStep g e dt pv)).
Proof.
  unfold previewStep. destruct pv as [p v].
  destruct (Qleb _ GROUND_Y) eqn:E; cbn [fst vy].
  - apply Qle_refl.
  - apply Qleb_false in E. now apply Qlt_le_weak.
Qed.

Lemma previewPoints_length (g e dt : Q) (n : nat) :
  forall pv, length (previewPoints g e dt n pv) = n.
Proof. induction n as [|n IH]; intros pv; simpl; [reflexivity|now rewrite IH]. Qed.

Lemma previewPoints_above (g e dt : Q) (n : nat) :
  forall pv, GROUND_Y <= vy (fst pv) ->
             Forall (fun p => GROUND_Y <= vy p) (previewPoints g e dt n pv).
Proof.
  induction n as [|n IH]; intros pv H; cbn [previewPoints]; constructor.
  - exact H.
  - apply IH. apply previewStep_above.
Qed.

(** X22.  For a count that is not negative the trajectory preview has
    exactly that many points; its first point, if any, is where a capsule
    thrown with the same speed is spawned, and no later point lies below the
    ground plane. *)
Theorem trajectory_points (M : Libm) (a : App) (trajMaxPoints : Z) (speed : Q) :
  (0 <= trajMaxPoints)%Z ->
  exists pts b,
    trajectory M a trajMaxPoints speed = Some pts
    /\ length pts = Z.to_nat trajMaxPoints
    /\ Forall (fun p => GROUND_Y <= vy p) (tl pts)
    /\ balls_ (spawnPokeball M speed a) = balls_ a ++ [b]
    /\ hd_error pts = if (0 <? trajMaxPoints)%Z then Some (position b) else None.
Proof.
  intros Hn. unfold trajectory.
  destruct (Z.ltb_spec trajMaxPoints 0) as [Hlt|_]; [lia|].
  unfold spawnPokeball, set_balls. cbn [balls_ set_sim].
  eexists. eexists. split; [reflexivity|].
  split; [apply previewPoints_length|]. split; [|split; [reflexivity|]].
  - destruct (Z.to_nat trajMaxPoints) as [|n]; cbn [previewPoints tl].
    + constructor.
    + apply previewPoints_above. apply previewStep_above.
  - cbn [position]. destruct (0 <? trajMaxPoints)%Z eqn:E.
    + apply Z.ltb_lt in E. destruct (Z.to_nat trajMaxPoints) as [|n] eqn:En; [lia|].
      reflexivity.
    + apply Z.ltb_ge in E. replace (Z.to_nat trajMaxPoints) with 0%nat by lia.
      reflexivity.
Qed.

Lemma trajectory_points_witness :
  exists pts b,
    trajectory libm_rational app0 3 5 = Some pts
    /\ length pts = 3%nat
    /\ Forall (fun p => GROUND_Y <= vy p) (tl pts)
    /\ balls_ (spawnPokeball libm_rational 5 app0) = balls_ app0 ++ [b]
    /\ hd_error pts = Some (position b).
Proof.
  exact (@trajectory_points libm_rational app0 3 5 ltac:(discriminate)).
Defined.

End ThrowMore.

Section PlayerMore.
Import App Player.

Lemma glm_clamp_strictly_inside (x lo hi : Q) :
  lo < x -> x < hi -> glm_clamp x lo hi = x.
Proof.
  intros H1 H2. apply glm_clamp_inside; now apply Qlt_le_weak.
Qed.

Lemma Qeq_bool_self_difference (x : Q) : Qeq_bool (x - x) 0 = true.
Proof. apply Qeq_bool_iff. ring. Qed.

Lemma pushOut_height (r : Q) (p bmin bmax : vec3) :
  vy (pushOutFromAABB_XZ r p bmin bmax) = vy p.
Proof.
  unfold pushOutFromAABB_XZ.
  repeat match goal with
         | |- context [if ?c then _ else _] => destruct c
         end; reflexivity.
Qed.

(** X23.  Pushing the player out of a box never leaves them strictly
    inside the box grown by the player radius; it never changes their
    height, and it moves them along at most one of the two horizontal
    axes. *)
Theorem pushOut_never_inside (r : Q) (p bmin bmax : vec3) :
  let q := pushOutFromAABB_XZ r p bmin bmax in
  vy q = vy p
  /\ (vx q = vx p \/ vz q = vz p)
  /\ ~ (vx bmin - r < vx q /\ vx q < vx bmax + r
        /\ vz bmin - r < vz q /\ vz q < vz bmax + r).
Proof.
  cbv zeta. unfold pushOutFromAABB_XZ.
  destruct (Qeq_bool (vx p - glm_clamp (vx p) (vx bmin - r) (vx bmax + r)) 0
            && Qeq_bool (vz p - glm_clamp (vz p) (vz bmin - r) (vz bmax + r)) 0)
    eqn:E.
  - repeat match goal with
           | |- context [if Qeq_bool ?u ?v then _ else _] =>
               destruct (Qeq_bool u v)
           end; cbn [vx vy vz];
      (split; [reflexivity|]; split; [auto|]; intros (H1 & H2 & H3 & H4); lra).
  - split; [reflexivity|]. split; [now left|]. intros (H1 & H2 & H3 & H4).
    rewrite (glm_clamp_strictly_inside H1 H2) in E.
    rewrite (glm_clamp_strictly_inside H3 H4) in E.
    now rewrite !Qeq_bool_self_difference in E.
Qed.

Lemma pushOut_outside (r : Q) (p bmin bmax : vec3) :
  vx bmin - r <= vx bmax + r -> vz bmin - r <= vz bmax + r ->
  (vx p < vx bmin - r \/ vx bmax + r < vx p
   \/ vz p < vz bmin - r \/ vz bmax + r < vz p) ->
  pushOutFromAABB_XZ r p bmin bmax = p.
Proof.
  intros Hx Hz Hout. unfold pushOutFromAABB_XZ.
  destruct (glm_clamp_range (vx p) Hx) as [X1 X2].
  destruct (glm_clamp_range (vz p) Hz) as [Z1 Z2].
  destruct (Qeq_bool (vx p - glm_clamp (vx p) (vx bmin - r) (vx bmax + r)) 0)
    eqn:E1; [|reflexivity].
  destruct (Qeq_bool (vz p - glm_clamp (vz p) (vz bmin - r) (vz bmax + r)) 0)
    eqn:E2; [|reflexivity].
  exfalso. apply Qeq_bool_iff in E1. apply Qeq_bool_iff in E2.
  destruct Hout as [H|[H|[H|H]]]; lra.
Qed.

Lemma minf_le_maxf (a b : Q) : minf a b <= maxf a b.
Proof.
  unfold minf, maxf. destruct (Qltb b a) eqn:E1, (Qltb a b) eqn:E2;
    repeat match goal with
           | H : Qltb _ _ = true |- _ => apply Qltb_true in H
           | H : Qltb _ _ = false |- _ => apply Qltb_false in H
           end; lra.
Qed.

(** X24.  Obstacles do not disturb a player in free space: a point that is
    strictly outside every prop's box grown by the player radius comes out
    of the obstacle loop unchanged; and the loop never changes the height of
    any point. *)
Theorem free_space_is_untouched (r : Q) (props : list Prop_) (next : vec3) :
  0 <= r -> Forall (outsideProp r next) props ->
  pushOutOfProps r props next = next
  /\ forall q, vy (pushOutOfProps r props q) = vy q.
Proof.
  intros Hr Hout. split.
  - unfold pushOutOfProps. induction Hout as [|prop props Hp _ IH]; [reflexivity|].
    cbn [fold_left]. rewrite pushOut_outside; [exact IH| | |exact Hp];
      cbn [vx vz];
      match goal with
      | |- minf ?a ?b - _ <= maxf ?a ?b + _ =>
          pose proof (minf_le_maxf a b); lra
      end.
  - unfold pushOutOfProps. clear Hout. induction props as [|prop props IH];
      intros q; [reflexivity|].
    cbn [fold_left]. rewrite IH.
    apply pushOut_height.
Qed.

Lemma free_space_is_untouched_witness :
  pushOutOfProps (4 # 10) [mkProp (mkVec3 5 0 5) (mkVec3 1 1 1)
                                  (mkVec3 (-1) 0 (-1)) (mkVec3 1 2 1)]
                 (mkVec3 0 2 (-5))
  = mkVec3 0 2 (-5).
Proof.
  apply (@free_space_is_untouched (4 # 10)
           [mkProp (mkVec3 5 0 5) (mkVec3 1 1 1) (mkVec3 (-1) 0 (-1)) (mkVec3 1 2 1)]
           (mkVec3 0 2 (-5))).
  - discriminate.
  - constructor; [|constructor]. left. vm_compute. reflexivity.
Defined.

End PlayerMore.

(** ** Ground contact of a flying capsule *)

Section ContactMore.
Import App.

(** The terrain response on flat terrain. *)
Lemma terrainCollide_flat (M : Libm) (e rad h : Q) (world : option World.t)
    (pv : vec3 * vec3) :
  flat_terrain M world h -> 0 <= e ->
  let pv' := terrainCollide M e rad world pv in
  vx (fst pv') == vx (fst pv) /\ vz (fst pv') == vz (fst pv)
  /\ (Qltb (distToTerrain M world (fst pv)) rad = true -> 0 <= vy (snd pv'))
  /\ (Qltb (distToTerrain M world (fst pv)) rad = false -> pv' = pv).
Proof.
  intros Hflat He. cbv zeta. unfold terrainCollide.
  destruct (Qltb (distToTerrain M world (fst pv)) rad) eqn:E.
  - destruct pv as [p v]. cbn [fst snd].
    destruct (Hflat p) as [_ (Hnx & Hny & Hnz)].
    set (tn := snd (terrainUnder M world p)) in *.
    cbn [vup vx vy vz] in Hnx, Hny, Hnz.
    set (pen := rad - distToTerrain M world p).
    assert (Hvn : vdot v tn == vy v).
    { unfold vdot. rewrite Hnx, Hny, Hnz. ring. }
    assert (Hb : vy (bounce e v tn) == - e * vy v).
    { unfold bounce, vreflect, vdot, vsub, vscale, vadd. cbn [vx vy vz].
      rewrite Hnx, Hny, Hnz. unfold BOUNCE_FRICTION. ring. }
    unfold respond.
    assert (Hx : vx (vadd p (vscale tn pen)) == vx p).
    { unfold vadd, vscale. cbn [vx]. rewrite Hnx. ring. }
    assert (Hz : vz (vadd p (vscale tn pen)) == vz p).
    { unfold vadd, vscale. cbn [vz]. rewrite Hnz. ring. }
    destruct (Qltb (vdot v tn) 0) eqn:E2; cbn [fst snd].
    + apply Qltb_true in E2. rewrite Hvn in E2.
      split; [exact Hx|]. split; [exact Hz|]. split; [|discriminate].
      intros _. rewrite Hb.
      assert (P : 0 <= e * (- vy v)) by (apply Qmult_le_0_compat; lra). lra.
    + apply Qltb_false in E2. rewrite Hvn in E2.
      split; [exact Hx|]. split; [exact Hz|]. split; [|discriminate].
      intros _. exact E2.
  - split; [reflexivity|]. split; [reflexivity|]. split; [discriminate|reflexivity].
Qed.

(** X25.  On flat terrain the terrain response never moves a capsule
    sideways.  A capsule the penetration test catches leaves the response
    with no downward velocity, whether it bounced or was only pushed out;
    one the test does not catch is left as it is. *)
Theorem terrain_contact_on_flat_ground (M : Libm) (a : App) (h : Q) (b : Pokeball)
    (pv : vec3 * vec3) :
  flat_terrain M (world_ a) h -> 0 <= bounceRestitution_ a ->
  let pv' := terrainCollide M (bounceRestitution_ a) (radius b) (world_ a) pv in
  vx (fst pv') == vx (fst pv) /\ vz (fst pv') == vz (fst pv)
  /\ (Qltb (distToTerrain M (world_ a) (fst pv)) (radius b) = true ->
      0 <= vy (snd pv'))
  /\ (Qltb (distToTerrain M (world_ a) (fst pv)) (radius b) = false -> pv' = pv).
Proof.
  intros Hflat He. exact (@terrainCollide_flat M _ (radius b) h _ pv Hflat He).
Qed.

Lemma terrain_contact_on_flat_ground_witness :
  0 <= vy (snd (terrainCollide libm_rational (bounceRestitution_ app0)
                  (radius ball_rest) (world_ app0)
                  (integrate (gravity_ app0) PHYSICS_TIMESTEP ball_rest))).
Proof.
  refine (proj1 (proj2 (proj2
            (@terrain_contact_on_flat_ground libm_rational app0 GROUND_Y ball_rest
               (integrate (gravity_ app0) PHYSICS_TIMESTEP ball_rest)
               (flat_terrain_ground libm_rational)
               ltac:(vm_compute; discriminate)))) _).
  reflexivity.
Defined.

End ContactMore.

(** ** The slot keys *)

Section SlotKey.
Import Pokemon Controller App.

(** X26.  Pressing the key of a slot that is not out twice restores the
    state: either the send-out is refused both times, or the creature is
    sent out and recalled again, which leaves roster, inventory and active
    slots as they were. *)
Theorem slot_key_twice_restores (index : nat) (a : App) (c : PokemonController) :
  pokemonController_ a = Some c -> isPokemonOut index c = false ->
  toggleSlot index (toggleSlot index a) = a.
Proof.
  intros Ec Hout. destruct a as [bs w pr ctl g e cp cf lt d t ac r n k].
  cbn [pokemonController_] in Ec. subst ctl.
  unfold toggleSlot at 2. cbn [pokemonController_ camPos_ camFront_ world_ rng].
  destruct (index <? length (inventory_ c))%nat eqn:El.
  - rewrite Hout.
    set (p := mkVec3 _ _ _).
    destruct (sendOutPokemon index p c) as [ok c1] eqn:Es. cbn [snd].
    unfold set_controller, set_sim, toggleSlot.
    cbn [pokemonController_ balls_ world_ props_ gravity_ bounceRestitution_
         camPos_ camFront_ lastTicks_ dt_ t_ acc rng increments capturePasses].
    destruct ok.
    + pose proof (sendOut_recall _ _ _ Es) as Hr.
      assert (Hinv : inventory_ c1 = inventory_ c).
      { unfold sendOutPokemon in Es.
        destruct (nth_error (inventory_ c) index); [|discriminate].
        destruct (hasAnyPokemonOut c); [discriminate|].
        destruct (isPokemonOut index c); [discriminate|].
        injection Es as <-. reflexivity. }
      assert (Ho : isPokemonOut index c1 = true).
      { unfold sendOutPokemon in Es.
        destruct (nth_error (inventory_ c) index); [|discriminate].
        destruct (hasAnyPokemonOut c); [discriminate|].
        destruct (isPokemonOut index c); [discriminate|].
        injection Es as <-. unfold isPokemonOut. cbn [outPokemonIndices_].
        rewrite existsb_app. cbn [existsb]. rewrite Nat.eqb_refl.
        now rewrite orb_true_r. }
      rewrite Hinv, El, Ho, Hr. reflexivity.
    + assert (Hc1 : c1 = c).
      { unfold sendOutPokemon in Es.
        destruct (nth_error (inventory_ c) index); [|now injection Es].
        destruct (hasAnyPokemonOut c); [now injection Es|].
        destruct (isPokemonOut index c); [now injection Es|discriminate]. }
      subst c1. rewrite El, Hout. fold p. rewrite Es. reflexivity.
  - unfold toggleSlot. cbn [pokemonController_]. now rewrite El.
Qed.

Lemma slot_key_twice_restores_witness :
  toggleSlot 0 (toggleSlot 0
    (set_controller (Some (mkController [] [captive] [] 1)) rng0 app0))
  = set_controller (Some (mkController [] [captive] [] 1)) rng0 app0.
Proof.
  apply (@slot_key_twice_restores 0
           (set_controller (Some (mkController [] [captive] [] 1)) rng0 app0)
           (mkController [] [captive] [] 1)); reflexivity.
Defined.

End SlotKey.
